(** * regparser.tree.struct: nodes, tree reconstruction, frozen snapshots

    A shallow embedding of [src/regparser/tree/struct.py] (Python 2).

    - [NodeOf C] is the attribute record of the class [Node]; the type
      parameter is what the [children] list holds.
    - The mutating algorithms ([merge_duplicates], [treeify]) run on a store of
      node objects: a [heap] maps a reference to the attributes of the object
      it points to, and [children] holds references, so that two occurrences
      of one object in a list are one object here too.  Every object owns its
      list of children, as in the source: the constructor copies the list it
      is given and [treeify] assigns a new list.
    - The read-only functions ([walk], [find], [join_text], [Node.__repr__],
      [FrozenNode.from_node], the JSON encoder and the decode hook) run on
      [Node], the tree an object graph unfolds to.  A callback of [walk] that
      has effects threads its state through the walk ([walk_state]).
    - A [string] is a byte string ([str]) or a unicode string with code
      points below 256 ([unicode]), as the place says.  Where the two meet the
      conversion is written out: [str] of a unicode label segment raises on a
      character above 127 ([py_str]), and the JSON text holds byte strings
      decoded as UTF-8 ([utf8_decode]). *)

From Stdlib Require Import ZArith String Ascii List Lia DecimalString.
From stdpp Require Import base tactics option list gmap strings.

Set Warnings "-register-all".
Local Open Scope nat_scope.

(** ** Data model *)

(** The attributes of a [Node] instance.  [source_xml] is opaque;
    [tagged_text] is an attribute callers may attach ([getattr] in
    [FrozenNode.from_node] reads it with a default). *)
Record NodeOf (C : Type) := mkNode {
  text : string;
  children : list C;
  label : list string;
  title : option string;
  node_type : string;
  source_xml : option string;
  tagged_text : option string
}.
Arguments mkNode {C}.
Arguments text {C}.
Arguments children {C}.
Arguments label {C}.
Arguments title {C}.
Arguments node_type {C}.
Arguments source_xml {C}.
Arguments tagged_text {C}.

Definition APPENDIX : string := "appendix".
Definition INTERP : string := "interp".
Definition REGTEXT : string := "regtext".
Definition SUBPART : string := "subpart".
Definition EMPTYPART : string := "emptypart".
Definition INTERP_MARK : string := "Interp".

(** [node.children = cs] *)
Definition set_children {C D} (cs : list D) (n : NodeOf C) : NodeOf D :=
  mkNode (text n) cs (label n) (title n) (node_type n) (source_xml n)
         (tagged_text n).

#[global] Instance NodeOf_inhabited C : Inhabited (NodeOf C) :=
  populate (mkNode "" [] [] None REGTEXT None None).

(** A tree of nodes. *)
Inductive Node := Tree (fields : NodeOf Node).

Definition fields (n : Node) : NodeOf Node := let 'Tree f := n in f.
Coercion fields : Node >-> NodeOf.

(** The object store: references are addresses, and every reference a Python
    program holds points to an object. *)
Abbreviation ref := nat (only parsing).
Abbreviation heap := (gmap nat (NodeOf nat)).

(** [Node.label_id] *)
Definition label_id {C} (n : NodeOf C) : string := String.concat "-" (label n).

(** ** Exceptions and results *)

Inductive exn := IndexError | UnicodeEncodeError | UnicodeDecodeError.

Inductive result (A : Type) :=
| Ok (a : A)
| Raise (e : exn)
| OutOfFuel.
Arguments Ok {A}.
Arguments Raise {A}.
Arguments OutOfFuel {A}.

#[global] Instance result_ret : MRet result := λ A a, Ok a.
#[global] Instance result_bind : MBind result := λ A B k m,
  match m with
  | Ok a => k a
  | Raise e => Raise e
  | OutOfFuel => OutOfFuel
  end.

(** What a call returns, for the sample objects, whose calls do return. *)
Definition returned {A} `{Inhabited A} (r : result A) : A :=
  match r with
  | Ok a => a
  | _ => inhabitant
  end.

(** ** Node.__init__ *)

(** The values a caller passes as label segments: byte strings, integers
    and unicode strings (what the JSON parser returns for a string). *)
Inductive pyval :=
| PStr (s : string)
| PInt (z : Z)
| PUni (s : string).

#[global] Instance pyval_eq_dec : EqDecision pyval.
Proof. solve_decision. Defined.

(** No character above 127. *)
Fixpoint is_ascii (s : string) : bool :=
  match s with
  | EmptyString => true
  | String c s' => (N_of_ascii c <? 128)%N && is_ascii s'
  end.

(** [str(l)]: a byte string is returned as it is, an integer gives its
    decimal digits, a unicode string is encoded with the ASCII codec, which
    raises UnicodeEncodeError on a character above 127. *)
Definition py_str (v : pyval) : result string :=
  match v with
  | PStr s => Ok s
  | PInt z => Ok (NilZero.string_of_int (Z.to_int z))
  | PUni s => if is_ascii s then Ok s else Raise UnicodeEncodeError
  end.

(** [l != '']: only the empty byte string and the empty unicode string are
    equal to ['']. *)
Definition not_empty (l : pyval) : Prop := l ≠ PStr "" ∧ l ≠ PUni "".

#[global] Instance not_empty_dec l : Decision (not_empty l).
Proof. unfold not_empty. apply _. Defined.

(** [Node(text, children, label, title, node_type, source_xml)], with [text]
    and [title] already unicode: the children are copied, empty segments are
    dropped from the label and the others pass through [str] from left to
    right, an empty title becomes [None]. *)
Definition Node_init {C} (text : string) (children : list C)
    (label : list pyval) (title : option string) (node_type : string)
    (source_xml : option string) : result (NodeOf C) :=
  label ← mapM py_str (filter not_empty label);
  Ok (mkNode text children label
        (t ← title; if decide (t = "") then None else Some t)
        node_type source_xml None).

(** The node a call of the constructor returns, for the sample objects. *)
Definition Node_ok {C} (text : string) (children : list C)
    (label : list pyval) (title : option string) (node_type : string)
    (source_xml : option string) : NodeOf C :=
  returned (Node_init text children label title node_type source_xml).

(** ** merge_duplicates *)

(** [for ridx, rhs in enumerate(nodes[lidx + 1:], lidx + 1)], with
    [lbl = lhs.label]. *)
Fixpoint scan_rhs (h : heap) (lbl : list string) (lidx ridx : nat)
    (rest : list ref) (found_pair : option (nat * nat)) : option (nat * nat) :=
  match rest with
  | [] => found_pair
  | rhs :: rest' =>
      scan_rhs h lbl lidx (S ridx) rest'
        (if decide (lbl = label (h !!! rhs)) then Some (lidx, ridx)
         else found_pair)
  end.

(** [for lidx, lhs in enumerate(nodes)]; [from] is [nodes[lidx:]]. *)
Fixpoint scan_lhs (h : heap) (lidx : nat) (from : list ref)
    (found_pair : option (nat * nat)) : option (nat * nat) :=
  match from with
  | [] => found_pair
  | lhs :: rest =>
      scan_lhs h (S lidx) rest
        (scan_rhs h (label (h !!! lhs)) lidx (S lidx) rest found_pair)
  end.

Definition find_pair (h : heap) (nodes : list ref) : option (nat * nat) :=
  scan_lhs h 0 nodes None.

(** [lhs.children.extend(rhs.children)]: the list of the object [lhs] grows in
    place. *)
Definition extend_children (h : heap) (lhs rhs : ref) : heap :=
  <[lhs := set_children (children (h !!! lhs) ++ children (h !!! rhs))
             (h !!! lhs)]> h.

(** One pass of the body when a pair was found: the store after the merge and
    [nodes[:ridx] + nodes[ridx + 1:]]. *)
Definition merge_step (h : heap) (nodes : list ref) (lidx ridx : nat)
    : result (heap * list ref) :=
  match nodes !! lidx, nodes !! ridx with
  | Some lhs, Some rhs =>
      Ok (extend_children h lhs rhs, take ridx nodes ++ drop (S ridx) nodes)
  | _, _ => Raise IndexError
  end.

Fixpoint merge_duplicates_fuel (fuel : nat) (h : heap) (nodes : list ref)
    : result (heap * list ref) :=
  match find_pair h nodes with
  | Some (lidx, ridx) =>
      match fuel with
      | 0 => OutOfFuel
      | S fuel' =>
          '(h', nodes') ← merge_step h nodes lidx ridx;
          merge_duplicates_fuel fuel' h' nodes'
      end
  | None => Ok (h, nodes)
  end.

(** Every recursive call drops one element, so the length of the list bounds
    the depth of the recursion. *)
Definition merge_duplicates (h : heap) (nodes : list ref)
    : result (heap * list ref) :=
  merge_duplicates_fuel (length nodes) h nodes.

(** ** treeify *)

(** Python's [l[:k]]; a negative [k] counts from the end. *)
Definition slice_to {A} (k : Z) (l : list A) : list A :=
  if decide (k < 0)%Z then take (Z.to_nat (Z.of_nat (length l) + k)) l
  else take (Z.to_nat k) l.

(** The body of the first loop: the running minimum of the label lengths and
    the nodes that reach it. *)
Definition min_step (h : heap) (st : nat * list ref) (node : ref)
    : nat * list ref :=
  let '(min_len, with_min) := st in
  let n := length (label (h !!! node)) in
  if decide (n = min_len) then (min_len, with_min ++ [node])
  else if decide (n < min_len) then (n, [node])
  else (min_len, with_min).

Definition shortest (h : heap) (nodes : list ref) : list ref :=
  match nodes with
  | [] => []
  | n0 :: _ => (foldl (min_step h) (length (label (h !!! n0)), []) nodes).2
  end.

(** The [is_child] closure of one iteration; [root.label[-1]] raises on an
    empty label. *)
Definition is_child (h : heap) (root : ref) : result (ref → bool) :=
  let rl := label (h !!! root) in
  match last rl with
  | None => Raise IndexError
  | Some seg =>
      if decide (seg = INTERP_MARK) then
        Ok (λ n, bool_decide
                   (slice_to (Z.of_nat (length rl) - 1) (label (h !!! n))
                    = slice_to (-1) rl))
      else
        Ok (λ n, bool_decide
                   (slice_to (Z.of_nat (length rl)) (label (h !!! n)) = rl))
  end.

(** [[n for n in nodes if n.label != root.label and is_child(n)]] *)
Definition select_children (h : heap) (nodes : list ref) (root : ref)
    : result (list ref) :=
  is_child h root ≫= (λ test : ref → bool,
    Ok (filter (λ n, label (h !!! n) ≠ label (h !!! root) ∧ test n) nodes)).

(** [for root in with_min]: [rec] is the recursive call.  The left operand of
    [root.children + treeify(children)] is read before the call. *)
Fixpoint attach (rec : heap → list ref → result (heap * list ref))
    (nodes with_min : list ref) (h : heap) (roots : list ref)
    : result (heap * list ref) :=
  match with_min with
  | [] => Ok (h, roots)
  | root :: rest =>
      selected ← select_children h nodes root;
      let own := children (h !!! root) in
      '(h', sub) ← rec h selected;
      attach rec nodes rest
        (<[root := set_children (own ++ sub) (h' !!! root)]> h')
        (roots ++ [root])
  end.

Fixpoint treeify_fuel (fuel : nat) (h : heap) (nodes : list ref)
    : result (heap * list ref) :=
  match fuel with
  | 0 => OutOfFuel
  | S fuel' =>
      match nodes with
      | [] => Ok (h, nodes)
      | _ :: _ =>
          '(h', with_min) ← merge_duplicates h (shortest h nodes);
          attach (treeify_fuel fuel') nodes with_min h' []
      end
  end.

(** A recursive call works on fewer nodes than its caller (the root itself is
    never selected), so the length of the list bounds the depth. *)
Definition treeify (h : heap) (nodes : list ref) : result (heap * list ref) :=
  treeify_fuel (S (length nodes)) h nodes.

(** ** Traversal *)

(** [walk(node, fn)]: pre-order, the results that are not [None]. *)
Fixpoint walk {R} (fn : Node → option R) (node : Node) : list R :=
  match node with
  | Tree f =>
      match fn node with Some result => [result] | None => [] end
      ++ (children f ≫= walk fn)
  end.

(** [walk(node, fn)] for a callback with effects: [fn] reads and changes a
    state (the list [order] of the unit test, the list [bits] of
    [join_text]).  [results += walk(child, fn)] runs for the children from
    left to right. *)
Fixpoint walk_state {S R} (fn : Node → S → option R * S) (node : Node) (s : S)
    : list R * S :=
  match node with
  | Tree f =>
      let '(result, s) := fn node s in
      foldl (λ '(results, s) child,
               let '(more, s) := walk_state fn child s in (results ++ more, s))
            (match result with Some result => [result] | None => [] end, s)
            (children f)
  end.

(** [find(root, label)]: [check] answers with the node or with [None], and
    the first answer of the walk is returned, [None] when there is none. *)
Definition find (root : Node) (label : string) : option Node :=
  let check (node : Node) :=
    if decide (label_id node = label) then Some node else None in
  head (walk check root).

(** [join_text(node)]: the callback appends to [bits] and returns what
    [append] returns, [None]. *)
Definition join_text (node : Node) : string :=
  let fn (n : Node) (bits : list string) := (@None unit, bits ++ [text n]) in
  String.concat "" (walk_state fn node []).2.

(** ** FrozenNode *)

(** The private attributes of a [FrozenNode]. *)
Inductive FrozenNode :=
  Frozen (text : string) (children : list FrozenNode) (label : list string)
         (title : string) (node_type : string) (tagged_text : string).

Definition frozen_text (n : FrozenNode) : string :=
  let 'Frozen text _ _ _ _ _ := n in text.
Definition frozen_children (n : FrozenNode) : list FrozenNode :=
  let 'Frozen _ children _ _ _ _ := n in children.
Definition frozen_label (n : FrozenNode) : list string :=
  let 'Frozen _ _ label _ _ _ := n in label.
Definition frozen_title (n : FrozenNode) : string :=
  let 'Frozen _ _ _ title _ _ := n in title.
Definition frozen_node_type (n : FrozenNode) : string :=
  let 'Frozen _ _ _ _ node_type _ := n in node_type.
Definition frozen_tagged_text (n : FrozenNode) : string :=
  let 'Frozen _ _ _ _ _ tagged_text := n in tagged_text.

(** [FrozenNode(text, children, label, title, node_type, tagged_text)]; on
    strings [x or ''] is [x]. *)
Definition FrozenNode_init (text : string) (children : list FrozenNode)
    (label : list string) (title node_type tagged_text : string) : FrozenNode :=
  Frozen text children label title node_type tagged_text.

(** [FrozenNode.from_node] *)
Fixpoint from_node (node : Node) : FrozenNode :=
  match node with
  | Tree f =>
      FrozenNode_init (text f) (from_node <$> children f) (label f)
        (default "" (title f)) (node_type f) (default "" (tagged_text f))
  end.

(** *** repr of strings and tuples, as Python 2 prints them *)

Definition single_quote : ascii := "'"%char.
Definition double_quote : ascii := "034"%char.
Definition backslash : ascii := "\"%char.

Fixpoint contains (c : ascii) (s : string) : bool :=
  match s with
  | EmptyString => false
  | String d s' => Ascii.eqb c d || contains c s'
  end.

(** Single quotes, unless the string holds a single quote and no double
    quote. *)
Definition quote_for (s : string) : ascii :=
  if contains single_quote s && negb (contains double_quote s)
  then double_quote else single_quote.

Definition hex_digit (n : N) : ascii :=
  match String.get (N.to_nat n) "0123456789abcdef" with
  | Some c => c
  | None => "0"%char
  end.

(** One character inside the quotes [q]. *)
Definition esc_char (q c : ascii) : string :=
  let n := N_of_ascii c in
  if Ascii.eqb c q || Ascii.eqb c backslash then String backslash (String c "")
  else if Ascii.eqb c "009" then "\t"
  else if Ascii.eqb c "010" then "\n"
  else if Ascii.eqb c "013" then "\r"
  else if (n <? 32)%N || (127 <=? n)%N then
    String backslash
      (String "x" (String (hex_digit (n / 16)) (String (hex_digit (n mod 16)) "")))
  else String c "".

Fixpoint escape (q : ascii) (s : string) : string :=
  match s with
  | EmptyString => ""
  | String c s' => esc_char q c +:+ escape q s'
  end.

(** [repr(s)] for a byte string [s]. *)
Definition repr_str (s : string) : string :=
  let q := quote_for s in String q (escape q s +:+ String q "").

(** [repr(s or '')] for a unicode string [s]: the empty string is the [str]
    constant, any other prints with the prefix u. *)
Definition repr_unicode_or_empty (s : string) : string :=
  if decide (s = "") then "''" else "u" +:+ repr_str s.

(** [repr] of a tuple, given the [repr] of its elements: [()], [(x,)],
    [(x, y, ...)]. *)
Fixpoint repr_more {A} (repr : A → string) (l : list A) : string :=
  match l with
  | [] => ")"
  | x :: l' => ", " +:+ repr x +:+ repr_more repr l'
  end.

Definition repr_tuple {A} (repr : A → string) (l : list A) : string :=
  match l with
  | [] => "()"
  | [x] => "(" +:+ repr x +:+ ",)"
  | x :: l' => "(" +:+ repr x +:+ repr_more repr l'
  end.

(** [FrozenNode.__repr__]; the source caches the value, which never
    changes. *)
Fixpoint FrozenNode_repr (n : FrozenNode) : string :=
  match n with
  | Frozen text children label title _ _ =>
      "FrozenNode(text=" +:+ repr_unicode_or_empty text
      +:+ ", children=" +:+ repr_tuple FrozenNode_repr children
      +:+ ", label=" +:+ repr_tuple repr_str label
      +:+ ", title=" +:+ repr_unicode_or_empty title +:+ ")"
  end.

(** [cmp] on strings. *)
Definition py_cmp (s1 s2 : string) : Z :=
  match String.compare s1 s2 with
  | Lt => -1
  | Eq => 0
  | Gt => 1
  end.

(** [FrozenNode.__cmp__] between two frozen nodes (the classes agree). *)
Definition FrozenNode_cmp (self other : FrozenNode) : Z :=
  py_cmp (FrozenNode_repr self) (FrozenNode_repr other).

(** [self == other], which Python 2 answers through [__cmp__]. *)
Definition FrozenNode_eq (self other : FrozenNode) : bool :=
  bool_decide (FrozenNode_cmp self other = 0%Z).

(** [FrozenNode.__hash__], over the builtin hash of strings. *)
Definition FrozenNode_hash (py_hash : string → Z) (self : FrozenNode) : Z :=
  py_hash (FrozenNode_repr self).

(** [FrozenNode.label_id] *)
Definition FrozenNode_label_id (self : FrozenNode) : string :=
  String.concat "-" (frozen_label self).

(** ** Node.__repr__ and Node.__cmp__ *)

(** [repr(s)] for a unicode string [s]; [text] is one by construction, and
    [node_type] is one of the unicode constants of the class or a string read
    from JSON. *)
Definition repr_unicode (s : string) : string := "u" +:+ repr_str s.

(** [repr(self.title)]: [None] or a unicode string. *)
Definition repr_title (title : option string) : string :=
  match title with
  | None => "None"
  | Some t => repr_unicode t
  end.

(** [repr] of a list, given the [repr] of its elements. *)
Fixpoint repr_items {A} (repr : A → string) (l : list A) : string :=
  match l with
  | [] => "]"
  | x :: l' => ", " +:+ repr x +:+ repr_items repr l'
  end.

Definition repr_list {A} (repr : A → string) (l : list A) : string :=
  match l with
  | [] => "[]"
  | x :: l' => "[" +:+ repr x +:+ repr_items repr l'
  end.

(** [Node.__repr__] *)
Fixpoint Node_repr (n : Node) : string :=
  match n with
  | Tree f =>
      "Node( text = " +:+ repr_unicode (text f)
      +:+ ", children = " +:+ repr_list Node_repr (children f)
      +:+ ", label = " +:+ repr_list repr_str (label f)
      +:+ ", title = " +:+ repr_title (title f)
      +:+ ", node_type = " +:+ repr_unicode (node_type f) +:+ ")"
  end.

(** [Node.__cmp__] and the [==] Python 2 derives from it. *)
Definition Node_cmp (self other : Node) : Z :=
  py_cmp (Node_repr self) (Node_repr other).

Definition Node_eq (self other : Node) : bool :=
  bool_decide (Node_cmp self other = 0%Z).

(** ** JSON: NodeEncoder and node_decode_hook *)

(** The values the encoder produces and the decoder reads: [JStr] is a
    unicode string, [JBytes] a byte string (the parser returns none),
    [JNode] a [Node] object inside such a value. *)
Inductive json :=
| JNull
| JStr (s : string)
| JBytes (s : string)
| JInt (z : Z)
| JArr (items : list json)
| JObj (members : list (string * json))
| JNode (n : Node).

Definition keys (d : list (string * json)) : list string := d.*1.

(** [d[k]] and [del d[k]] *)
Fixpoint item (k : string) (d : list (string * json)) : option json :=
  match d with
  | [] => None
  | (k', v) :: d' => if decide (k' = k) then Some v else item k d'
  end.
Definition del (k : string) (d : list (string * json)) : list (string * json) :=
  filter (λ kv, kv.1 ≠ k) d.

Definition json_of_option (o : option string) : json :=
  match o with
  | Some s => JStr s
  | None => JNull
  end.

(** [obj.__dict__], with the children as [encode] renders them. *)
Definition Node_dict (encode : Node → json) (f : NodeOf Node)
    : list (string * json) :=
  [("text", JStr (text f));
   ("children", JArr (encode <$> children f));
   ("label", JArr (JBytes <$> label f));
   ("title", json_of_option (title f));
   ("node_type", JStr (node_type f));
   ("source_xml", json_of_option (source_xml f))]
  ++ match tagged_text f with
     | Some t => [("tagged_text", JStr t)]
     | None => []
     end.

(** [NodeEncoder.default] on a node. *)
Definition NodeEncoder_default (encode : Node → json) (f : NodeOf Node)
    : list (string * json) :=
  let fields := Node_dict encode f in
  let fields := if decide (title f = None) then del "title" fields else fields in
  foldl (λ fields field,
           if decide (field ∈ keys fields) then del field fields else fields)
        fields ["tagged_text"; "source_xml"; "child_labels"].

(** The encoder applies [default] to every node it meets. *)
Fixpoint encode (n : Node) : json :=
  match n with
  | Tree f => JObj (NodeEncoder_default encode f)
  end.

(** What writing or reading a document comes to: a value, an exception, or
    [Beyond] when a value has a type, or a string a character, that the model
    does not cover. *)
Inductive outcome (A : Type) :=
| Done (a : A)
| Fails (e : exn)
| Beyond.
Arguments Done {A}.
Arguments Fails {A}.
Arguments Beyond {A}.

#[global] Instance outcome_ret : MRet outcome := λ A a, Done a.
#[global] Instance outcome_bind : MBind outcome := λ A B k m,
  match m with
  | Done a => k a
  | Fails e => Fails e
  | Beyond => Beyond
  end.
#[global] Instance outcome_fmap : FMap outcome := λ A B f m,
  match m with
  | Done a => Done (f a)
  | Fails e => Fails e
  | Beyond => Beyond
  end.

Definition typed {A} (o : option A) : outcome A :=
  match o with
  | Some a => Done a
  | None => Beyond
  end.

Definition raised {A} (r : result A) : outcome A :=
  match r with
  | Ok a => Done a
  | Raise e => Fails e
  | OutOfFuel => Beyond
  end.

(** The encoder turns a byte string into text with the UTF-8 codec: a byte
    below 128 is its character, the lead bytes 194 and 195 with a
    continuation byte are the characters 128 to 255, a continuation byte or
    an overlong lead in the place of a lead byte raises UnicodeDecodeError,
    and so does a lead byte without its continuation.  The other lead bytes
    stand for characters above 255, or are errors: [Beyond]. *)
Fixpoint utf8_decode (s : string) : outcome string :=
  match s with
  | EmptyString => Done EmptyString
  | String b rest =>
      let n := N_of_ascii b in
      if (n <? 128)%N then String b <$> utf8_decode rest
      else if (n <? 194)%N then Fails UnicodeDecodeError
      else if (n <? 196)%N then
        match rest with
        | String c rest' =>
            let m := N_of_ascii c in
            if (128 <=? m)%N && (m <? 192)%N
            then String (ascii_of_N ((n - 192) * 64 + (m - 128)))
                   <$> utf8_decode rest'
            else Fails UnicodeDecodeError
        | EmptyString => Fails UnicodeDecodeError
        end
      else Beyond
  end.

(** What the parser reads back from the text the encoder writes for a
    value: every byte string has become a unicode string.  (The encoder has
    replaced the node objects before, see [encode].) *)
Fixpoint reread (v : json) : outcome json :=
  match v with
  | JBytes s => JStr <$> utf8_decode s
  | JArr items => JArr <$> mapM reread items
  | JObj members =>
      JObj <$> mapM (λ '(k, x), (λ y, (k, y)) <$> reread x) members
  | JNode _ => Beyond
  | _ => Done v
  end.

(** [NodeEncoder().encode(n)], as the value the parser reads back. *)
Definition dumps (n : Node) : outcome json := reread (encode n).

(** The argument types of [Node(...)] the model covers; [None] stands for a
    value of another type, which is outside the model. *)
Definition as_text (v : json) : option string :=
  match v with
  | JStr s => Some s
  | _ => None
  end.
Definition as_node (v : json) : option Node :=
  match v with
  | JNode n => Some n
  | _ => None
  end.
Definition as_segment (v : json) : option pyval :=
  match v with
  | JStr s => Some (PUni s)
  | JBytes s => Some (PStr s)
  | JInt z => Some (PInt z)
  | _ => None
  end.
Definition as_list {A} (read : json → option A) (v : json) : option (list A) :=
  match v with
  | JArr items => mapM read items
  | _ => None
  end.
Definition as_title (v : option json) : option (option string) :=
  match v with
  | None | Some JNull => Some None
  | Some (JStr s) => Some (Some s)
  | Some _ => None
  end.

Definition required_keys : list string :=
  ["text"; "children"; "label"; "node_type"].

(** [node_decode_hook]: an object with the four keys becomes a [Node], unless
    the constructor raises; any other object is returned as it is. *)
Definition node_decode_hook (d : list (string * json)) : outcome json :=
  if decide (required_keys ⊆ keys d) then
    text ← typed (item "text" d ≫= as_text);
    children ← typed (item "children" d ≫= as_list as_node);
    label ← typed (item "label" d ≫= as_list as_segment);
    title ← typed (as_title (item "title" d));
    node_type ← typed (item "node_type" d ≫= as_text);
    n ← raised (Node_init text children label title node_type None);
    Done (JNode (Tree n))
  else Done (JObj d).

(** Decoding with the hook: the members of an object are decoded first, then
    the hook sees the object. *)
Fixpoint decode (v : json) : outcome json :=
  match v with
  | JArr items => JArr <$> mapM decode items
  | JObj members =>
      d ← mapM (λ '(k, x), (λ y, (k, y)) <$> decode x) members;
      node_decode_hook d
  | _ => Done v
  end.

(** * Vocabulary of the specification *)

(** ** Objects and stores *)

(** Everything about an object except its children. *)
Definition same_attrs {C D} (a : NodeOf C) (b : NodeOf D) : Prop :=
  text a = text b ∧ label a = label b ∧ title a = title b ∧
  node_type a = node_type b ∧ source_xml a = source_xml b ∧
  tagged_text a = tagged_text b.

(** [h'] differs from [h] at most in the [children] of objects. *)
Definition attrs_kept (h h' : heap) : Prop :=
  ∀ a, same_attrs (h !!! a) (h' !!! a).

(** [h'] is [h] outside the objects of [nodes]. *)
Definition frame (nodes : list ref) (h h' : heap) : Prop :=
  ∀ a, a ∉ nodes → h' !!! a = h !!! a.

(** The labels of the objects a list of references points to. *)
Definition labels (h : heap) (nodes : list ref) : list (list string) :=
  (λ a, label (h !!! a)) <$> nodes.

(** The references of a list whose object carries the label [L], in order. *)
Definition labelled (h : heap) (L : list string) (nodes : list ref) : list ref :=
  filter (λ a, label (h !!! a) = L) nodes.

(** Positions [i < j] hold equal labels. *)
Definition equal_pair (ls : list (list string)) (i j : nat) : Prop :=
  i < j ∧ ∃ l, ls !! i = Some l ∧ ls !! j = Some l.

(** The input treeify expects: every node has a label of at least one
    segment. *)
Definition well_formed (h : heap) (nodes : list ref) : Prop :=
  ∀ n, n ∈ nodes → label (h !!! n) ≠ [].

(** A store that holds the objects of a list at the addresses [0, 1, ...]. *)
Definition load (objs : list (NodeOf ref)) : heap := map_seq 0 objs.

(** The objects of [objs] sit in the store at the addresses from [b] on. *)
Definition placed (h : heap) (b : nat) (objs : list (NodeOf ref)) : Prop :=
  ∀ k obj, objs !! k = Some obj → h !!! (b + k) = obj.

(** The objects from address [b] on carry the labels [ls]. *)
Definition labels_at (h : heap) (b : nat) (ls : list (list string)) : Prop :=
  ∀ k l, ls !! k = Some l → label (h !!! (b + k)) = l.

(** The tree an object unfolds to; the store may hold cycles, hence the
    bound on the depth. *)
Fixpoint snapshot (depth : nat) (h : heap) (a : ref) : option Node :=
  match depth with
  | 0 => None
  | S depth' =>
      cs ← mapM (snapshot depth' h) (children (h !!! a));
      Some (Tree (set_children cs (h !!! a)))
  end.

(** The children of every object of [h] are still there in [h'], at the
    front and in order. *)
Definition grows (h h' : heap) : Prop :=
  ∀ a, children (h !!! a) `prefix_of` children (h' !!! a).

(** ** Trees *)

(** The nodes of a tree in pre-order. *)
Fixpoint preorder (t : Node) : list Node :=
  match t with
  | Tree f => t :: (children f ≫= preorder)
  end.

(** Running a callback with effects over a list of nodes, collecting the
    answers that are not [None]. *)
Definition visit {S R} (fn : Node → S → option R * S)
    (acc : list R * S) (n : Node) : list R * S :=
  let '(r, s) := fn n acc.2 in (acc.1 ++ option_list r, s).

(** ** Nodes as the constructor leaves them *)

(** What [__init__] establishes about the label and the title. *)
Definition init_invariant {C} (n : NodeOf C) : Prop :=
  Forall (λ segment, segment ≠ "") (label n) ∧ title n ≠ Some "".

(** The tree whose nodes are constructed anew, bottom-up, from the
    attributes [text], [children], [label], [title] and [node_type] of the
    nodes of [n]. *)
Fixpoint renew (n : Node) : Node :=
  match n with
  | Tree f =>
      Tree (Node_ok (text f) (renew <$> children f) (PStr <$> label f)
              (title f) (node_type f) None)
  end.

(** Every label segment of every node of the tree is ASCII. *)
Fixpoint ascii_labels (n : Node) : bool :=
  match n with
  | Tree f => forallb is_ascii (label f) && forallb ascii_labels (children f)
  end.

(** A label segment a call of [str] accepts. *)
Definition str_ok (l : pyval) : Prop :=
  match l with
  | PUni s => is_ascii s
  | _ => True
  end.

#[global] Instance str_ok_dec l : Decision (str_ok l).
Proof. destruct l; apply _. Defined.

(** A hash of strings without collisions: the string read as a number in
    base 256 under a leading one. *)
Fixpoint string_code (s : string) : Z :=
  match s with
  | EmptyString => 1
  | String c s' => 256 * string_code s' + Z.of_N (N_of_ascii c)
  end.

(** A label segment without the separator of [label_id]. *)
Definition dash : ascii := "-"%char.
Definition dashless (segment : string) : Prop := contains dash segment = false.

(** What follows a segment in a [label_id]: nothing, or the separator. *)
Definition after_segment (r : string) : Prop :=
  r = "" ∨ ∃ r', r = String dash r'.

(** Every node of the tree is as [__init__] leaves it. *)
Fixpoint constructed (n : Node) : bool :=
  match n with
  | Tree f => bool_decide (init_invariant f) && forallb constructed (children f)
  end.

(** A tree of nodes without [source_xml] and [tagged_text], and without
    [node_type] unless [keep_type] is set. *)
Fixpoint fields_of (keep_type : bool) (n : Node) : Node :=
  match n with
  | Tree f =>
      Tree (mkNode (text f) (fields_of keep_type <$> children f) (label f)
              (title f) (if keep_type then node_type f else "") None None)
  end.

(** A JSON value as the parser hands it to the hook: no node objects
    inside. *)
Fixpoint raw (v : json) : bool :=
  match v with
  | JNode _ => false
  | JArr items => forallb raw items
  | JObj members => forallb (λ '(_, x), raw x) members
  | _ => true
  end.

(** Every node object inside a value is as [__init__] leaves nodes, in all
    of its tree. *)
Fixpoint nodes_constructed (v : json) : bool :=
  match v with
  | JNode n => constructed n
  | JArr items => forallb nodes_constructed items
  | JObj members => forallb (λ '(_, x), nodes_constructed x) members
  | _ => true
  end.

(** ** The child rule and grouped trees *)

(** The child rule of treeify on labels: a node labelled [nl] falls under a
    root labelled [rl] when the labels differ and [rl] is a prefix of [nl],
    where a root whose label ends in the marker is compared without its last
    segment. *)
Definition adopts (rl nl : list string) : Prop :=
  nl ≠ rl ∧
  if decide (last rl = Some INTERP_MARK)
  then take (length rl - 1) nl = take (length rl - 1) rl
  else rl `prefix_of` nl.

#[global] Instance adopts_dec rl nl : Decision (adopts rl nl).
Proof. unfold adopts. case_decide; apply _. Defined.

(** The flat list of a tree: its nodes in pre-order, each without children;
    and the flat list of a forest. *)
Definition flatten (t : Node) : list (NodeOf ref) :=
  walk (λ n, Some (set_children [] (fields n))) t.

Definition cells (ts : list Node) : list (NodeOf ref) := ts ≫= flatten.

(** The labels in a tree, and those strictly below its root. *)
Definition within (t : Node) : list (list string) := label <$> flatten t.
Definition below (t : Node) : list (list string) :=
  label <$> cells (children t).

(** A group of siblings is consistent with the labels when the siblings carry
    distinct, non-empty labels of one length, every label below a sibling is
    longer and falls under it by the child rule, and no label in the subtree
    of another sibling does. *)
Definition siblings_ok (ts : list Node) : Prop :=
  NoDup ((λ t : Node, label t) <$> ts) ∧
  Forall (λ t : Node,
    label t ≠ [] ∧
    Forall (λ u : Node, length (label u) = length (label t)) ts ∧
    Forall (λ d, length (label t) < length d ∧ adopts (label t) d) (below t) ∧
    Forall (λ u : Node,
      label u ≠ label t → Forall (λ d, ¬ adopts (label t) d) (within u)) ts)
    ts.

#[global] Instance siblings_ok_dec ts : Decision (siblings_ok ts).
Proof. unfold siblings_ok. apply _. Defined.

(** Every group of siblings in the tree is consistent. *)
Fixpoint grouped (t : Node) : bool :=
  match t with
  | Tree f => bool_decide (siblings_ok (children f)) && forallb grouped (children f)
  end.

(** The same for the root, a group of its own. *)
Definition grouped_tree (t : Node) : Prop := siblings_ok [t] ∧ grouped t.

(** Trees labelled one segment per level.  An ordinary label has at least
    one segment and does not end in the marker; the label of a child is the
    label of its parent and one more segment; siblings differ. *)
Definition plain_label (l : list string) : Prop :=
  l ≠ [] ∧ last l ≠ Some INTERP_MARK.

Definition child_label (parent child : list string) : Prop :=
  parent `prefix_of` child ∧ length child = S (length parent).

Fixpoint by_segment (t : Node) : bool :=
  match t with
  | Tree f =>
      bool_decide
        (NoDup ((λ c : Node, label c) <$> children f) ∧
         Forall (λ c : Node, child_label (label f) (label c) ∧
                             plain_label (label c)) (children f))
      && forallb by_segment (children f)
  end.

Definition segmented (t : Node) : Prop := plain_label (label t) ∧ by_segment t.

(** ** Forests in the store *)

(** The addresses of the roots of a forest laid out in pre-order from [b]. *)
Fixpoint root_addrs (b : nat) (ts : list Node) : list ref :=
  match ts with
  | [] => []
  | t :: ts' => b :: root_addrs (b + length (flatten t)) ts'
  end.

(** The store holds the forest [ts] in pre-order from address [b]: each
    object has the attributes of its node and refers to the objects of the
    node's children. *)
Inductive built (h : heap) : nat → list Node → Prop :=
| built_nil b : built h b []
| built_cons b f ts :
    h !!! b = set_children (root_addrs (S b) (children f)) f →
    built h (S b) (children f) →
    built h (b + length (flatten (Tree f))) ts →
    built h b (Tree f :: ts).

(** With [fuel], treeify rebuilds every grouped forest laid out in the store
    whose flat list is shorter than [fuel]. *)
Definition rebuilds (fuel : nat) : Prop :=
  ∀ ts h b,
    length (cells ts) < fuel → siblings_ok ts → Forall (λ t, grouped t) ts →
    placed h b (cells ts) →
    ∃ h', treeify_fuel fuel h (seq b (length (cells ts)))
            = Ok (h', root_addrs b ts) ∧
          built h' b ts ∧ frame (seq b (length (cells ts))) h h' ∧
          attrs_kept h h'.

(** ** What repr shows *)

(** What [repr] shows of a frozen tree: everything but [node_type] and
    [tagged_text]. *)
Fixpoint shown (n : FrozenNode) : FrozenNode :=
  match n with
  | Frozen text children label title _ _ =>
      Frozen text (shown <$> children) label title "" ""
  end.

(** A rendering [repr] can be read back: what follows a rendered value in a
    longer text is determined, and so is the part [p] of the value. *)
Definition reads_back {A B} (repr : A → string) (p : A → B) (a : A) : Prop :=
  ∀ b r s, repr a +:+ r = repr b +:+ s → p a = p b ∧ r = s.

(** The reading of one escaped character back, used to show that [repr]
    is unambiguous. *)
Definition hex_value (c : ascii) : option N :=
  let n := N_of_ascii c in
  if (48 <=? n)%N && (n <=? 57)%N then Some (n - 48)%N
  else if (97 <=? n)%N && (n <=? 102)%N then Some (n - 87)%N
  else None.

Definition unescape (q : ascii) (s : string) : option (ascii * string) :=
  match s with
  | EmptyString => None
  | String c rest =>
      if Ascii.eqb c q then None
      else if Ascii.eqb c backslash then
        match rest with
        | EmptyString => None
        | String d rest' =>
            if Ascii.eqb d "t" then Some ("009"%char, rest')
            else if Ascii.eqb d "n" then Some ("010"%char, rest')
            else if Ascii.eqb d "r" then Some ("013"%char, rest')
            else if Ascii.eqb d "x" then
              match rest' with
              | String h1 (String h2 rest'') =>
                  v1 ← hex_value h1; v2 ← hex_value h2;
                  Some (ascii_of_N (16 * v1 + v2), rest'')
              | _ => None
              end
            else Some (d, rest')
        end
      else Some (c, rest)
  end.

(** * Sample objects *)

(** [Node(text, label=segments)] with the segments given as strings. *)
Definition sample (txt : string) (segments : list string) : NodeOf ref :=
  Node_ok txt [] (PStr <$> segments) None REGTEXT None.

(** Labels A, B, B, A at the addresses 0 to 3, each object with one child. *)
Definition abba : heap :=
  load [set_children [10] (sample "a0" ["A"]);
        set_children [11] (sample "b1" ["B"]);
        set_children [12] (sample "b2" ["B"]);
        set_children [13] (sample "a3" ["A"])].

(** Two nodes with one label. *)
Definition twins : heap :=
  load [set_children [10; 11] (sample "first" ["1005"; "2"]);
        set_children [12] (sample "second" ["1005"; "2"])].

(** An object with the empty label, at address 0. *)
Definition unlabelled : heap := load [sample "orphan" []].

(** An interpretation root among the nodes of part 1. *)
Definition interp_nodes : heap :=
  load [sample "interpretations" ["1"; "Interp"];
        sample "section" ["1"; "2"];
        sample "comment" ["1"; "2"; "Interp"];
        sample "other part" ["2"; "1"]].

(** The tree of the test of [walk]: 1 above 2 and 3, 2 above 4. *)
Definition numbered (txt : string) (cs : list Node) : Node :=
  Tree (Node_ok txt cs [] None REGTEXT None).
Definition tree_1243 : Node :=
  numbered "1" [numbered "2" [numbered "4" []]; numbered "3" []].

(** A regulation part with two sections, the first with two paragraphs. *)
Definition part_1005 : Node :=
  Tree (Node_ok "part" [
    Tree (Node_ok "section 1" [
      Tree (Node_ok "par a" [] [PStr "1005"; PInt 1; PStr "a"] None REGTEXT None);
      Tree (Node_ok "par b" [] [PStr "1005"; PInt 1; PStr "b"] None REGTEXT None)]
      [PStr "1005"; PInt 1] (Some "Definitions") REGTEXT None);
    Tree (Node_ok "section 2" [] [PStr "1005"; PInt 2] None REGTEXT None)]
    [PStr "1005"] (Some "Part 1005") REGTEXT None).

(** [part_1005] with one segment of the label of paragraph b changed. *)
Definition part_1005_edited : Node :=
  Tree (Node_ok "part" [
    Tree (Node_ok "section 1" [
      Tree (Node_ok "par a" [] [PStr "1005"; PInt 1; PStr "a"] None REGTEXT None);
      Tree (Node_ok "par b" [] [PStr "1005"; PInt 1; PStr "c"] None REGTEXT None)]
      [PStr "1005"; PInt 1] (Some "Definitions") REGTEXT None);
    Tree (Node_ok "section 2" [] [PStr "1005"; PInt 2] None REGTEXT None)]
    [PStr "1005"] (Some "Part 1005") REGTEXT None).

(** The interpretations of part 1005: the comments on sections 2 and 3
    under the interpretation root. *)
Definition interp_1005 : Node :=
  Tree (Node_ok "Supplement I" [
    Tree (Node_ok "comment on 2" []
            [PStr "1005"; PInt 2; PStr "Interp"] None INTERP None);
    Tree (Node_ok "comment on 3" []
            [PStr "1005"; PInt 3; PStr "Interp"] None INTERP None)]
    [PStr "1005"; PStr "Interp"] None INTERP None).

(** A part whose children are an interpretation root and a section. *)
Definition mixed_1005 : Node :=
  Tree (Node_ok "part" [
    Tree (Node_ok "Supplement I" [] [PStr "1005"; PStr "Interp"] None INTERP None);
    Tree (Node_ok "section 2" [] [PStr "1005"; PInt 2] None REGTEXT None)]
    [PStr "1005"] None REGTEXT None).

(** A paragraph whose label holds the section sign, the bytes 194 and 167
    in UTF-8, and one whose label holds the byte 167 alone. *)
Definition section_sign : string := String "194" (String "167" "").
Definition par_sign : Node :=
  Tree (Node_ok "par" [] [PStr "1005"; PStr section_sign] None REGTEXT None).
Definition par_stray : Node :=
  Tree (Node_ok "par" [] [PStr "1005"; PStr (String "167" "")] None REGTEXT None).

(** A paragraph as the XML parser leaves it, with [source_xml] and
    [tagged_text], and the same paragraph as read back from JSON. *)
Definition par_a_parsed : Node :=
  Tree (mkNode "par a" [] ["1005"; "1"; "a"] None REGTEXT
          (Some "<P>par a</P>") (Some "par <E>a</E>")).
Definition par_a_plain : Node :=
  Tree (Node_ok "par a" [] [PStr "1005"; PInt 1; PStr "a"] None REGTEXT None).

(** Two frozen nodes that differ in [node_type] and [tagged_text] only. *)
Definition frozen_regtext : FrozenNode :=
  FrozenNode_init "Some text" [] ["1005"; "1"] "Title" REGTEXT "".
Definition frozen_appendix : FrozenNode :=
  FrozenNode_init "Some text" [] ["1005"; "1"] "Title" APPENDIX "<b>Some</b> text".

(** * Properties *)

(** ** Lists *)

Section list_facts.
Context {A : Type} (P : A → Prop) `{!∀ x, Decision (P x)}.

Lemma filter_none (l : list A) : (∀ x, x ∈ l → ¬ P x) → filter P l = [].
Proof.
  induction l as [|x l IH]; intros Hall; [done|].
  rewrite filter_cons_False by (apply Hall; left).
  apply IH. intros y Hy. apply Hall. by right.
Qed.

Lemma filter_all (l : list A) : (∀ x, x ∈ l → P x) → filter P l = l.
Proof.
  induction l as [|x l IH]; intros Hall; [done|].
  rewrite filter_cons_True by (apply Hall; left).
  f_equal. apply IH. intros y Hy. apply Hall. by right.
Qed.

(** Two positions that satisfy [P]: the earlier one is among the matches
    before the later one. *)
Lemma filter_two_positions (l : list A) i j a b :
  i < j → l !! i = Some a → l !! j = Some b → P a → P b →
  a ∈ filter P (take j l) ∧
  filter P l = filter P (take j l) ++ b :: filter P (drop (S j) l).
Proof.
  intros Hlt Hi Hj Ha Hb. split.
  - apply list_elem_of_filter. split; [done|].
    eapply list_elem_of_lookup_2. by rewrite lookup_take_lt.
  - rewrite <-(take_drop_middle l j b Hj) at 1.
    by rewrite filter_app, filter_cons_True.
Qed.

End list_facts.

(** ** Induction on trees *)

Section tree_induction.

Lemma FrozenNode_ind' (P : FrozenNode → Prop) :
  (∀ text children label title node_type tagged_text,
     Forall P children →
     P (Frozen text children label title node_type tagged_text)) →
  ∀ n, P n.
Proof.
  intros step. fix IH 1. intros [text children label title node_type tagged].
  apply step. induction children as [|c children IHc]; constructor.
  - apply IH.
  - apply IHc.
Qed.

Lemma Node_ind' (P : Node → Prop) :
  (∀ f : NodeOf Node, Forall P (children f) → P (Tree f)) → ∀ n, P n.
Proof.
  intros step. fix IH 1. intros [f]. apply step.
  destruct f as [? cs ? ? ? ? ?]. cbn [children].
  induction cs as [|c cs IHc]; constructor.
  - apply IH.
  - apply IHc.
Qed.

End tree_induction.


(** ** The scan of merge_duplicates *)

Section merge_facts.
Implicit Types (h : heap) (nodes rest : list nat) (lbl : list string).

Lemma labels_cons h a nodes :
  labels h (a :: nodes) = label (h !!! a) :: labels h nodes.
Proof. reflexivity. Qed.

Lemma labels_lookup h nodes i a :
  nodes !! i = Some a → labels h nodes !! i = Some (label (h !!! a)).
Proof. intros H. unfold labels. by rewrite list_lookup_fmap, H. Qed.

Lemma length_labels h nodes : length (labels h nodes) = length nodes.
Proof. unfold labels. by rewrite length_fmap. Qed.

(** The inner loop keeps [found_pair] when no later label matches, and
    otherwise leaves the last match. *)
Lemma scan_rhs_spec h lbl lidx rest : ∀ ridx found,
  (scan_rhs h lbl lidx ridx rest found = found ∧ lbl ∉ labels h rest) ∨
  (∃ j, scan_rhs h lbl lidx ridx rest found = Some (lidx, ridx + j) ∧
        labels h rest !! j = Some lbl ∧
        ∀ j', j < j' → labels h rest !! j' ≠ Some lbl).
Proof.
  induction rest as [|rhs rest IH]; intros ridx found;
    cbn [scan_rhs]; rewrite ?labels_cons.
  - left. split; [done|]. apply not_elem_of_nil.
  - destruct (IH (S ridx)
      (if decide (lbl = label (h !!! rhs)) then Some (lidx, ridx) else found))
      as [[-> Hno]|(j & -> & Hj & Hmax)].
    + destruct (decide (lbl = label (h !!! rhs))) as [->|Hne].
      * right. exists 0. rewrite Nat.add_0_r. split_and!; [done..|].
        intros [|j'] ? ; [lia|]. simpl. intros Hin.
        apply Hno. by eapply list_elem_of_lookup_2.
      * left. split; [done|]. rewrite not_elem_of_cons. done.
    + right. exists (S j). rewrite Nat.add_succ_r. split_and!; [done..|].
      intros [|j'] ?; [lia|]. simpl. apply Hmax. lia.
Qed.

(** The outer loop keeps [found_pair] when the list holds no two equal
    labels, and otherwise leaves the pair that is last in the order of the
    scan: the greatest [i], and for it the greatest [j]. *)
Lemma scan_lhs_spec h : ∀ nodes lidx found,
  (scan_lhs h lidx nodes found = found ∧
   ∀ i j, ¬ equal_pair (labels h nodes) i j) ∨
  (∃ i j, scan_lhs h lidx nodes found = Some (lidx + i, lidx + j) ∧
          equal_pair (labels h nodes) i j ∧
          ∀ i' j', equal_pair (labels h nodes) i' j' →
                   i' < i ∨ (i' = i ∧ j' ≤ j)).
Proof.
  induction nodes as [|lhs rest IH]; intros lidx found;
    cbn [scan_lhs]; rewrite ?labels_cons.
  - left. split; [done|]. intros i j (_ & l & Hi & _). done.
  - destruct (IH (S lidx)
      (scan_rhs h (label (h !!! lhs)) lidx (S lidx) rest found))
      as [[-> Hno]|(i & j & -> & Hij & Hmax)].
    + destruct (scan_rhs_spec h (label (h !!! lhs)) lidx rest (S lidx) found)
        as [[-> Hnot]|(j & -> & Hj & Hmax)].
      * left. split; [done|]. intros [|i] [|j] (Hlt & l & Hi & Hj); try lia.
        -- simpl in Hi, Hj. simplify_eq.
           apply Hnot. by eapply list_elem_of_lookup_2.
        -- apply (Hno i j). split; [lia|]. by exists l.
      * right. exists 0, (S j). rewrite Nat.add_0_r, Nat.add_succ_r.
        split_and!; [done| |].
        -- split; [lia|]. by exists (label (h !!! lhs)).
        -- intros [|i'] [|j'] (Hlt & l & Hi & Hj'); try lia.
           ++ right. split; [done|]. simpl in Hi, Hj'. simplify_eq.
              destruct (decide (j' ≤ j)); [lia|].
              exfalso. apply (Hmax j'); [lia|done].
           ++ exfalso. apply (Hno i' j'). split; [lia|]. by exists l.
    + right. exists (S i), (S j). rewrite !Nat.add_succ_r.
      split_and!; [done| |].
      * destruct Hij as (Hlt & l & Hi & Hj). split; [lia|]. by exists l.
      * intros [|i'] [|j'] (Hlt & l & Hi & Hj'); try lia.
        destruct (Hmax i' j') as [?|[? ?]]; [|lia..].
        split; [lia|]. by exists l.
Qed.

Lemma find_pair_Some h nodes i j :
  find_pair h nodes = Some (i, j) →
  equal_pair (labels h nodes) i j ∧
  ∀ i' j', equal_pair (labels h nodes) i' j' → i' < i ∨ (i' = i ∧ j' ≤ j).
Proof.
  unfold find_pair. intros Hf.
  destruct (scan_lhs_spec h nodes 0 None) as [[Hn _]|(i0 & j0 & Hs & Hij & Hmax)].
  - congruence.
  - rewrite Hs in Hf. simplify_eq. done.
Qed.

Lemma find_pair_None h nodes :
  find_pair h nodes = None ↔ NoDup (labels h nodes).
Proof.
  unfold find_pair.
  destruct (scan_lhs_spec h nodes 0 None) as [[Hn Hno]|(i & j & Hs & Hij & _)].
  - split; [intros _|done]. apply NoDup_alt. intros i j l Hi Hj.
    destruct (Nat.lt_total i j) as [?|[?|?]]; [|done|].
    + destruct (Hno i j). split; [done|]. by exists l.
    + destruct (Hno j i). split; [done|]. by exists l.
  - rewrite Hs. split; [done|]. intros Hnd.
    destruct Hij as (Hlt & l & Hi & Hj).
    pose proof (NoDup_lookup _ _ _ _ Hnd Hi Hj). lia.
Qed.

End merge_facts.

(** ** The store across a merge *)

Section merge_store.
Implicit Types (h : heap) (nodes out : list nat) (L : list string).

Lemma same_attrs_refl {C} (a : NodeOf C) : same_attrs a a.
Proof. by repeat split. Qed.

Lemma same_attrs_trans {C D E} (a : NodeOf C) (b : NodeOf D) (c : NodeOf E) :
  same_attrs a b → same_attrs b c → same_attrs a c.
Proof. unfold same_attrs. intros; destruct_and!; split_and!; congruence. Qed.

Lemma same_attrs_set_children {C D} (cs : list D) (a : NodeOf C) :
  same_attrs a (set_children cs a).
Proof. by repeat split. Qed.

Lemma attrs_kept_refl h : attrs_kept h h.
Proof. intros a. apply same_attrs_refl. Qed.

Lemma attrs_kept_trans h1 h2 h3 :
  attrs_kept h1 h2 → attrs_kept h2 h3 → attrs_kept h1 h3.
Proof. intros H1 H2 a. eapply same_attrs_trans; [apply H1|apply H2]. Qed.

Lemma attrs_kept_label h h' a : attrs_kept h h' → label (h' !!! a) = label (h !!! a).
Proof. intros H. by destruct (H a) as (_ & -> & _). Qed.

Lemma attrs_kept_labels h h' nodes :
  attrs_kept h h' → labels h' nodes = labels h nodes.
Proof.
  intros H. unfold labels. apply list_fmap_ext. intros _ a _.
  by apply attrs_kept_label.
Qed.

Lemma attrs_kept_insert h h' a cs :
  attrs_kept h h' → attrs_kept h (<[a := set_children cs (h' !!! a)]> h').
Proof.
  intros H b. rewrite lookup_total_insert. case_decide as Hab.
  - subst b. eapply same_attrs_trans; [apply H|apply same_attrs_set_children].
  - apply H.
Qed.

Lemma attrs_kept_insert_obj h h' a obj :
  attrs_kept h h' → same_attrs (h' !!! a) obj → attrs_kept h (<[a := obj]> h').
Proof.
  intros H Hobj b. rewrite lookup_total_insert. case_decide as Hab.
  - subst b. eapply same_attrs_trans; [apply H|done].
  - apply H.
Qed.

Lemma extend_children_lookup h lhs rhs a :
  extend_children h lhs rhs !!! a =
    if decide (lhs = a)
    then set_children (children (h !!! lhs) ++ children (h !!! rhs)) (h !!! lhs)
    else h !!! a.
Proof. unfold extend_children. by rewrite lookup_total_insert. Qed.

Lemma extend_children_attrs h lhs rhs : attrs_kept h (extend_children h lhs rhs).
Proof. apply attrs_kept_insert, attrs_kept_refl. Qed.

Lemma equal_pair_nodes h nodes i j :
  equal_pair (labels h nodes) i j →
  ∃ lhs rhs, i < j ∧ nodes !! i = Some lhs ∧ nodes !! j = Some rhs ∧
             label (h !!! lhs) = label (h !!! rhs).
Proof.
  intros (Hlt & l & Hi & Hj). unfold labels in Hi, Hj.
  rewrite list_lookup_fmap in Hi, Hj.
  destruct (nodes !! i) as [lhs|] eqn:Ei; [|done].
  destruct (nodes !! j) as [rhs|] eqn:Ej; [|done].
  simpl in Hi, Hj. exists lhs, rhs. split_and!; [done..|congruence].
Qed.

(** The indexing of the found pair is always in range. *)
Lemma merge_step_found h nodes i j :
  find_pair h nodes = Some (i, j) →
  ∃ lhs rhs, i < j ∧ nodes !! i = Some lhs ∧ nodes !! j = Some rhs ∧
             label (h !!! lhs) = label (h !!! rhs) ∧
             merge_step h nodes i j =
               Ok (extend_children h lhs rhs, delete j nodes).
Proof.
  intros Hf. apply find_pair_Some in Hf as [Hp _].
  destruct (equal_pair_nodes _ _ _ _ Hp) as (lhs & rhs & ? & Hi & Hj & ?).
  exists lhs, rhs. split_and!; [done..|].
  unfold merge_step. by rewrite Hi, Hj, delete_take_drop.
Qed.

Lemma merge_duplicates_fuel_unfold fuel h nodes :
  merge_duplicates_fuel fuel h nodes =
    match find_pair h nodes with
    | Some (i, j) =>
        match fuel with
        | 0 => OutOfFuel
        | S fuel' =>
            merge_step h nodes i j ≫= λ '(h', nodes'),
            merge_duplicates_fuel fuel' h' nodes'
        end
    | None => Ok (h, nodes)
    end.
Proof. by destruct fuel. Qed.

Lemma merge_duplicates_distinct fuel h nodes :
  NoDup (labels h nodes) → merge_duplicates_fuel fuel h nodes = Ok (h, nodes).
Proof.
  intros Hnd. rewrite merge_duplicates_fuel_unfold.
  by apply find_pair_None in Hnd as ->.
Qed.

(** Enough fuel: the recursion returns, the result has no two equal labels,
    it is a sublist of the input, and only the children of objects of the
    list have changed. *)
Lemma merge_duplicates_fuel_ok fuel : ∀ h nodes,
  length nodes ≤ fuel →
  ∃ h' out, merge_duplicates_fuel fuel h nodes = Ok (h', out) ∧
            attrs_kept h h' ∧ sublist out nodes ∧ NoDup (labels h' out) ∧
            ∀ a, a ∉ nodes → h' !!! a = h !!! a.
Proof.
  induction fuel as [|fuel IH]; intros h nodes Hlen;
    rewrite merge_duplicates_fuel_unfold;
    destruct (find_pair h nodes) as [[i j]|] eqn:Hf.
  - apply merge_step_found in Hf as (lhs & rhs & ? & ? & Hj & _).
    apply lookup_lt_Some in Hj. lia.
  - exists h, nodes. split_and!; [done|apply attrs_kept_refl|done| |done].
    by apply find_pair_None.
  - apply merge_step_found in Hf as (lhs & rhs & ? & Hi & Hj & _ & ->).
    cbn. destruct (IH (extend_children h lhs rhs) (delete j nodes))
      as (h' & out & -> & Hattrs & Hsub & Hnd & Hframe).
    { rewrite length_delete by eauto. apply lookup_lt_Some in Hj. lia. }
    exists h', out. split_and!; [done| | |done|].
    + eapply attrs_kept_trans; [apply extend_children_attrs|done].
    + etrans; [done|apply sublist_delete].
    + intros a Ha. rewrite Hframe, extend_children_lookup.
      * case_decide; [|done]. subst a. destruct Ha.
        by eapply list_elem_of_lookup_2.
      * intros Hin. apply Ha. eapply elem_of_sublist; [done|apply sublist_delete].
  - exists h, nodes. split_and!; [done|apply attrs_kept_refl|done| |done].
    by apply find_pair_None.
Qed.

End merge_store.

(** ** Objects that share a label *)

Section merge_labelled.
Implicit Types (h : heap) (nodes out : list nat) (L : list string).

Lemma labelled_attrs h h' L nodes :
  attrs_kept h h' → labelled h' L nodes = labelled h L nodes.
Proof.
  intros H. unfold labelled. apply list_filter_iff. intros a.
  by rewrite (attrs_kept_label h h' a H).
Qed.

Lemma labelled_split h L nodes j b :
  nodes !! j = Some b →
  labelled h L nodes =
    labelled h L (take j nodes)
    ++ (if decide (label (h !!! b) = L) then [b] else [])
    ++ labelled h L (drop (S j) nodes).
Proof.
  intros Hj. rewrite <-(take_drop_middle nodes j b Hj) at 1.
  unfold labelled. rewrite filter_app, filter_cons. by case_decide.
Qed.

Lemma labelled_delete h L nodes j :
  labelled h L (delete j nodes) =
    labelled h L (take j nodes) ++ labelled h L (drop (S j) nodes).
Proof. unfold labelled. by rewrite delete_take_drop, filter_app. Qed.

Lemma labelled_distinct h L nodes :
  NoDup (labels h nodes) → length (labelled h L nodes) ≤ 1.
Proof.
  induction nodes as [|a nodes IH]; [simpl; lia|].
  rewrite labels_cons, NoDup_cons. intros [Hnotin Hnd].
  unfold labelled. rewrite filter_cons. case_decide as Ha; [|by apply IH].
  subst L. replace (filter _ nodes) with (@nil nat); [simpl; lia|].
  symmetry. apply filter_none. intros b Hb Hlab. apply Hnotin.
  rewrite <-Hlab. unfold labels. apply list_elem_of_fmap. by exists b.
Qed.

(** A label that occurs at most once: its object is never the target of a
    merge, and it stays in the list. *)
Lemma merge_duplicates_fuel_single L fuel : ∀ h nodes h' out,
  merge_duplicates_fuel fuel h nodes = Ok (h', out) →
  length (labelled h L nodes) ≤ 1 →
  labelled h' L out = labelled h L nodes ∧
  ∀ a, label (h !!! a) = L → h' !!! a = h !!! a.
Proof.
  induction fuel as [|fuel IH]; intros h nodes h' out;
    rewrite merge_duplicates_fuel_unfold;
    destruct (find_pair h nodes) as [[i j]|] eqn:Hf; intros Hrun Hone;
    try discriminate; try (by injection Hrun as <- <-).
  apply merge_step_found in Hf as (lhs & rhs & Hlt & Hi & Hj & Hlab & Hstep).
  rewrite Hstep in Hrun. cbn in Hrun.
  destruct (decide (label (h !!! lhs) = L)) as [HL|HL].
  { destruct (filter_two_positions (λ a, label (h !!! a) = L) nodes i j lhs rhs)
      as [Hin Heq]; [done..|congruence|].
    unfold labelled in Hone. rewrite Heq, length_app in Hone. simpl in Hone.
    apply list_elem_of_lookup_1 in Hin as [k Hk]. apply lookup_lt_Some in Hk. lia. }
  pose proof (extend_children_attrs h lhs rhs) as Hattrs.
  assert (labelled h L (delete j nodes) = labelled h L nodes) as Hdel.
  { rewrite labelled_delete, (labelled_split h L nodes j rhs) by done.
    rewrite decide_False by congruence. done. }
  destruct (IH _ _ _ _ Hrun) as [Hout Hsame].
  { rewrite (labelled_attrs _ _ _ _ Hattrs), Hdel. done. }
  split.
  - by rewrite Hout, (labelled_attrs _ _ _ _ Hattrs).
  - intros a Ha. rewrite Hsame by (by rewrite (attrs_kept_label _ _ _ Hattrs)).
    rewrite extend_children_lookup, decide_False; [done|]. congruence.
Qed.

(** A label that occurs exactly twice, at [x] and later at [y]: [x] stays,
    with the children of [y] appended to its own. *)
Lemma merge_duplicates_fuel_two L x y fuel : ∀ h nodes h' out,
  merge_duplicates_fuel fuel h nodes = Ok (h', out) →
  labelled h L nodes = [x; y] →
  labelled h' L out = [x] ∧
  children (h' !!! x) = children (h !!! x) ++ children (h !!! y).
Proof.
  induction fuel as [|fuel IH]; intros h nodes h' out;
    rewrite merge_duplicates_fuel_unfold;
    destruct (find_pair h nodes) as [[i j]|] eqn:Hf; intros Hrun Htwo;
    try discriminate.
  1,3: apply find_pair_None in Hf; apply (labelled_distinct h L) in Hf;
       rewrite Htwo in Hf; simpl in Hf; lia.
  apply merge_step_found in Hf as (lhs & rhs & Hlt & Hi & Hj & Hlab & Hstep).
  rewrite Hstep in Hrun. cbn in Hrun.
  pose proof (extend_children_attrs h lhs rhs) as Hattrs.
  assert (label (h !!! x) = L ∧ label (h !!! y) = L) as [Hx Hy].
  { split; eapply (proj1 (list_elem_of_filter (λ a, label (h !!! a) = L) nodes _));
      fold (labelled h L nodes); rewrite Htwo; [left|right; left]. }
  destruct (decide (label (h !!! lhs) = L)) as [HL|HL].
  - destruct (filter_two_positions (λ a, label (h !!! a) = L) nodes i j lhs rhs)
      as [Hin Heq]; [done..|congruence|].
    fold (labelled h L nodes) in Heq. rewrite Htwo in Heq.
    fold (labelled h L (take j nodes)) in Hin, Heq.
    fold (labelled h L (drop (S j) nodes)) in Heq.
    destruct (labelled h L (take j nodes)) as [|x' [|? ?]] eqn:Htake;
      [by apply elem_of_nil in Hin| |].
    2: { apply (f_equal length) in Heq. rewrite !length_app in Heq.
         simpl in Heq. lia. }
    simpl in Heq. apply list_elem_of_singleton in Hin.
    destruct (labelled h L (drop (S j) nodes)) eqn:Hdrop; [|done].
    assert (lhs = x ∧ rhs = y ∧ x' = x) as (-> & -> & ->) by (by simplify_eq).
    clear Heq Hin.
    destruct (merge_duplicates_fuel_single L _ _ _ _ _ Hrun) as [Hout Hsame].
    { rewrite (labelled_attrs _ _ _ _ Hattrs), labelled_delete, Htake, Hdrop.
      simpl. lia. }
    split.
    + rewrite Hout, (labelled_attrs _ _ _ _ Hattrs), labelled_delete, Htake, Hdrop.
      done.
    + rewrite Hsame by (by rewrite (attrs_kept_label _ _ _ Hattrs)).
      rewrite extend_children_lookup, decide_True by done. done.
  - assert (labelled h L (delete j nodes) = labelled h L nodes) as Hdel.
    { rewrite labelled_delete, (labelled_split h L nodes j rhs) by done.
      rewrite decide_False by congruence. done. }
    destruct (IH _ _ _ _ Hrun) as [Hout Hch].
    { by rewrite (labelled_attrs _ _ _ _ Hattrs), Hdel. }
    split; [done|]. rewrite Hch, !extend_children_lookup.
    rewrite !decide_False by congruence. done.
Qed.

End merge_labelled.

(** ** merge_duplicates: the claims *)

(** The recursive call of the source: when a pair was found, the function
    returns what it returns on the store after the merge and the list without
    the element at [ridx]. *)
Lemma merge_duplicates_recurse (h : heap) (nodes : list nat) i j :
  find_pair h nodes = Some (i, j) →
  merge_duplicates h nodes =
    merge_step h nodes i j ≫= λ '(h', nodes'), merge_duplicates h' nodes'.
Proof.
  intros Hf. unfold merge_duplicates at 1.
  rewrite merge_duplicates_fuel_unfold, Hf.
  destruct (merge_step_found _ _ _ _ Hf) as (lhs & rhs & ? & ? & Hj & _ & ->).
  pose proof (lookup_lt_Some _ _ _ Hj) as Hlen.
  destruct (length nodes) as [|n] eqn:Hn; [lia|]. cbn.
  unfold merge_duplicates. rewrite length_delete by eauto. rewrite Hn.
  by replace (S n - 1) with n by lia.
Qed.

(** C3. On every list of nodes (labels of one length or not),
    [merge_duplicates] returns, and the list it returns holds no two elements
    with equal labels.  When exactly two elements of the input carry a label,
    [x] and later [y], the result holds exactly one element with that label:
    the object [x], whose children are now its former children followed by
    those of [y]. *)
Theorem merge_duplicates_no_equal_labels (h : heap) (nodes : list nat) :
  ∃ h' out,
    merge_duplicates h nodes = Ok (h', out) ∧
    NoDup (labels h' out) ∧
    ∀ L x y,
      labelled h L nodes = [x; y] →
      labelled h' L out = [x] ∧
      children (h' !!! x) = children (h !!! x) ++ children (h !!! y).
Proof.
  destruct (merge_duplicates_fuel_ok (length nodes) h nodes)
    as (h' & out & Hrun & _ & _ & Hnd & _); [done|].
  exists h', out. split_and!; [done..|].
  intros L x y. by apply (merge_duplicates_fuel_two L x y (length nodes)).
Qed.

(** C6, as amended.  The pair [merge_duplicates] acts on is the pair of equal
    labels met last by the scan: no pair of equal labels has a greater first
    index [i], and none with the same [i] has a greater [j].  The children of
    the element at [j] are appended to the object at [i], the element at [j]
    is dropped, and the function recurses. *)
Theorem merge_duplicates_acts_on_last_pair (h : heap) (nodes : list nat) i j :
  find_pair h nodes = Some (i, j) →
  equal_pair (labels h nodes) i j ∧
  (∀ i' j', equal_pair (labels h nodes) i' j' → i' < i ∨ (i' = i ∧ j' ≤ j)) ∧
  ∃ lhs rhs,
    nodes !! i = Some lhs ∧ nodes !! j = Some rhs ∧
    merge_duplicates h nodes =
      merge_duplicates (extend_children h lhs rhs) (delete j nodes).
Proof.
  intros Hf. destruct (find_pair_Some _ _ _ _ Hf) as [Hp Hmax].
  split_and!; [done..|].
  destruct (merge_step_found _ _ _ _ Hf) as (lhs & rhs & _ & Hi & Hj & _ & Hs).
  exists lhs, rhs. split_and!; [done..|].
  by rewrite (merge_duplicates_recurse _ _ _ _ Hf), Hs.
Qed.

(** On labels A, B, B, A the scan ends on the pair (1, 2). *)
Lemma merge_duplicates_acts_on_last_pair_abba :
  find_pair abba [0; 1; 2; 3] = Some (1, 2) ∧
  (equal_pair (labels abba [0; 1; 2; 3]) 1 2 ∧
   (∀ i' j', equal_pair (labels abba [0; 1; 2; 3]) i' j' →
             i' < 1 ∨ (i' = 1 ∧ j' ≤ 2)) ∧
   ∃ lhs rhs,
     [0; 1; 2; 3] !! 1 = Some lhs ∧ [0; 1; 2; 3] !! 2 = Some rhs ∧
     merge_duplicates abba [0; 1; 2; 3] =
       merge_duplicates (extend_children abba lhs rhs) (delete 2 [0; 1; 2; 3])).
Proof.
  split; [reflexivity|].
  apply (merge_duplicates_acts_on_last_pair abba [0; 1; 2; 3] 1 2).
  reflexivity.
Defined.

(** C6, as stated, fails: on labels A, B, B, A the scan ends on the pair
    (1, 2), while the pair (0, 3) of equal labels has the greater [j]. *)
Lemma merge_duplicates_pair_not_highest_j :
  ∃ i j, find_pair abba [0; 1; 2; 3] = Some (i, j) ∧
         ∃ i' j', equal_pair (labels abba [0; 1; 2; 3]) i' j' ∧ j < j'.
Proof.
  exists 1, 2. split; [reflexivity|]. exists 0, 3. split; [|lia].
  split; [lia|]. by exists ["A"].
Qed.

(** C10. A merge step changes one thing in the store: the children of the
    object at the lower index of the pair, which become its former children
    followed by those of the object at the higher index.  That object stays at
    its index in the list the step returns; every other object is as it was;
    text, label, title and node_type of every object are as they were; and
    the list returned is the input without the element at the higher index,
    in the same order.  The same holds for the whole of [merge_duplicates]:
    its result is a sublist of the input, attributes other than children are
    kept, and objects outside the list are untouched. *)
Theorem merge_step_frame (h : heap) (nodes : list nat) i j :
  find_pair h nodes = Some (i, j) →
  ∃ lhs rhs h1,
    i < j ∧ nodes !! i = Some lhs ∧ nodes !! j = Some rhs ∧
    merge_step h nodes i j = Ok (h1, delete j nodes) ∧
    children (h1 !!! lhs) = children (h !!! lhs) ++ children (h !!! rhs) ∧
    (∀ a, a ≠ lhs → h1 !!! a = h !!! a) ∧
    attrs_kept h h1 ∧
    delete j nodes !! i = Some lhs ∧
    delete j nodes `sublist_of` nodes ∧
    ∃ h' out,
      merge_duplicates h nodes = Ok (h', out) ∧
      attrs_kept h h' ∧ out `sublist_of` nodes ∧
      ∀ a, a ∉ nodes → h' !!! a = h !!! a.
Proof.
  intros Hf.
  destruct (merge_step_found _ _ _ _ Hf) as (lhs & rhs & Hlt & Hi & Hj & _ & Hs).
  exists lhs, rhs, (extend_children h lhs rhs).
  split_and!; [done..| | | | | |].
  - by rewrite extend_children_lookup, decide_True.
  - intros a Ha. by rewrite extend_children_lookup, decide_False.
  - apply extend_children_attrs.
  - by rewrite list_lookup_delete_lt.
  - apply sublist_delete.
  - destruct (merge_duplicates_fuel_ok (length nodes) h nodes)
      as (h' & out & Hrun & ? & ? & _ & ?); [done|].
    by exists h', out.
Qed.

(** The merge step on labels A, B, B, A. *)
Lemma merge_step_frame_abba :
  find_pair abba [0; 1; 2; 3] = Some (1, 2) ∧
  ∃ lhs rhs h1,
    1 < 2 ∧ [0; 1; 2; 3] !! 1 = Some lhs ∧ [0; 1; 2; 3] !! 2 = Some rhs ∧
    merge_step abba [0; 1; 2; 3] 1 2 = Ok (h1, delete 2 [0; 1; 2; 3]) ∧
    children (h1 !!! lhs) = children (abba !!! lhs) ++ children (abba !!! rhs) ∧
    (∀ a, a ≠ lhs → h1 !!! a = abba !!! a) ∧
    attrs_kept abba h1 ∧
    delete 2 [0; 1; 2; 3] !! 1 = Some lhs ∧
    delete 2 [0; 1; 2; 3] `sublist_of` [0; 1; 2; 3] ∧
    ∃ h' out,
      merge_duplicates abba [0; 1; 2; 3] = Ok (h', out) ∧
      attrs_kept abba h' ∧ out `sublist_of` [0; 1; 2; 3] ∧
      ∀ a, a ∉ [0; 1; 2; 3] → h' !!! a = abba !!! a.
Proof.
  split; [reflexivity|].
  apply (merge_step_frame abba [0; 1; 2; 3] 1 2). reflexivity.
Defined.

(** ** treeify: slices and the first loop *)

Section treeify_facts.
Implicit Types (h : heap) (nodes with_min roots : list nat).

Lemma slice_to_nat {A} (k : nat) (l : list A) : slice_to (Z.of_nat k) l = take k l.
Proof. unfold slice_to. rewrite decide_False by lia. by rewrite Nat2Z.id. Qed.

Lemma slice_to_pred {A} (k : nat) (l : list A) :
  0 < k → slice_to (Z.of_nat k - 1) l = take (k - 1) l.
Proof.
  intros Hk. replace (Z.of_nat k - 1)%Z with (Z.of_nat (k - 1)) by lia.
  apply slice_to_nat.
Qed.

Lemma slice_to_drop_last {A} (l : list A) (x : A) : slice_to (-1) (l ++ [x]) = l.
Proof.
  unfold slice_to. rewrite decide_True by lia.
  rewrite length_app. simpl.
  replace (Z.to_nat (Z.of_nat (length l + 1) + -1)) with (length l) by lia.
  apply take_app_length.
Qed.

Lemma take_length_prefix {A} (l k : list A) :
  take (length l) k = l ↔ l `prefix_of` k.
Proof.
  split.
  - intros <-. apply prefix_take.
  - intros [k' ->]. apply take_app_length.
Qed.

(** The first loop leaves the least label length seen and the nodes of that
    length, in order. *)
Lemma min_step_foldl h : ∀ nodes m0 acc,
  ∃ m, foldl (min_step h) (m0, acc) nodes =
         (m, (if decide (m = m0) then acc else [])
             ++ filter (λ a, length (label (h !!! a)) = m) nodes) ∧
       m ≤ m0 ∧
       (∀ a, a ∈ nodes → m ≤ length (label (h !!! a))) ∧
       (m = m0 ∨ ∃ a, a ∈ nodes ∧ length (label (h !!! a)) = m).
Proof.
  induction nodes as [|a nodes IH]; intros m0 acc.
  - exists m0. rewrite decide_True by done. rewrite app_nil_r.
    split_and!; [done..| |by left]. intros a Ha. by apply elem_of_nil in Ha.
  - cbn [foldl min_step]. repeat case_decide.
    + destruct (IH m0 (acc ++ [a])) as (m & -> & Hle & Hmin & Hwit).
      exists m. split_and!; [|done| |].
      * f_equal. rewrite filter_cons. repeat case_decide; try lia.
        -- by rewrite <-app_assoc.
        -- done.
      * intros b [->|Hb]%elem_of_cons; [lia|by apply Hmin].
      * destruct Hwit as [->|(b & Hb & <-)]; [by left|].
        right. exists b. split; [by right|done].
    + destruct (IH (length (label (h !!! a))) [a]) as (m & -> & Hle & Hmin & Hwit).
      exists m. split_and!; [|lia| |].
      * f_equal. rewrite filter_cons. repeat case_decide; try lia; done.
      * intros b [->|Hb]%elem_of_cons; [lia|by apply Hmin].
      * right. destruct Hwit as [->|(b & Hb & <-)].
        -- exists a. split; [by left|done].
        -- exists b. split; [by right|done].
    + destruct (IH m0 acc) as (m & -> & Hle & Hmin & Hwit).
      exists m. split_and!; [|done| |].
      * f_equal. rewrite filter_cons. repeat case_decide; try lia; done.
      * intros b [->|Hb]%elem_of_cons; [lia|by apply Hmin].
      * destruct Hwit as [->|(b & Hb & <-)]; [by left|].
        right. exists b. split; [by right|done].
Qed.

Lemma shortest_spec h nodes :
  nodes ≠ [] →
  ∃ m, shortest h nodes = filter (λ a, length (label (h !!! a)) = m) nodes ∧
       (∀ a, a ∈ nodes → m ≤ length (label (h !!! a))) ∧
       (∃ a, a ∈ nodes ∧ length (label (h !!! a)) = m).
Proof.
  destruct nodes as [|n0 nodes]; [done|]. intros _. unfold shortest.
  destruct (min_step_foldl h (n0 :: nodes) (length (label (h !!! n0))) [])
    as (m & -> & Hle & Hmin & Hwit).
  exists m. split_and!; [|done|].
  - simpl. by case_decide.
  - destruct Hwit as [->|?]; [|done]. exists n0. split; [by left|done].
Qed.

Lemma shortest_sublist h nodes : shortest h nodes `sublist_of` nodes.
Proof.
  destruct nodes as [|n0 nodes]; [done|].
  destruct (shortest_spec h (n0 :: nodes)) as (m & -> & _); [done|].
  apply sublist_filter.
Qed.

End treeify_facts.

(** ** treeify: the child rule *)

Section treeify_children.
Implicit Types (h : heap) (nodes with_min roots : list nat).

Lemma is_child_spec h root stripped seg :
  label (h !!! root) = stripped ++ [seg] →
  ∃ test : nat → bool,
    is_child h root = Ok test ∧
    ∀ n, test n ↔
         if decide (seg = INTERP_MARK)
         then take (length stripped) (label (h !!! n)) = stripped
         else label (h !!! root) `prefix_of` label (h !!! n).
Proof.
  intros Hl. unfold is_child. rewrite Hl, last_snoc.
  destruct (decide (seg = INTERP_MARK)) as [->|Hseg].
  - eexists. split; [done|]. intros n. rewrite bool_decide_spec.
    rewrite slice_to_drop_last, slice_to_pred by (rewrite length_app; simpl; lia).
    rewrite length_app. simpl.
    by replace (length stripped + 1 - 1) with (length stripped) by lia.
  - eexists. split; [done|]. intros n. rewrite bool_decide_spec.
    by rewrite slice_to_nat, take_length_prefix.
Qed.

Lemma adopts_spec stripped seg nl :
  adopts (stripped ++ [seg]) nl ↔
  nl ≠ stripped ++ [seg] ∧
  if decide (seg = INTERP_MARK)
  then take (length stripped) nl = stripped
  else (stripped ++ [seg]) `prefix_of` nl.
Proof.
  unfold adopts. rewrite last_snoc, length_app. simpl.
  replace (length stripped + 1 - 1) with (length stripped) by lia.
  rewrite take_app_length.
  destruct (decide (seg = INTERP_MARK)) as [->|Hseg].
  - by rewrite decide_True.
  - by rewrite decide_False by congruence.
Qed.

(** The list comprehension of the loop selects by [adopts]; it raises only
    on a root with an empty label. *)
Lemma select_children_adopts h nodes root :
  label (h !!! root) ≠ [] →
  select_children h nodes root =
    Ok (filter (λ n, adopts (label (h !!! root)) (label (h !!! n))) nodes).
Proof.
  intros Hne. apply last_is_Some in Hne as [seg Hs].
  apply last_Some in Hs as [stripped Hl].
  destruct (is_child_spec h root stripped seg Hl) as (test & Ht & Hspec).
  unfold select_children. rewrite Ht. cbn. f_equal.
  apply list_filter_iff. intros n. rewrite Hspec, Hl, adopts_spec. done.
Qed.

Lemma select_children_empty_label h nodes root :
  label (h !!! root) = [] → select_children h nodes root = Raise IndexError.
Proof. intros Hl. unfold select_children, is_child. by rewrite Hl. Qed.

Lemma adopts_irrefl rl : ¬ adopts rl rl.
Proof. by intros [? _]. Qed.

End treeify_children.

(** ** treeify: termination and absence of errors *)

Section treeify_total.
Implicit Types (h : heap) (nodes with_min roots : list nat).

Lemma well_formed_attrs h h' nodes :
  attrs_kept h h' → well_formed h nodes → well_formed h' nodes.
Proof. intros Ha Hwf n Hn. rewrite (attrs_kept_label _ _ _ Ha). by apply Hwf. Qed.

Lemma well_formed_subseteq h nodes sel :
  sel ⊆ nodes → well_formed h nodes → well_formed h sel.
Proof. intros Hsub Hwf n Hn. apply Hwf, Hsub, Hn. Qed.

Section loop.
Context (rec : heap → list nat → result (heap * list nat)) (nodes : list nat).
Context (Hrec : ∀ h sel,
  length sel < length nodes → sel ⊆ nodes → well_formed h sel →
  ∃ h' sub, rec h sel = Ok (h', sub) ∧ attrs_kept h h' ∧ frame sel h h').

Lemma attach_ok : ∀ with_min h roots,
  with_min ⊆ nodes → well_formed h nodes →
  ∃ h', attach rec nodes with_min h roots = Ok (h', roots ++ with_min) ∧
        attrs_kept h h' ∧ frame nodes h h'.
Proof.
  induction with_min as [|root rest IH]; intros h roots Hsub Hwf.
  - exists h. rewrite app_nil_r. split_and!; [done|apply attrs_kept_refl|done].
  - assert (root ∈ nodes) as Hroot by (apply Hsub; left).
    cbn [attach]. rewrite select_children_adopts by (by apply Hwf). cbn.
    set (sel := filter _ nodes).
    assert (sel ⊆ nodes) as Hsel by (intros n [_ ?]%list_elem_of_filter; done).
    destruct (Hrec h sel) as (h1 & sub & -> & Hattrs1 & Hframe1).
    { eapply length_filter_lt; [done|apply adopts_irrefl]. }
    { done. }
    { by eapply well_formed_subseteq. }
    cbn.
    set (h2 := <[root := _]> h1).
    assert (attrs_kept h h2) as Hattrs2 by (by apply attrs_kept_insert).
    destruct (IH h2 (roots ++ [root])) as (h' & -> & Hattrs' & Hframe').
    { intros n Hn. apply Hsub. by right. }
    { by eapply well_formed_attrs. }
    exists h'. rewrite <-app_assoc. split_and!; [done| |].
    + by eapply attrs_kept_trans.
    + intros a Ha. rewrite Hframe' by done. unfold h2.
      rewrite lookup_total_insert_ne by (intros ->; done).
      apply Hframe1. intros Hin. apply Ha, Hsel, Hin.
Qed.

End loop.

Lemma treeify_fuel_cons fuel h nodes :
  nodes ≠ [] →
  treeify_fuel (S fuel) h nodes =
    merge_duplicates h (shortest h nodes) ≫= λ '(h', with_min),
    attach (treeify_fuel fuel) nodes with_min h' [].
Proof. by destruct nodes. Qed.

Lemma treeify_fuel_ok : ∀ fuel h nodes,
  length nodes < fuel → well_formed h nodes →
  ∃ h' roots, treeify_fuel fuel h nodes = Ok (h', roots) ∧
              attrs_kept h h' ∧ frame nodes h h' ∧ roots `sublist_of` nodes.
Proof.
  induction fuel as [|fuel IH]; intros h nodes Hlen Hwf; [lia|].
  destruct (decide (nodes = [])) as [->|Hne].
  { exists h, []. split_and!; [done|apply attrs_kept_refl|done..]. }
  rewrite treeify_fuel_cons by done.
  destruct (merge_duplicates_fuel_ok (length (shortest h nodes)) h (shortest h nodes))
    as (h1 & with_min & Hm & Hattrs1 & Hsub1 & _ & Hframe1); [done|].
  unfold merge_duplicates. rewrite Hm. cbn.
  pose proof (shortest_sublist h nodes) as Hshort.
  destruct (attach_ok (treeify_fuel fuel) nodes) with (with_min := with_min)
    (h := h1) (roots := @nil nat) as (h' & -> & Hattrs' & Hframe').
  { intros h0 sel Hl _ Hwf0.
    destruct (IH h0 sel) as (h2 & sub & ? & ? & ? & _); [lia|done|]. eauto. }
  { apply sublist_subseteq. by etrans. }
  { by eapply well_formed_attrs. }
  exists h', with_min. split_and!; [done| | |by etrans].
  - by eapply attrs_kept_trans.
  - intros a Ha. rewrite Hframe' by done. apply Hframe1.
    intros Hin. apply Ha. by eapply elem_of_sublist.
Qed.

End treeify_total.

(** C9. On every list of nodes whose labels have at least one segment,
    [treeify] returns a result: it does not raise (the indexing
    [root.label[-1]] always finds a segment) and the bound on the depth of its
    recursion is never reached.  On the empty list it returns the empty list
    and leaves the store as it is.  [merge_duplicates] returns a result on
    every list. *)
Theorem treeify_never_raises (h : heap) (nodes : list nat) :
  well_formed h nodes →
  (∃ h' roots, treeify h nodes = Ok (h', roots)) ∧
  treeify h [] = Ok (h, []) ∧
  (∃ h' out, merge_duplicates h nodes = Ok (h', out)).
Proof.
  intros Hwf. split_and!.
  - destruct (treeify_fuel_ok (S (length nodes)) h nodes)
      as (h' & roots & ? & _); [lia|done|]. eauto.
  - reflexivity.
  - destruct (merge_duplicates_fuel_ok (length nodes) h nodes)
      as (h' & out & ? & _); [done|]. eauto.
Qed.

(** Four nodes labelled A, B, B, A. *)
Lemma treeify_never_raises_abba :
  well_formed abba [0; 1; 2; 3] ∧
  ((∃ h' roots, treeify abba [0; 1; 2; 3] = Ok (h', roots)) ∧
   treeify abba [] = Ok (abba, []) ∧
   (∃ h' out, merge_duplicates abba [0; 1; 2; 3] = Ok (h', out))).
Proof.
  assert (well_formed abba [0; 1; 2; 3]) as Hwf.
  { intros n Hn. repeat (apply elem_of_cons in Hn as [->|Hn]; [done|]).
    by apply elem_of_nil in Hn. }
  split; [exact Hwf|].
  exact (treeify_never_raises abba [0; 1; 2; 3] Hwf).
Defined.

(** Outside the precondition of C9 the error is real: a root whose label is
    empty makes [root.label[-1]] raise. *)
Example treeify_empty_label_raises : treeify unlabelled [0] = Raise IndexError.
Proof. reflexivity. Qed.

(** ** Forests laid out in the store *)

Section layout.
Implicit Types (h : heap) (t u : Node) (ts : list Node).
Implicit Types (objs : list (NodeOf nat)) (ls : list (list string)).

Lemma flatten_unfold (f : NodeOf Node) :
  flatten (Tree f) = set_children [] f :: cells (children f).
Proof. reflexivity. Qed.

Lemma cells_cons t ts : cells (t :: ts) = flatten t ++ cells ts.
Proof. reflexivity. Qed.

Lemma cells_app ts1 ts2 : cells (ts1 ++ ts2) = cells ts1 ++ cells ts2.
Proof. apply bind_app. Qed.

Lemma length_flatten t : length (flatten t) = S (length (cells (children t))).
Proof. by destruct t. Qed.

Lemma length_flatten_Tree (f : NodeOf Node) :
  length (flatten (Tree f)) = S (length (cells (children f))).
Proof. reflexivity. Qed.

Lemma within_unfold t : within t = label t :: below t.
Proof. by destruct t. Qed.

Lemma placed_nil h b : placed h b [].
Proof. by intros k obj. Qed.

Lemma placed_cons h b obj objs :
  placed h b (obj :: objs) ↔ h !!! b = obj ∧ placed h (S b) objs.
Proof.
  split.
  - intros H. split.
    + rewrite <-(H 0 obj); [by rewrite Nat.add_0_r|done].
    + intros k o Hk. rewrite <-(H (S k) o Hk). f_equal. lia.
  - intros [H0 H] [|k] o Hk; simpl in Hk.
    + simplify_eq. by rewrite Nat.add_0_r.
    + rewrite <-(H k o Hk). f_equal. lia.
Qed.

Lemma placed_app h b objs1 objs2 :
  placed h b (objs1 ++ objs2) ↔
  placed h b objs1 ∧ placed h (b + length objs1) objs2.
Proof.
  revert b. induction objs1 as [|o objs1 IH]; intros b; simpl.
  - rewrite Nat.add_0_r. split; [intros ?; split; [apply placed_nil|done]|by intros [_ ?]].
  - rewrite !placed_cons, IH. replace (b + S (length objs1)) with (S b + length objs1) by lia.
    tauto.
Qed.

Lemma placed_frame h h' b objs :
  placed h b objs →
  (∀ a, b ≤ a < b + length objs → h' !!! a = h !!! a) →
  placed h' b objs.
Proof.
  intros Hp Hsame k o Hk. rewrite Hsame; [by apply Hp|].
  apply lookup_lt_Some in Hk. lia.
Qed.

Lemma placed_load objs : placed (load objs) 0 objs.
Proof.
  intros k o Hk. simpl. unfold load.
  apply lookup_total_correct. by rewrite lookup_map_seq_0.
Qed.

Lemma placed_labels h b objs : placed h b objs → labels_at h b (label <$> objs).
Proof.
  intros Hp k l Hk. rewrite list_lookup_fmap in Hk.
  destruct (objs !! k) as [o|] eqn:Ho; [|done]. simpl in Hk. simplify_eq.
  by rewrite (Hp k o Ho).
Qed.

Lemma labels_at_attrs h h' b ls :
  attrs_kept h h' → labels_at h b ls → labels_at h' b ls.
Proof. intros Ha Hl k l Hk. rewrite (attrs_kept_label _ _ _ Ha). by apply Hl. Qed.

Lemma labels_at_cons h b l ls :
  labels_at h b (l :: ls) ↔ label (h !!! b) = l ∧ labels_at h (S b) ls.
Proof.
  split.
  - intros H. split.
    + rewrite <-(H 0 l); [by rewrite Nat.add_0_r|done].
    + intros k o Hk. rewrite <-(H (S k) o Hk). do 2 f_equal. lia.
  - intros [H0 H] [|k] o Hk; simpl in Hk.
    + simplify_eq. by rewrite Nat.add_0_r.
    + rewrite <-(H k o Hk). do 2 f_equal. lia.
Qed.

Lemma labels_at_app h b ls1 ls2 :
  labels_at h b (ls1 ++ ls2) ↔
  labels_at h b ls1 ∧ labels_at h (b + length ls1) ls2.
Proof.
  revert b. induction ls1 as [|l ls1 IH]; intros b; simpl.
  - rewrite Nat.add_0_r. split; [intros ?; split; [by intros k l|done]|by intros [_ ?]].
  - rewrite !labels_at_cons, IH. replace (b + S (length ls1)) with (S b + length ls1) by lia.
    tauto.
Qed.

(** A range of addresses whose labels all fail, or all pass, a test. *)
Lemma labels_at_Forall (Q : list string → Prop) h b ls a :
  labels_at h b ls → Forall Q ls → a ∈ seq b (length ls) → Q (label (h !!! a)).
Proof.
  intros Hl Hall [Hb Hlt]%elem_of_seq.
  destruct (lookup_lt_is_Some_2 ls (a - b)) as [l Hk]; [lia|].
  rewrite Forall_forall in Hall.
  assert (Q l) as HQ by (apply Hall; by eapply list_elem_of_lookup_2).
  rewrite <-(Hl _ _ Hk) in HQ. by replace (b + (a - b)) with a in HQ by lia.
Qed.

Lemma filter_range_none (P : nat → Prop) (dec : ∀ a, Decision (P a))
    (Q : list string → Prop) h b ls :
  labels_at h b ls → Forall (λ l, ¬ Q l) ls →
  (∀ a, P a → Q (label (h !!! a))) →
  filter P (seq b (length ls)) = [].
Proof.
  intros Hl Hall HPQ. apply filter_none. intros a Ha HP.
  by apply (labels_at_Forall _ h b ls a Hl Hall Ha), HPQ.
Qed.

Lemma filter_range_all (P : nat → Prop) (dec : ∀ a, Decision (P a))
    (Q : list string → Prop) h b ls :
  labels_at h b ls → Forall Q ls →
  (∀ a, Q (label (h !!! a)) → P a) →
  filter P (seq b (length ls)) = seq b (length ls).
Proof.
  intros Hl Hall HQP. apply filter_all. intros a Ha.
  by apply HQP, (labels_at_Forall _ h b ls a Hl Hall Ha).
Qed.

Lemma seq_cells_cons b t ts :
  seq b (length (cells (t :: ts))) =
    b :: seq (S b) (length (cells (children t)))
      ++ seq (b + length (flatten t)) (length (cells ts)).
Proof.
  rewrite cells_cons, length_app, seq_app, length_flatten. simpl. done.
Qed.

Lemma below_length t : length (below t) = length (cells (children t)).
Proof. unfold below. by rewrite length_fmap. Qed.

Lemma Forall_cells (Q : list string → Prop) ts :
  Forall Q (label <$> cells ts) ↔ Forall (λ u, Forall Q (within u)) ts.
Proof.
  induction ts as [|u ts IH]; [by split; constructor|].
  rewrite cells_cons, fmap_app, Forall_app, Forall_cons, IH. done.
Qed.

End layout.

(** ** treeify on the flat list of a grouped forest *)

Section filters.
Implicit Types (h : heap) (t u : Node) (ts pre post : list Node).

Lemma labels_at_flatten h b t ts :
  labels_at h b (label <$> cells (t :: ts)) →
  label (h !!! b) = label t ∧
  labels_at h (S b) (below t) ∧
  labels_at h (b + length (flatten t)) (label <$> cells ts).
Proof.
  rewrite cells_cons, fmap_app, labels_at_app.
  fold (within t). rewrite within_unfold, labels_at_cons.
  intros [[? ?] Hrest]. split_and!; [done..|].
  simpl in Hrest. by rewrite below_length, <-length_flatten in Hrest.
Qed.

(** The nodes of the least label length are the roots. *)
Lemma filter_roots h m : ∀ ts b,
  labels_at h b (label <$> cells ts) →
  Forall (λ t : Node, length (label t) = m ∧
                      Forall (λ d, m < length d) (below t)) ts →
  filter (λ a, length (label (h !!! a)) = m) (seq b (length (cells ts)))
    = root_addrs b ts.
Proof.
  induction ts as [|t ts IH]; intros b Hl Hall; [done|].
  apply labels_at_flatten in Hl as (Hroot & Hbelow & Hrest).
  apply Forall_cons in Hall as [[Hm Hlong] Hall].
  rewrite seq_cells_cons, filter_cons_True by congruence.
  rewrite filter_app. cbn [root_addrs]. f_equal.
  rewrite <-below_length.
  rewrite (filter_range_none _ _ (λ l, length l = m) h (S b) (below t));
    [|done| |done].
  - simpl. by apply IH.
  - eapply Forall_impl; [done|]. simpl. lia.
Qed.

Lemma siblings_ok_at pre t post :
  siblings_ok (pre ++ t :: post) →
  label t ≠ [] ∧
  Forall (adopts (label t)) (below t) ∧
  Forall (λ l, ¬ adopts (label t) l) (label <$> cells pre) ∧
  Forall (λ l, ¬ adopts (label t) l) (label <$> cells post).
Proof.
  intros [Hnd Hall]. rewrite fmap_app, fmap_cons in Hnd.
  apply NoDup_app in Hnd as (_ & Hpre & Hpost%NoDup_cons).
  destruct Hpost as [Hpost _].
  rewrite Forall_app, Forall_cons in Hall.
  destruct Hall as (_ & (Hne & _ & Hbelow & Hothers) & _).
  rewrite Forall_app, Forall_cons in Hothers.
  destruct Hothers as (Ho1 & _ & Ho2).
  split_and!; [done| | |].
  - eapply Forall_impl; [done|]. by intros l [_ ?].
  - apply Forall_cells, Forall_forall. intros u Hu.
    rewrite Forall_forall in Ho1. apply Ho1; [done|].
    intros Heq. apply (Hpre (label u)); [|rewrite Heq; left].
    apply list_elem_of_fmap. by exists u.
  - apply Forall_cells, Forall_forall. intros u Hu.
    rewrite Forall_forall in Ho2. apply Ho2; [done|].
    intros Heq. apply Hpost. rewrite <-Heq.
    apply list_elem_of_fmap. by exists u.
Qed.

(** The child rule of a root selects the nodes strictly below it. *)
Lemma filter_children h pre t post b :
  siblings_ok (pre ++ t :: post) →
  labels_at h b (label <$> cells (pre ++ t :: post)) →
  filter (λ a, adopts (label t) (label (h !!! a)))
         (seq b (length (cells (pre ++ t :: post))))
    = seq (S (b + length (cells pre))) (length (cells (children t))).
Proof.
  intros (Hne & Hbelow & Hpre & Hpost)%siblings_ok_at Hl.
  rewrite cells_app, fmap_app, labels_at_app in Hl. destruct Hl as [Hl1 Hl2].
  rewrite length_fmap in Hl2.
  apply labels_at_flatten in Hl2 as (Hroot & Hl2 & Hl3).
  rewrite cells_app, length_app, seq_app, filter_app, seq_cells_cons.
  rewrite filter_cons_False by (rewrite Hroot; apply adopts_irrefl).
  rewrite filter_app.
  pose proof (filter_range_none (λ a, adopts (label t) (label (h !!! a))) _
                (adopts (label t)) h b _ Hl1 Hpre) as E1.
  rewrite length_fmap in E1. rewrite E1 by done.
  pose proof (filter_range_all (λ a, adopts (label t) (label (h !!! a))) _
                (adopts (label t)) h _ _ Hl2 Hbelow) as E2.
  rewrite below_length in E2. rewrite E2 by done.
  pose proof (filter_range_none (λ a, adopts (label t) (label (h !!! a))) _
                (adopts (label t)) h _ _ Hl3 Hpost) as E3.
  rewrite length_fmap in E3. rewrite E3 by done.
  by rewrite app_nil_r.
Qed.

Lemma labels_root_addrs h : ∀ ts b,
  labels_at h b (label <$> cells ts) →
  labels h (root_addrs b ts) = (λ t : Node, label t) <$> ts.
Proof.
  induction ts as [|t ts IH]; intros b Hl; [done|].
  apply labels_at_flatten in Hl as (Hroot & _ & Hrest).
  cbn [root_addrs]. rewrite labels_cons, fmap_cons, Hroot. f_equal. by apply IH.
Qed.

Lemma root_addrs_app ts1 : ∀ b ts2,
  root_addrs b (ts1 ++ ts2) =
    root_addrs b ts1 ++ root_addrs (b + length (cells ts1)) ts2.
Proof.
  induction ts1 as [|t ts1 IH]; intros b ts2.
  - simpl. by rewrite Nat.add_0_r.
  - cbn [root_addrs app]. rewrite IH, cells_cons, length_app.
    by rewrite Nat.add_assoc.
Qed.

End filters.

(** ** The forest the store holds *)

Section built_facts.
Implicit Types (h : heap) (t u : Node) (ts pre post : list Node).

Lemma built_frame h h' b ts :
  built h b ts →
  (∀ a, b ≤ a < b + length (cells ts) → h' !!! a = h !!! a) →
  built h' b ts.
Proof.
  induction 1 as [b|b f ts Hroot _ IHc _ IHr]; intros Hsame; [constructor|].
  rewrite cells_cons, length_app in Hsame.
  pose proof (length_flatten_Tree f) as Hlen.
  constructor.
  - rewrite Hsame by lia. done.
  - apply IHc. intros a Ha. apply Hsame. lia.
  - apply IHr. intros a Ha. apply Hsame. lia.
Qed.

Lemma built_app h b ts1 ts2 :
  built h b ts1 → built h (b + length (cells ts1)) ts2 → built h b (ts1 ++ ts2).
Proof.
  induction 1 as [b|b f ts Hroot Hc _ _ IHr]; intros H2.
  - simpl in H2. by rewrite Nat.add_0_r in H2.
  - cbn [app]. constructor; [done..|]. apply IHr.
    rewrite cells_cons, length_app in H2. by rewrite Nat.add_assoc in H2.
Qed.

Lemma snapshot_unfold depth h a :
  snapshot (S depth) h a =
    cs ← mapM (snapshot depth h) (children (h !!! a));
    Some (Tree (set_children cs (h !!! a))).
Proof. reflexivity. Qed.

Lemma snapshot_mono h : ∀ depth depth' a t,
  depth ≤ depth' → snapshot depth h a = Some t → snapshot depth' h a = Some t.
Proof.
  induction depth as [|depth IH]; intros depth' a t Hle Hs; [done|].
  destruct depth' as [|depth']; [lia|].
  rewrite snapshot_unfold in Hs |- *.
  destruct (mapM (snapshot depth h) (children (h !!! a))) as [cs|] eqn:Hm;
    [|done].
  apply mapM_Some in Hm.
  rewrite (proj2 (mapM_Some (snapshot depth' h) _ cs)); [done|].
  eapply Forall2_impl; [done|]. intros x y Hxy. apply (IH depth'); [lia|done].
Qed.

(** What the store holds unfolds to the forest. *)
Lemma built_snapshot h b ts :
  built h b ts → ∃ depth, mapM (snapshot depth h) (root_addrs b ts) = Some ts.
Proof.
  induction 1 as [b|b f ts Hroot _ [d1 IHc] _ [d2 IHr]]; [by exists 0|].
  exists (S d1 `max` d2). cbn [root_addrs]. apply mapM_Some. constructor.
  - apply (snapshot_mono h (S d1)); [lia|].
    rewrite snapshot_unfold, Hroot. cbn [children set_children].
    rewrite IHc. by destruct f.
  - apply mapM_Some in IHr. eapply Forall2_impl; [done|].
    intros x y Hxy. apply (snapshot_mono h d2); [lia|done].
Qed.

Lemma grouped_unfold (f : NodeOf Node) :
  grouped (Tree f) →
  siblings_ok (children f) ∧ Forall (λ t, grouped t) (children f).
Proof.
  cbn [grouped]. intros [Hs Hc]%andb_True. split.
  - by apply bool_decide_unpack in Hs.
  - apply Forall_forall. intros t Ht.
    apply Is_true_true. apply Is_true_true in Hc.
    rewrite forallb_forall in Hc. apply Hc. by apply list_elem_of_In.
Qed.

End built_facts.

(** ** The loop over the roots and the round trip *)

Section roundtrip.
Implicit Types (h hc : heap) (t u : Node) (ts pre post : list Node).

Lemma cells_snoc pre t :
  length (cells (pre ++ [t])) = length (cells pre) + length (flatten t).
Proof. by rewrite cells_app, length_app, cells_cons, app_nil_r. Qed.

Lemma attach_forest fuel b (IHfuel : rebuilds fuel) : ∀ post pre h hc roots,
  length (cells (pre ++ post)) ≤ fuel →
  siblings_ok (pre ++ post) → Forall (λ t, grouped t) post →
  labels_at h b (label <$> cells (pre ++ post)) →
  attrs_kept h hc → frame (seq b (length (cells (pre ++ post)))) h hc →
  built hc b pre → placed hc (b + length (cells pre)) (cells post) →
  ∃ h', attach (treeify_fuel fuel) (seq b (length (cells (pre ++ post))))
               (root_addrs (b + length (cells pre)) post) hc roots
          = Ok (h', roots ++ root_addrs (b + length (cells pre)) post) ∧
        built h' b (pre ++ post) ∧
        frame (seq b (length (cells (pre ++ post)))) h h' ∧
        attrs_kept h h'.
Proof.
  induction post as [|t post IH];
    intros pre h hc roots Hfuel Hsib Hgr Hlab Hattrs Hframe Hbuilt Hplaced.
  { exists hc. simpl. rewrite !app_nil_r in *. done. }
  destruct t as [f]. remember (b + length (cells pre)) as c eqn:Hc.
  set (nodes := seq b (length (cells (pre ++ Tree f :: post)))) in *.
  assert (length (cells (pre ++ Tree f :: post))
          = length (cells pre) + (S (length (cells (children f)))
                                  + length (cells post))) as Hsize.
  { by rewrite cells_app, length_app, cells_cons, length_app, length_flatten_Tree. }
  (* the object of the root and those of its subtree *)
  rewrite cells_cons in Hplaced. apply placed_app in Hplaced as [Hsub Hrest].
  rewrite flatten_unfold in Hsub. apply placed_cons in Hsub as [Hcell Hkids].
  rewrite length_flatten_Tree in Hrest.
  assert (label (hc !!! c) = label f) as Hlc by (by rewrite Hcell).
  destruct (siblings_ok_at _ _ _ Hsib) as (Hne & _).
  apply Forall_cons in Hgr as [[Hsibc Hgrc]%grouped_unfold Hgr].
  (* the selection *)
  cbn [root_addrs attach].
  rewrite select_children_adopts by (by rewrite Hlc). cbn.
  rewrite Hlc.
  pose proof (filter_children hc pre (Tree f) post b Hsib) as Hsel.
  cbn [fields] in Hsel. fold nodes in Hsel. rewrite <-Hc in Hsel.
  rewrite Hsel by (by eapply labels_at_attrs). clear Hsel.
  (* the recursive call *)
  destruct (IHfuel (children f) hc (S c)) as (h1 & -> & Hb1 & Hf1 & Ha1);
    [lia|done..|].
  cbn.
  assert (h1 !!! c = hc !!! c) as Hc1.
  { apply Hf1. rewrite elem_of_seq. lia. }
  rewrite Hc1, Hcell. cbn [children set_children app].
  set (h2 := <[c := _]> h1).
  assert (∀ a, a ≠ c → a ∉ seq (S c) (length (cells (children f))) →
               h2 !!! a = hc !!! a) as Hout.
  { intros a Hac Ha. unfold h2. rewrite lookup_total_insert_ne by done.
    by apply Hf1. }
  (* the rest of the loop *)
  destruct (IH (pre ++ [Tree f]) h h2 (roots ++ [c])) as (h' & Hrun & Hb' & Hf' & Ha').
  { by rewrite <-app_assoc. }
  { by rewrite <-app_assoc. }
  { done. }
  { by rewrite <-app_assoc. }
  { eapply attrs_kept_trans; [done|].
    unfold h2. apply attrs_kept_insert_obj; [done|].
    rewrite Hc1, Hcell. by repeat split. }
  { rewrite <-app_assoc. cbn [app]. intros a Ha. rewrite Hout.
    - by apply Hframe.
    - intros ->. apply Ha. rewrite elem_of_seq. lia.
    - intros [? ?]%elem_of_seq. apply Ha. rewrite elem_of_seq. lia. }
  { apply built_app.
    - eapply built_frame; [done|]. intros a Ha. apply Hout; [lia|].
      rewrite elem_of_seq. lia.
    - rewrite <-Hc. constructor.
      + unfold h2. rewrite lookup_total_insert_eq. by destruct f.
      + eapply built_frame; [done|]. intros a Ha. unfold h2.
        rewrite lookup_total_insert_ne by lia. done.
      + constructor. }
  { rewrite cells_snoc, length_flatten_Tree, Nat.add_assoc, <-Hc.
    eapply placed_frame; [done|]. intros a Ha. apply Hout; [lia|].
    rewrite elem_of_seq. lia. }
  rewrite cells_snoc, length_flatten_Tree, Nat.add_assoc, <-Hc in Hrun.
  rewrite <-app_assoc in Hrun, Hb', Hf'. cbn [app] in Hrun, Hb', Hf'.
  exists h'. rewrite <-(app_assoc roots) in Hrun.
  split_and!; [exact Hrun|done..].
Qed.

Lemma siblings_ok_lengths ts t :
  siblings_ok ts → t ∈ ts →
  Forall (λ u : Node, length (label u) = length (label t) ∧
                      Forall (λ d, length (label t) < length d) (below u)) ts.
Proof.
  intros [_ Hall] Ht. rewrite Forall_forall in Hall.
  destruct (Hall t Ht) as (_ & Hlen & _).
  rewrite Forall_forall in Hlen. apply Forall_forall. intros u Hu.
  destruct (Hall u Hu) as (_ & _ & Hbelow & _).
  split; [by apply Hlen|].
  eapply Forall_impl; [done|]. intros d [Hd _]. simpl in Hd.
  rewrite <-(Hlen u Hu). done.
Qed.

Lemma treeify_fuel_forest : ∀ fuel, rebuilds fuel.
Proof.
  induction fuel as [|fuel IH]; intros ts h b Hlen Hsib Hgr Hpl; [lia|].
  destruct ts as [|t ts'].
  { exists h. split_and!; [done|constructor|done|apply attrs_kept_refl]. }
  remember (t :: ts') as ts eqn:Hts.
  assert (t ∈ ts) as Ht by (subst ts; left).
  pose proof (placed_labels _ _ _ Hpl) as Hlab.
  assert (length (cells ts) = S (length (cells (children t)))
                               + length (cells ts')) as Hsize.
  { subst ts. by rewrite cells_cons, length_app, length_flatten. }
  assert (label (h !!! b) = label t) as Hb.
  { subst ts. by apply labels_at_flatten in Hlab as (? & _). }
  rewrite treeify_fuel_cons by (intros Hnil%(f_equal length); simpl in Hnil;
                                rewrite length_seq in Hnil; lia).
  pose proof (siblings_ok_lengths ts t Hsib Ht) as Hlens.
  destruct (shortest_spec h (seq b (length (cells ts))))
    as (m & -> & Hmin & a & Ha & Hm).
  { intros Hnil%(f_equal length). simpl in Hnil.
    rewrite length_seq in Hnil. lia. }
  assert (m = length (label t)) as ->.
  { apply Nat.le_antisymm.
    - rewrite <-Hb. apply Hmin. rewrite elem_of_seq. lia.
    - rewrite <-Hm.
      rewrite <-(length_fmap label (cells ts)) in Ha.
      apply (labels_at_Forall (λ l, length (label t) ≤ length l) h b _ a Hlab);
        [|done].
      apply Forall_cells. eapply Forall_impl; [done|].
      intros u [Hu Hbelow]. rewrite within_unfold. constructor; [simpl; lia|].
      eapply Forall_impl; [done|]. simpl. lia. }
  rewrite (filter_roots h (length (label t)) ts b Hlab Hlens).
  unfold merge_duplicates. rewrite merge_duplicates_distinct
    by (rewrite (labels_root_addrs h ts b Hlab); apply Hsib).
  cbn.
  destruct (attach_forest fuel b IH ts [] h h [])
    as (h' & Hrun & Hb' & Hf' & Ha');
    [cbn [app]; lia|done|done|done|apply attrs_kept_refl|by intros ?|constructor
    |simpl; by rewrite Nat.add_0_r|].
  simpl in Hrun. rewrite Nat.add_0_r in Hrun. by exists h'.
Qed.

End roundtrip.

(** C2. Take a tree whose children are grouped consistently with the labels
    (in every group of siblings, and for the root: labels are distinct,
    non-empty and of one length, every label below a node is longer and falls
    under it by the child rule of treeify, and no label of another sibling's
    subtree does).  Flatten it in pre-order into the list of all its nodes,
    each without children.  On that list [treeify] returns exactly one root,
    and the object it refers to unfolds to the original tree: same text,
    label, title, node_type and children at every node. *)
Theorem treeify_flatten_roundtrip (t : Node) :
  grouped_tree t →
  ∃ h', treeify (load (flatten t)) (seq 0 (length (flatten t))) = Ok (h', [0]) ∧
        ∃ depth, snapshot depth h' 0 = Some t.
Proof.
  intros [Hsib Hgr].
  assert (cells [t] = flatten t) as Hcells by apply app_nil_r.
  destruct (treeify_fuel_forest (S (length (flatten t))) [t] (load (flatten t)) 0)
    as (h' & Hrun & Hbuilt & _).
  - rewrite Hcells. lia.
  - done.
  - by constructor.
  - rewrite Hcells. apply placed_load.
  - rewrite Hcells in Hrun. exists h'. split.
    + unfold treeify. by rewrite length_seq.
    + apply built_snapshot in Hbuilt as [depth Hm]. exists depth.
      cbn [root_addrs] in Hm. apply mapM_Some in Hm.
      by apply Forall2_cons_1 in Hm as [? _].
Qed.

(** Part 1005 is grouped, and treeify rebuilds it from its flat list. *)
Lemma treeify_flatten_roundtrip_part_1005 :
  grouped_tree part_1005 ∧
  ∃ h', treeify (load (flatten part_1005)) (seq 0 (length (flatten part_1005)))
          = Ok (h', [0]) ∧
        ∃ depth, snapshot depth h' 0 = Some part_1005.
Proof.
  assert (grouped_tree part_1005) as H by (by apply (bool_decide_unpack _)).
  split; [exact H|]. exact (treeify_flatten_roundtrip part_1005 H).
Defined.

(** ** Trees labelled one segment per level are grouped *)

Section segmented.
Implicit Types (t u c : Node) (ts : list Node) (f : NodeOf Node).

Lemma by_segment_unfold f :
  by_segment (Tree f) →
  NoDup ((λ c : Node, label c) <$> children f) ∧
  Forall (λ c : Node, child_label (label f) (label c) ∧ plain_label (label c))
         (children f) ∧
  Forall (λ c, by_segment c) (children f).
Proof.
  cbn [by_segment]. intros [[Hnd Hall]%bool_decide_unpack Hc]%andb_True.
  split_and!; [done..|].
  apply Forall_forall. intros t Ht.
  apply Is_true_true. apply Is_true_true in Hc.
  rewrite forallb_forall in Hc. apply Hc. by apply list_elem_of_In.
Qed.

Lemma below_unfold f :
  below (Tree f) = children f ≫= within.
Proof.
  unfold below, cells. cbn [fields].
  induction (children f) as [|c cs IH]; [done|].
  by rewrite bind_cons, fmap_app, IH.
Qed.

(** Every label below a node extends the label of the node. *)
Lemma by_segment_below t :
  by_segment t →
  Forall (λ d, label t `prefix_of` d ∧ length (label t) < length d) (below t).
Proof.
  induction t as [f IH] using Node_ind'.
  intros (_ & Hkids & Hseg)%by_segment_unfold.
  rewrite below_unfold. cbn [fields].
  apply Forall_forall. intros d (c & Hd & Hc)%list_elem_of_bind.
  rewrite Forall_forall in IH, Hkids, Hseg.
  destruct (Hkids c Hc) as [[Hpre Hlen] _].
  rewrite within_unfold in Hd. apply elem_of_cons in Hd as [->|Hd].
  - split; [done|lia].
  - specialize (IH c Hc (Hseg c Hc)). rewrite Forall_forall in IH.
    destruct (IH d Hd) as [Hpre' Hlen'].
    split; [by etrans|lia].
Qed.

Lemma by_segment_within t :
  by_segment t → Forall (λ d, label t `prefix_of` d) (within t).
Proof.
  intros Hseg. rewrite within_unfold. constructor; [done|].
  eapply Forall_impl; [by apply by_segment_below|]. by intros d [? _].
Qed.

Lemma plain_adopts rl d :
  plain_label rl → rl `prefix_of` d → length rl < length d → adopts rl d.
Proof.
  intros [_ Hlast] Hpre Hlen. split.
  - intros ->. lia.
  - by rewrite decide_False.
Qed.

Lemma plain_adopts_inv rl d : plain_label rl → adopts rl d → rl `prefix_of` d.
Proof. intros [_ Hlast] [_ H]. by rewrite decide_False in H. Qed.

(** Nodes with ordinary labels of one length, each the root of a subtree
    labelled one segment per level, form a consistent group. *)
Lemma segmented_siblings_ok ts m :
  NoDup ((λ c : Node, label c) <$> ts) →
  Forall (λ c : Node, length (label c) = m ∧ plain_label (label c) ∧
                      by_segment c) ts →
  siblings_ok ts.
Proof.
  intros Hnd Hall. split; [done|].
  rewrite Forall_forall in Hall. apply Forall_forall. intros t Ht.
  destruct (Hall t Ht) as (Hm & Hplain & Hseg). split_and!.
  - apply Hplain.
  - apply Forall_forall. intros u Hu. destruct (Hall u Hu) as (? & _). lia.
  - eapply Forall_impl; [by apply by_segment_below|].
    intros d [Hpre Hlen]. split; [done|]. by apply plain_adopts.
  - apply Forall_forall. intros u Hu Hne.
    destruct (Hall u Hu) as (Hmu & _ & Hsegu).
    eapply Forall_impl; [by apply by_segment_within|].
    intros d Hud Had%plain_adopts_inv; [|done].
    apply Hne. destruct (prefix_weak_total _ _ _ Hud Had) as [H|H].
    + apply prefix_length_eq; [done|lia].
    + symmetry. apply prefix_length_eq; [done|lia].
Qed.

Lemma by_segment_grouped t : by_segment t → grouped t.
Proof.
  induction t as [f IH] using Node_ind'. intros Hseg.
  destruct (by_segment_unfold f Hseg) as (Hnd & Hkids & Hsegs).
  cbn [grouped]. apply andb_True. split.
  - apply bool_decide_pack.
    apply (segmented_siblings_ok _ (S (length (label f)))); [done|].
    rewrite Forall_forall in Hkids, Hsegs |- *. intros c Hc.
    destruct (Hkids c Hc) as [[_ Hlen] Hplain]. split_and!; [done..|].
    by apply Hsegs.
  - apply Is_true_true, forallb_forall. intros c Hc%list_elem_of_In.
    apply Is_true_true. rewrite Forall_forall in IH, Hsegs.
    by apply IH, Hsegs.
Qed.

(** The trees a reader would call grouped by their label prefixes satisfy
    the condition of the round trip. *)
Lemma segmented_grouped t : segmented t → grouped_tree t.
Proof.
  intros [Hplain Hseg]. split; [|by apply by_segment_grouped].
  apply (segmented_siblings_ok _ (length (label t))).
  - apply NoDup_singleton.
  - constructor; [done|constructor].
Qed.

Example part_1005_segmented : segmented part_1005.
Proof. by apply (bool_decide_unpack _). Qed.

(** So do the trees of interpretations, whose labels keep the marker last and
    do not extend the label of their parent. *)
Example interp_1005_grouped : grouped_tree interp_1005.
Proof. by apply (bool_decide_unpack _). Qed.

(** An interpretation root next to a section is not grouped by the child
    rule: the root claims its sibling, and treeify nests the section under
    it. *)
Example mixed_1005_not_grouped :
  ¬ grouped_tree mixed_1005 ∧
  ∃ h', treeify (load (flatten mixed_1005)) (seq 0 3) = Ok (h', [0]) ∧
        children (h' !!! 0) = [1; 2] ∧ children (h' !!! 1) = [2].
Proof.
  split.
  - apply (bool_decide_eq_false_1 (grouped_tree mixed_1005)). reflexivity.
  - eexists. split_and!; reflexivity.
Qed.

End segmented.

(** C4. For a root whose label is [stripped] followed by a last segment
    [seg], the nodes [treeify] selects as its descendants are the nodes of the
    input whose label differs from the root's and, when [seg] is the marker
    "Interp", whose label has [stripped] as its prefix of length
    [len(root.label) - 1]; and otherwise whose label has the whole label of
    the root as a prefix.  The recursive call of the loop is made on exactly
    this selection. *)
Theorem treeify_child_rule (h : heap) (nodes : list nat) (root : nat)
    (stripped : list string) (seg : string) :
  label (h !!! root) = stripped ++ [seg] →
  ∃ selected,
    select_children h nodes root = Ok selected ∧
    (∀ n, n ∈ selected ↔
          n ∈ nodes ∧ label (h !!! n) ≠ label (h !!! root) ∧
          if decide (seg = INTERP_MARK)
          then take (length (label (h !!! root)) - 1) (label (h !!! n)) = stripped
          else label (h !!! root) `prefix_of` label (h !!! n)) ∧
    ∀ rec rest roots,
      attach rec nodes (root :: rest) h roots =
        rec h selected ≫= λ '(h', sub),
          attach rec nodes rest
            (<[root := set_children (children (h !!! root) ++ sub)
                         (h' !!! root)]> h')
            (roots ++ [root]).
Proof.
  intros Hl.
  assert (label (h !!! root) ≠ []) as Hne.
  { rewrite Hl. intros Hnil%(f_equal length). rewrite length_app in Hnil.
    simpl in Hnil. lia. }
  eexists. split_and!.
  - by apply select_children_adopts.
  - intros n. rewrite list_elem_of_filter, Hl, adopts_spec.
    rewrite length_app. simpl.
    replace (length stripped + 1 - 1) with (length stripped) by lia. tauto.
  - intros rec rest roots. cbn [attach].
    by rewrite select_children_adopts.
Qed.

(** The interpretation root of part 1 among four nodes. *)
Lemma treeify_child_rule_interp :
  label (interp_nodes !!! 0) = ["1"] ++ ["Interp"] ∧
  ∃ selected,
    select_children interp_nodes [0; 1; 2; 3] 0 = Ok selected ∧
    (∀ n, n ∈ selected ↔
          n ∈ [0; 1; 2; 3] ∧
          label (interp_nodes !!! n) ≠ label (interp_nodes !!! 0) ∧
          if decide ("Interp" = INTERP_MARK)
          then take (length (label (interp_nodes !!! 0)) - 1)
                    (label (interp_nodes !!! n)) = ["1"]
          else label (interp_nodes !!! 0) `prefix_of` label (interp_nodes !!! n)) ∧
    ∀ rec rest roots,
      attach rec [0; 1; 2; 3] (0 :: rest) interp_nodes roots =
        rec interp_nodes selected ≫= λ '(h', sub),
          attach rec [0; 1; 2; 3] rest
            (<[0 := set_children (children (interp_nodes !!! 0) ++ sub)
                      (h' !!! 0)]> h')
            (roots ++ [0]).
Proof.
  split; [reflexivity|].
  apply (treeify_child_rule interp_nodes [0; 1; 2; 3] 0 ["1"] "Interp").
  reflexivity.
Defined.

(** The selection of the example: the section and the comment on it fall
    under the interpretation root, the node of the other part does not. *)
Example select_children_interp :
  select_children interp_nodes [0; 1; 2; 3] 0 = Ok [1; 2].
Proof. reflexivity. Qed.

(** ** repr can be read back *)

Section strings.

Lemma append_cons (c : ascii) (a b : string) :
  String c a +:+ b = String c (a +:+ b).
Proof. reflexivity. Qed.

Lemma append_nil_l (b : string) : "" +:+ b = b.
Proof. reflexivity. Qed.

Lemma append_assoc (a b c : string) : (a +:+ b) +:+ c = a +:+ (b +:+ c).
Proof.
  induction a as [|x a IH]; [done|]. rewrite !append_cons. by f_equal.
Qed.

Lemma append_nil_r (a : string) : a +:+ "" = a.
Proof.
  induction a as [|x a IH]; [done|]. rewrite append_cons. by f_equal.
Qed.

Lemma append_inv_head (l x y : string) : l +:+ x = l +:+ y → x = y.
Proof. apply (inj _). Qed.

Lemma compare_refl (s : string) : String.compare s s = Eq.
Proof.
  induction s as [|c s IH]; simpl; [done|].
  unfold Ascii.compare. by rewrite N.compare_refl.
Qed.

Lemma py_cmp_zero (s1 s2 : string) : py_cmp s1 s2 = 0%Z ↔ s1 = s2.
Proof.
  unfold py_cmp. split.
  - destruct (String.compare s1 s2) eqn:Hc; try done.
    intros _. by apply String.compare_eq_iff.
  - intros ->. by rewrite compare_refl.
Qed.

End strings.

(** Texts as nested cons cells, appends pushed to the right. *)
Create Rewrite HintDb push_append.
#[local] Hint Rewrite append_assoc append_cons append_nil_l : push_append.

Section repr_strings.

Lemma quote_for_cases (s : string) :
  quote_for s = single_quote ∨ quote_for s = double_quote.
Proof. unfold quote_for. destruct (_ && _); auto. Qed.

(** Every escaped character reads back, whatever follows it. *)
Lemma unescape_esc_char (q c : ascii) (r : string) :
  q = single_quote ∨ q = double_quote →
  unescape q (esc_char q c +:+ r) = Some (c, r).
Proof.
  intros [->| ->];
    destruct c as [[] [] [] [] [] [] [] []]; reflexivity.
Qed.

Lemma unescape_quote (q : ascii) (r : string) : unescape q (String q r) = None.
Proof. simpl. by rewrite Ascii.eqb_refl. Qed.

Lemma escape_reads_back (q : ascii) :
  q = single_quote ∨ q = double_quote →
  ∀ a b r s,
    escape q a +:+ String q r = escape q b +:+ String q s → a = b ∧ r = s.
Proof.
  intros Hq. induction a as [|c a IH]; intros [|d b] r s; cbn [escape].
  - rewrite !append_nil_l. by intros [=].
  - rewrite append_assoc, append_nil_l. intros E%(f_equal (unescape q)).
    rewrite unescape_esc_char, unescape_quote in E by done. done.
  - rewrite append_assoc, append_nil_l. intros E%(f_equal (unescape q)).
    rewrite unescape_esc_char, unescape_quote in E by done. done.
  - rewrite !append_assoc. intros E. pose proof (f_equal (unescape q) E) as E'.
    rewrite !unescape_esc_char in E' by done. injection E' as -> E'.
    destruct (IH b r s E') as [-> ->]. done.
Qed.

Lemma repr_str_reads_back (a : string) : reads_back repr_str id a.
Proof.
  intros b r s. unfold repr_str. autorewrite with push_append.
  intros [= Hq E]. rewrite <-Hq in E.
  by apply escape_reads_back in E; [|apply quote_for_cases].
Qed.

(** No rendering of a string starts with a closing parenthesis. *)
Lemma repr_str_no_paren (a r r' : string) : repr_str a +:+ r ≠ String ")" r'.
Proof.
  unfold repr_str. autorewrite with push_append. intros [= Hq _].
  by destruct (quote_for_cases a) as [Ha|Ha]; rewrite Ha in Hq.
Qed.

Lemma repr_unicode_or_empty_reads_back (a : string) :
  reads_back repr_unicode_or_empty id a.
Proof.
  intros b r s. unfold repr_unicode_or_empty.
  destruct (decide (a = "")) as [->|Ha], (decide (b = "")) as [->|Hb].
  - autorewrite with push_append. by intros [=].
  - unfold repr_str. autorewrite with push_append. done.
  - unfold repr_str. autorewrite with push_append. done.
  - rewrite !append_assoc. intros E%append_inv_head.
    by apply repr_str_reads_back in E.
Qed.

End repr_strings.

Section repr_tuples.
Context {A B : Type} (repr : A → string) (p : A → B).
Context (no_paren : ∀ x r r', repr x +:+ r ≠ String ")" r').

Lemma repr_more_reads_back (l : list A) :
  Forall (reads_back repr p) l → reads_back (repr_more repr) (fmap p) l.
Proof.
  induction l as [|x l IH]; intros Hall [|y l'] r s; cbn [repr_more];
    autorewrite with push_append; try done.
  - by intros [=].
  - apply Forall_cons in Hall as [Hx Hall]. intros [= E].
    apply Hx in E as [Hxy E]. apply (IH Hall) in E as [Hl E].
    by rewrite !fmap_cons, Hxy, Hl.
Qed.

Lemma repr_tuple_reads_back (l : list A) :
  Forall (reads_back repr p) l → reads_back (repr_tuple repr) (fmap p) l.
Proof.
  intros Hall l' r s.
  destruct l as [|x [|x2 l]], l' as [|y [|y2 l']];
    cbn [repr_tuple repr_more]; autorewrite with push_append; intros [= E];
    try (by subst);
    try (by destruct (no_paren _ _ _ (eq_sym E)));
    try (by destruct (no_paren _ _ _ E)).
  - apply Forall_cons in Hall as [Hx _]. apply Hx in E as [Hxy [= ->]].
    by rewrite !fmap_cons, Hxy.
  - apply Forall_cons in Hall as [Hx _]. by apply Hx in E as [_ [=]].
  - apply Forall_cons in Hall as [Hx _]. by apply Hx in E as [_ [=]].
  - apply Forall_cons in Hall as [Hx Hall]. apply Hx in E as [Hxy E].
    assert (repr_more repr (x2 :: l) +:+ r = repr_more repr (y2 :: l') +:+ s)
      as E' by (cbn [repr_more]; by autorewrite with push_append).
    apply (repr_more_reads_back _ Hall) in E' as [Hl E'].
    by rewrite fmap_cons, Hxy, Hl.
Qed.

Lemma repr_more_ext (g : A → A) (l : list A) :
  Forall (λ x, repr (g x) = repr x) l →
  repr_more repr (g <$> l) = repr_more repr l.
Proof.
  induction 1 as [|x l Hx _ IH]; [done|].
  rewrite fmap_cons. cbn [repr_more]. by rewrite Hx, IH.
Qed.

Lemma repr_tuple_ext (g : A → A) (l : list A) :
  Forall (λ x, repr (g x) = repr x) l →
  repr_tuple repr (g <$> l) = repr_tuple repr l.
Proof.
  intros Hall. destruct l as [|x [|x2 l]]; [done| |].
  - apply Forall_cons in Hall as [Hx _]. cbn. by rewrite Hx.
  - apply Forall_cons in Hall as [Hx Hall].
    rewrite 2!fmap_cons. cbn [repr_tuple]. rewrite Hx. do 2 f_equal.
    by apply (repr_more_ext g (x2 :: l)).
Qed.

End repr_tuples.

Section frozen.

Lemma FrozenNode_repr_no_paren x r r' : FrozenNode_repr x +:+ r ≠ String ")" r'.
Proof. destruct x. cbn [FrozenNode_repr]. autorewrite with push_append. done. Qed.

(** The text of a frozen tree determines everything it shows. *)
Lemma FrozenNode_repr_reads_back (a : FrozenNode) :
  reads_back FrozenNode_repr shown a.
Proof.
  induction a as [t cs l ti nt tt IH] using FrozenNode_ind'.
  intros [t' cs' l' ti' nt' tt'] r s. cbn [FrozenNode_repr shown].
  rewrite !append_assoc.
  intros E%append_inv_head.
  apply repr_unicode_or_empty_reads_back in E as [Ht E%append_inv_head].
  apply (repr_tuple_reads_back _ _ FrozenNode_repr_no_paren _ IH)
    in E as [Hcs E%append_inv_head].
  apply (repr_tuple_reads_back repr_str id repr_str_no_paren) in E
    as [Hl E%append_inv_head];
    [|apply Forall_forall; intros; apply repr_str_reads_back].
  apply repr_unicode_or_empty_reads_back in E as [Hti E%append_inv_head].
  rewrite !list_fmap_id in Hl. unfold id in *. subst. by rewrite Hcs.
Qed.

Lemma FrozenNode_repr_shown (a : FrozenNode) :
  FrozenNode_repr (shown a) = FrozenNode_repr a.
Proof.
  induction a as [t cs l ti nt tt IH] using FrozenNode_ind'.
  cbn [FrozenNode_repr shown]. by rewrite (repr_tuple_ext _ _ _ IH).
Qed.

Lemma FrozenNode_eq_repr (a b : FrozenNode) :
  FrozenNode_eq a b = true ↔ FrozenNode_repr a = FrozenNode_repr b.
Proof.
  unfold FrozenNode_eq, FrozenNode_cmp.
  by rewrite bool_decide_eq_true, py_cmp_zero.
Qed.

(** Equality of frozen nodes is equality of what [repr] shows. *)
Lemma FrozenNode_eq_shown (a b : FrozenNode) :
  FrozenNode_eq a b = true ↔ shown a = shown b.
Proof.
  rewrite FrozenNode_eq_repr. split.
  - intros E.
    destruct (FrozenNode_repr_reads_back a b "" "") as [? _]; [|done].
    by rewrite !append_nil_r.
  - intros E. by rewrite <-(FrozenNode_repr_shown a), E, FrozenNode_repr_shown.
Qed.

End frozen.

(** ** Frozen trees of mutable trees *)

Section freezing.

Lemma fmap_transfer {A B C} (f : A → B) (g : A → C) (Q : A → Prop) (l : list A) :
  Forall (λ x, ∀ y, Q x → Q y → f x = f y → g x = g y) l →
  ∀ l', Forall Q l → Forall Q l' → f <$> l = f <$> l' → g <$> l = g <$> l'.
Proof.
  induction 1 as [|x l Hx _ IH]; intros [|y l'] Hl Hl' E; try done.
  rewrite !fmap_cons in E. injection E as Exy E.
  apply Forall_cons in Hl as [? ?]. apply Forall_cons in Hl' as [? ?].
  rewrite !fmap_cons. f_equal; [by apply Hx|by apply IH].
Qed.

Lemma Forall_True {A} (l : list A) : Forall (λ _, True) l.
Proof. by apply Forall_forall. Qed.

Lemma constructed_unfold (f : NodeOf Node) :
  constructed (Tree f) →
  init_invariant f ∧ Forall (λ c, constructed c) (children f).
Proof.
  cbn [constructed]. intros [Hs Hc]%andb_True. split.
  - by apply bool_decide_unpack in Hs.
  - apply Forall_forall. intros t Ht.
    apply Is_true_true. apply Is_true_true in Hc.
    rewrite forallb_forall in Hc. apply Hc. by apply list_elem_of_In.
Qed.

(** Trees with the same text, labels, titles and shape freeze to trees that
    show the same. *)
Lemma from_node_shown (a : Node) : ∀ b,
  fields_of false a = fields_of false b →
  shown (from_node a) = shown (from_node b).
Proof.
  induction a as [f IH] using Node_ind'. intros [g].
  cbn [fields_of from_node shown FrozenNode_init]. intros [= Ht Hc Hl Hti].
  rewrite Ht, Hl, Hti. f_equal. rewrite <-!list_fmap_compose.
  apply (fmap_transfer (fields_of false) _ (λ _, True) (children f));
    [|apply Forall_True..|done].
  eapply Forall_impl; [exact IH|]. intros x Hx y _ _. apply Hx.
Qed.

(** And conversely, for trees as the constructor leaves them. *)
Lemma shown_from_node (a : Node) : ∀ b,
  constructed a → constructed b →
  shown (from_node a) = shown (from_node b) →
  fields_of false a = fields_of false b.
Proof.
  induction a as [f IH] using Node_ind'. intros [g].
  intros [[_ Hf] Hcf]%constructed_unfold [[_ Hg] Hcg]%constructed_unfold.
  cbn [fields_of from_node shown FrozenNode_init]. intros [= Ht Hc Hl Hti].
  assert (title f = title g) as Htitle.
  { destruct (title f) as [tf|], (title g) as [tg|]; simpl in Hti;
      congruence. }
  rewrite Ht, Hl, Htitle. do 2 f_equal.
  rewrite <-!list_fmap_compose in Hc.
  apply (fmap_transfer (shown ∘ from_node) _ (λ c, constructed c) (children f));
    [|done..].
  eapply Forall_impl; [exact IH|]. intros x Hx y ? ?. by apply Hx.
Qed.

Lemma fields_of_weaken (a : Node) : ∀ b,
  fields_of true a = fields_of true b → fields_of false a = fields_of false b.
Proof.
  induction a as [f IH] using Node_ind'. intros [g].
  cbn [fields_of]. intros [= Ht Hc Hl Hti _].
  rewrite Ht, Hl, Hti. do 2 f_equal.
  apply (fmap_transfer (fields_of true) _ (λ _, True) (children f));
    [|apply Forall_True..|done].
  eapply Forall_impl; [exact IH|]. intros x Hx y _ _. apply Hx.
Qed.

End freezing.

(** [string_code] tells strings apart. *)
Lemma string_code_pos (s : string) : (1 ≤ string_code s)%Z.
Proof.
  induction s as [|c s IH]; cbn [string_code]; [done|].
  pose proof (N_ascii_bounded c). lia.
Qed.

Lemma string_code_inj : Inj (=) (=) string_code.
Proof.
  intros s1. induction s1 as [|c s1 IH]; intros [|d s2]; cbn [string_code].
  - done.
  - pose proof (string_code_pos s2). pose proof (N_ascii_bounded d). lia.
  - pose proof (string_code_pos s1). pose proof (N_ascii_bounded c). lia.
  - pose proof (N_ascii_bounded c). pose proof (N_ascii_bounded d). intros E.
    assert (string_code s1 = string_code s2 ∧ N_of_ascii c = N_of_ascii d)
      as [E1 E2] by lia.
    apply IH in E1 as ->. f_equal.
    by rewrite <-(ascii_N_embedding c), E2, ascii_N_embedding.
Qed.

(** C1. Two trees of nodes with the same text, label, title, node_type and,
    recursively, children freeze to frozen trees that are equal and have the
    same hash.  Two trees as the constructor leaves them that differ
    somewhere in a text, in a label segment, in a title or in the children
    of a node freeze to frozen trees that are unequal and print differently,
    and their hashes differ for every hash of strings that has no
    collisions: [__hash__] hashes two different strings. *)
Theorem frozen_trees_equal_iff_same_fields (py_hash : string → Z) (a b : Node) :
  (fields_of true a = fields_of true b →
   FrozenNode_eq (from_node a) (from_node b) = true ∧
   FrozenNode_hash py_hash (from_node a) = FrozenNode_hash py_hash (from_node b)) ∧
  (constructed a → constructed b →
   fields_of false a ≠ fields_of false b →
   FrozenNode_eq (from_node a) (from_node b) = false ∧
   FrozenNode_repr (from_node a) ≠ FrozenNode_repr (from_node b) ∧
   (Inj (=) (=) py_hash →
    FrozenNode_hash py_hash (from_node a)
    ≠ FrozenNode_hash py_hash (from_node b))).
Proof.
  split.
  - intros E%fields_of_weaken%from_node_shown.
    apply FrozenNode_eq_shown in E as Heq. split; [done|].
    unfold FrozenNode_hash. f_equal. by apply FrozenNode_eq_repr.
  - intros Ha Hb Hne.
    assert (FrozenNode_eq (from_node a) (from_node b) ≠ true) as Hneq.
    { intros E%FrozenNode_eq_shown. by apply Hne, shown_from_node. }
    assert (FrozenNode_repr (from_node a) ≠ FrozenNode_repr (from_node b))
      as Hrepr by (intros E; by apply Hneq, FrozenNode_eq_repr).
    split_and!.
    + by destruct (FrozenNode_eq _ _).
    + done.
    + intros Hinj E. unfold FrozenNode_hash in E. by apply Hinj in E.
Qed.

(** Part 1005 against a second copy of itself, and against the copy in which
    paragraph b is labelled c, hashed without collisions. *)
Lemma frozen_trees_equal_iff_same_fields_part_1005 :
  (FrozenNode_eq (from_node part_1005) (from_node part_1005) = true ∧
   FrozenNode_hash string_code (from_node part_1005)
   = FrozenNode_hash string_code (from_node part_1005)) ∧
  (FrozenNode_eq (from_node part_1005) (from_node part_1005_edited) = false ∧
   FrozenNode_repr (from_node part_1005)
   ≠ FrozenNode_repr (from_node part_1005_edited) ∧
   FrozenNode_hash string_code (from_node part_1005)
   ≠ FrozenNode_hash string_code (from_node part_1005_edited)).
Proof.
  split.
  - apply (frozen_trees_equal_iff_same_fields _ part_1005 part_1005).
    reflexivity.
  - destruct (frozen_trees_equal_iff_same_fields string_code part_1005
                part_1005_edited) as [_ H].
    destruct H as (Heq & Hrepr & Hhash);
      [reflexivity|reflexivity|discriminate|].
    split_and!; [exact Heq|exact Hrepr|exact (Hhash string_code_inj)].
Defined.

(** [repr] looks at text, children, label and title only. *)
Lemma FrozenNode_repr_four_fields (x y : FrozenNode) :
  frozen_text x = frozen_text y →
  frozen_children x = frozen_children y →
  frozen_label x = frozen_label y →
  frozen_title x = frozen_title y →
  FrozenNode_repr x = FrozenNode_repr y.
Proof.
  destruct x as [t cs l ti nt tt], y as [t' cs' l' ti' nt' tt']. cbn.
  by intros -> -> -> ->.
Qed.

(** C5, as amended.  [node_type] is not part of what [FrozenNode.__repr__]
    renders, and neither is [tagged_text]: two frozen nodes that agree on
    text, children, label and title are equal and have the same hash,
    whatever their node types. *)
Theorem frozen_equality_ignores_node_type (py_hash : string → Z)
    (x y : FrozenNode) :
  frozen_text x = frozen_text y →
  frozen_children x = frozen_children y →
  frozen_label x = frozen_label y →
  frozen_title x = frozen_title y →
  FrozenNode_eq x y = true ∧
  FrozenNode_hash py_hash x = FrozenNode_hash py_hash y.
Proof.
  intros Ht Hc Hl Hti.
  pose proof (FrozenNode_repr_four_fields x y Ht Hc Hl Hti) as E. split.
  - by apply FrozenNode_eq_repr.
  - unfold FrozenNode_hash. by rewrite E.
Qed.

(** A regtext node and an appendix node with the same text, label and
    title. *)
Lemma frozen_equality_ignores_node_type_sample :
  frozen_node_type frozen_regtext ≠ frozen_node_type frozen_appendix ∧
  FrozenNode_eq frozen_regtext frozen_appendix = true ∧
  FrozenNode_hash (λ s, Z.of_nat (String.length s)) frozen_regtext
  = FrozenNode_hash (λ s, Z.of_nat (String.length s)) frozen_appendix.
Proof.
  split; [discriminate|].
  apply (frozen_equality_ignores_node_type _ frozen_regtext frozen_appendix);
    reflexivity.
Defined.

(** C5, as stated, fails: no two frozen nodes that agree on text, children,
    label, title and tagged_text and differ in node_type are unequal. *)
Lemma frozen_node_type_never_distinguishes :
  ¬ ∃ x y : FrozenNode,
      frozen_text x = frozen_text y ∧
      frozen_children x = frozen_children y ∧
      frozen_label x = frozen_label y ∧
      frozen_title x = frozen_title y ∧
      frozen_tagged_text x = frozen_tagged_text y ∧
      frozen_node_type x ≠ frozen_node_type y ∧
      FrozenNode_eq x y = false.
Proof.
  intros (x & y & Ht & Hc & Hl & Hti & _ & _ & Hneq).
  pose proof (FrozenNode_repr_four_fields x y Ht Hc Hl Hti) as E.
  apply FrozenNode_eq_repr in E. congruence.
Qed.

(** ** Node.__init__ *)

Section init.

Lemma mapM_Ok {A B} (f : A → result B) (l : list A) (k : list B) :
  mapM f l = Ok k ↔ Forall2 (λ x y, f x = Ok y) l k.
Proof.
  revert k. induction l as [|x l IH]; intros k; cbn [mapM].
  - split; [intros [= <-]; constructor|by intros ->%Forall2_nil_inv_l].
  - split.
    + destruct (f x) as [y| |] eqn:Hx; cbn; [|done..].
      destruct (mapM f l) as [k'| |]; cbn; [|done..].
      intros [= <-]. constructor; [done|by apply IH].
    + intros (y & k' & Hx & Hl & ->)%Forall2_cons_inv_l.
      rewrite Hx. cbn. apply IH in Hl as ->. done.
Qed.

(** [str] over the segments from left to right: every segment is converted,
    or the first unicode segment with a character above 127 raises. *)
Lemma mapM_py_str (l : list pyval) :
  (Forall str_ok l ∧ ∃ k, mapM py_str l = Ok k) ∨
  (¬ Forall str_ok l ∧ mapM py_str l = Raise UnicodeEncodeError).
Proof.
  induction l as [|v l IH]; [left; split; [constructor|by eexists]|].
  cbn [mapM]. destruct (decide (str_ok v)) as [Hv|Hv].
  - assert (∃ s, py_str v = Ok s) as [s ->].
    { destruct v as [s|z|s]; cbn in *; eauto.
      destruct (is_ascii s); [eauto|done]. }
    cbn. destruct IH as [[Hl [k ->]]|[Hl ->]].
    + left. split; [by constructor|by eexists].
    + right. split; [|done]. by intros [_ ?]%Forall_cons.
  - right. split; [by intros [? _]%Forall_cons|].
    destruct v as [s|z|s]; cbn in *; try done.
    by destruct (is_ascii s).
Qed.

Lemma py_str_nonempty (v : pyval) (s : string) :
  not_empty v → py_str v = Ok s → s ≠ "".
Proof.
  intros [Hb Hu]. destruct v as [b|z|u]; cbn.
  - intros [= <-]. congruence.
  - intros [= <-]. by destruct (Z.to_int z) as [[]|[]].
  - destruct (is_ascii u); [|done]. intros [= <-]. congruence.
Qed.

Lemma Node_init_Ok {C} text (children : list C) label_in title node_type
    source_xml n :
  Node_init text children label_in title node_type source_xml = Ok n ↔
  ∃ lb, mapM py_str (filter not_empty label_in) = Ok lb ∧
        n = mkNode text children lb
              (t ← title; if decide (t = "") then None else Some t)
              node_type source_xml None.
Proof.
  unfold Node_init. destruct (mapM py_str _) as [lb| |]; cbn.
  - split; [intros [= <-]; eauto|by intros (? & [= <-] & ->)].
  - split; [done|by intros (? & ? & _)].
  - split; [done|by intros (? & ? & _)].
Qed.

Lemma Node_init_invariant {C} text (children : list C) label_in title node_type
    source_xml n :
  Node_init text children label_in title node_type source_xml = Ok n →
  init_invariant n.
Proof.
  intros (lb & Hlb%mapM_Ok & ->)%Node_init_Ok. split; cbn.
  - assert (Forall not_empty (filter not_empty label_in)) as Hne
      by (apply Forall_forall; by intros v [? _]%list_elem_of_filter).
    induction Hlb as [|v s l k Hv _ IH]; [done|].
    apply Forall_cons in Hne as [Hne1 Hne]. constructor; [|by apply IH].
    by eapply py_str_nonempty.
  - destruct title as [t|]; simpl; [|done]. by case_decide; [|congruence].
Qed.

Lemma filter_segments (segments : list string) :
  mapM py_str (filter not_empty (PStr <$> segments))
  = Ok (filter (λ s, s ≠ "") segments).
Proof.
  apply mapM_Ok.
  induction segments as [|s segments IH]; [constructor|].
  rewrite fmap_cons, !filter_cons.
  destruct (decide (s = "")) as [->|Hs].
  - rewrite decide_False by (intros [H _]; by apply H).
    by rewrite decide_False by (intros H; by apply H).
  - rewrite decide_True by (split; congruence). rewrite decide_True by done.
    by constructor.
Qed.

(** The constructor on a label of byte strings. *)
Lemma Node_init_bytes {C} text (children : list C) segments title node_type
    source_xml :
  Node_init text children (PStr <$> segments) title node_type source_xml
  = Ok (mkNode text children (filter (λ s, s ≠ "") segments)
          (t ← title; if decide (t = "") then None else Some t)
          node_type source_xml None).
Proof. unfold Node_init. by rewrite filter_segments. Qed.

(** A node as the constructor leaves it is rebuilt by the constructor from
    its own attributes. *)
Lemma Node_init_fixed {C D} (f : NodeOf C) (cs : list D) :
  init_invariant f →
  Node_init (text f) cs (PStr <$> label f) (title f) (node_type f) None
  = Ok (mkNode (text f) cs (label f) (title f) (node_type f) None None).
Proof.
  intros [Hl Ht]. rewrite Node_init_bytes. do 2 f_equal.
  - apply filter_all. intros s Hs. rewrite Forall_forall in Hl. by apply Hl.
  - destruct (title f) as [t|]; simpl; [|done]. by rewrite decide_False by congruence.
Qed.

End init.

(** C7, as amended.  The constructor does not reject label segments that are
    not strings, or of mixed types, with an InvalidLabel condition: there is
    no such condition.  Segments equal to the empty string are dropped and
    every other segment passes through [str], in order: a byte string is
    kept, an integer becomes its decimal digits, a unicode string without a
    character above 127 keeps its characters.  The label that results holds
    no empty segment.  The only label that makes the constructor fail is one
    on which [str] fails: a unicode segment with a character above 127 raises
    UnicodeEncodeError. *)
Theorem Node_init_coerces_label {C} (text : string) (children : list C)
    (label_in : list pyval) (title : option string) (node_type : string)
    (source_xml : option string) :
  let kept := filter not_empty label_in in
  let call := Node_init text children label_in title node_type source_xml in
  (Forall str_ok kept →
   ∃ n, call = Ok n ∧
        Forall2 (λ l segment, py_str l = Ok segment) kept (label n) ∧
        init_invariant n) ∧
  (¬ Forall str_ok kept → call = Raise UnicodeEncodeError) ∧
  (∀ segments, label_in = PStr <$> segments →
               ∃ n, call = Ok n ∧ label n = filter (λ s, s ≠ "") segments).
Proof.
  cbn zeta. split_and!.
  - intros Hok.
    destruct (mapM_py_str (filter not_empty label_in)) as [[_ [lb Hlb]]|[Hno _]];
      [|done].
    eexists. split; [apply Node_init_Ok; eauto|].
    split; [by apply mapM_Ok|].
    eapply Node_init_invariant. apply Node_init_Ok; eauto.
  - intros Hno.
    destruct (mapM_py_str (filter not_empty label_in)) as [[Hok _]|[_ Hlb]];
      [done|].
    unfold Node_init. by rewrite Hlb.
  - intros segments ->. rewrite Node_init_bytes. by eexists.
Qed.

(** C7, as stated, fails: a label with an integer among its segments is
    accepted, and the integer silently becomes a string. *)
Lemma Node_init_accepts_integer_segment :
  ∃ n : NodeOf Node,
    Node_init "text" [] [PStr "1005"; PInt 2; PStr ""; PStr "a"]
      None REGTEXT None = Ok n ∧
    label n = ["1005"; "2"; "a"].
Proof. eexists. split; reflexivity. Qed.

(** A unicode segment with the section sign makes the constructor raise. *)
Example Node_init_raises_on_unicode_sign :
  Node_init (C:=Node) "text" [] [PStr "1005"; PUni (String "167" "")]
    None REGTEXT None
  = Raise UnicodeEncodeError.
Proof. reflexivity. Qed.
(** ** Encoding and decoding *)

Section json_facts.

Lemma mapM_Done {A B} (f : A → outcome B) (l : list A) (k : list B) :
  mapM f l = Done k ↔ Forall2 (λ x y, f x = Done y) l k.
Proof.
  revert k. induction l as [|x l IH]; intros k; cbn [mapM].
  - split; [intros [= <-]; constructor|by intros ->%Forall2_nil_inv_l].
  - split.
    + destruct (f x) as [y| |] eqn:Hx; cbn; [|done..].
      destruct (mapM f l) as [k'| |]; cbn; [|done..].
      intros [= <-]. constructor; [done|by apply IH].
    + intros (y & k' & Hx & Hl & ->)%Forall2_cons_inv_l.
      rewrite Hx. cbn. apply IH in Hl as ->. done.
Qed.

(** The object [default] returns: the four required keys, and [title] when
    the node has one. *)
Lemma NodeEncoder_default_shape (enc : Node → json) (f : NodeOf Node) :
  NodeEncoder_default enc f =
    [("text", JStr (text f));
     ("children", JArr (enc <$> children f));
     ("label", JArr (JBytes <$> label f))]
    ++ match title f with
       | Some t => [("title", JStr t)]
       | None => []
       end
    ++ [("node_type", JStr (node_type f))].
Proof.
  destruct f as [tx cs lb [ti|] nt [sx|] [tt|]]; reflexivity.
Qed.

(** The UTF-8 codec keeps ASCII strings as they are. *)
Lemma utf8_decode_ascii (s : string) : is_ascii s → utf8_decode s = Done s.
Proof.
  induction s as [|b s IH]; [done|]. cbn [is_ascii utf8_decode].
  intros [Hb Hs]%andb_True. apply Is_true_true in Hb. rewrite Hb.
  by rewrite IH.
Qed.

Lemma mapM_reread_bytes (l : list string) :
  forallb is_ascii l → mapM reread (JBytes <$> l) = Done (JStr <$> l).
Proof.
  intros Hl%forallb_True. apply mapM_Done.
  induction Hl as [|s l Hs _ IH]; constructor; [|done].
  cbn [reread]. by rewrite utf8_decode_ascii.
Qed.

Lemma mapM_decode_strings (l : list string) :
  mapM decode (JStr <$> l) = Done (JStr <$> l).
Proof. apply mapM_Done. induction l; constructor; done. Qed.

Lemma mapM_fmap_Some {A B} (f : A → B) (read : B → option A) (l : list A) :
  (∀ x, read (f x) = Some x) → mapM read (f <$> l) = Some l.
Proof.
  intros H. apply mapM_Some. induction l as [|x l IH]; constructor; [apply H|done].
Qed.

Lemma as_list_nodes (cs : list Node) :
  as_list as_node (JArr (JNode <$> cs)) = Some cs.
Proof. by apply (mapM_fmap_Some JNode as_node). Qed.

Lemma as_list_segments (lb : list string) :
  as_list as_segment (JArr (JStr <$> lb)) = Some (PUni <$> lb).
Proof.
  simpl. apply mapM_Some. induction lb; constructor; done.
Qed.

(** [str] on the unicode segments the parser returns, when they are
    ASCII. *)
Lemma unicode_segments (segments : list string) :
  forallb is_ascii segments →
  mapM py_str (filter not_empty (PUni <$> segments))
  = Ok (filter (λ s, s ≠ "") segments).
Proof.
  intros Hl%forallb_True. apply mapM_Ok.
  induction Hl as [|s segments Hs _ IH]; [constructor|].
  rewrite fmap_cons, !filter_cons.
  destruct (decide (s = "")) as [->|Hne].
  - rewrite decide_False by (intros [_ H]; by apply H).
    by rewrite decide_False by (intros H; by apply H).
  - rewrite decide_True by (split; congruence). rewrite decide_True by done.
    constructor; [|done]. cbn. by apply Is_true_true in Hs as ->.
Qed.

Lemma Node_init_unicode {C} text (children : list C) segments title node_type
    source_xml :
  forallb is_ascii segments →
  Node_init text children (PUni <$> segments) title node_type source_xml
  = Node_init text children (PStr <$> segments) title node_type source_xml.
Proof.
  intros Hl. unfold Node_init. by rewrite unicode_segments, filter_segments.
Qed.

(** The hook on an object of the shape the parser reads back from what the
    encoder wrote. *)
Lemma node_decode_hook_shape text (cs : list Node) lb (ti : option string) nt :
  node_decode_hook
    ([("text", JStr text);
      ("children", JArr (JNode <$> cs));
      ("label", JArr (JStr <$> lb))]
     ++ match ti with
        | Some t => [("title", JStr t)]
        | None => []
        end
     ++ [("node_type", JStr nt)])
  = raised (Node_init text cs (PUni <$> lb) ti nt None)
      ≫= λ n, Done (JNode (Tree n)).
Proof.
  set (d := _ ++ _).
  assert (required_keys ⊆ keys d) as Hkeys
    by (subst d; destruct ti; apply (bool_decide_unpack _); by vm_compute).
  assert (item "text" d = Some (JStr text)) as E1 by reflexivity.
  assert (item "children" d = Some (JArr (JNode <$> cs))) as E2 by reflexivity.
  assert (item "label" d = Some (JArr (JStr <$> lb))) as E3 by reflexivity.
  assert (as_title (item "title" d) = Some ti) as E4 by (by destruct ti).
  assert (item "node_type" d = Some (JStr nt)) as E5 by (by destruct ti).
  unfold node_decode_hook. rewrite decide_True by done.
  rewrite E1, E2, E3, E4, E5. cbn [mbind option_bind as_text].
  rewrite as_list_nodes, as_list_segments. done.
Qed.

(** What the parser reads back from the encoding of a node, given what it
    reads back from the encodings of the children. *)
Lemma dumps_Tree (f : NodeOf Node) (vs : list json) :
  forallb is_ascii (label f) →
  Forall2 (λ c v, dumps c = Done v) (children f) vs →
  dumps (Tree f) =
    Done (JObj ([("text", JStr (text f));
                 ("children", JArr vs);
                 ("label", JArr (JStr <$> label f))]
                ++ match title f with
                   | Some t => [("title", JStr t)]
                   | None => []
                   end
                ++ [("node_type", JStr (node_type f))])).
Proof.
  intros Hl Hvs. unfold dumps. cbn [encode reread].
  rewrite NodeEncoder_default_shape.
  assert (mapM reread (encode <$> children f) = Done vs) as Hcs.
  { apply mapM_Done. by apply Forall2_fmap_l. }
  destruct (title f) as [ti|]; cbn [app mapM reread];
    rewrite Hcs, (mapM_reread_bytes _ Hl); reflexivity.
Qed.

Lemma decode_Tree text (vs : list json) (cs : list Node) lb ti nt :
  Forall2 (λ v c, decode v = Done (JNode c)) vs cs →
  decode (JObj ([("text", JStr text);
                 ("children", JArr vs);
                 ("label", JArr (JStr <$> lb))]
                ++ match ti with
                   | Some t => [("title", JStr t)]
                   | None => []
                   end
                ++ [("node_type", JStr nt)]))
  = raised (Node_init text cs (PUni <$> lb) ti nt None)
      ≫= λ n, Done (JNode (Tree n)).
Proof.
  intros Hvs. rewrite <-node_decode_hook_shape.
  assert (mapM decode vs = Done (JNode <$> cs)) as Hcs.
  { apply mapM_Done. by apply Forall2_fmap_r. }
  destruct ti as [t|]; cbn [app mapM decode];
    rewrite Hcs, mapM_decode_strings; reflexivity.
Qed.

Lemma ascii_labels_unfold (f : NodeOf Node) :
  ascii_labels (Tree f) →
  forallb is_ascii (label f) ∧ Forall (λ c, ascii_labels c) (children f).
Proof.
  cbn [ascii_labels]. intros [? ?%forallb_True]%andb_True. done.
Qed.

(** Decoding what the encoder wrote gives the node back, without the
    attributes the encoder leaves out. *)
Lemma decode_encode (n : Node) :
  constructed n → ascii_labels n →
  ∃ v, dumps n = Done v ∧ decode v = Done (JNode (fields_of true n)).
Proof.
  induction n as [f IH] using Node_ind'.
  intros [Hinv Hcs]%constructed_unfold [Hl Has]%ascii_labels_unfold.
  assert (∃ vs, Forall2 (λ c v, dumps c = Done v) (children f) vs ∧
                Forall2 (λ v c, decode v = Done (JNode c)) vs
                        (fields_of true <$> children f))
    as (vs & Hdump & Hdec).
  { clear Hinv Hl. induction IH as [|c cs Hc _ IHcs]; [by exists []|].
    apply Forall_cons in Hcs as [Hc1 Hcs]. apply Forall_cons in Has as [Ha1 Has].
    destruct (Hc Hc1 Ha1) as (v & Hv & Hd).
    destruct (IHcs Hcs Has) as (vs & Hvs & Hds).
    exists (v :: vs). rewrite fmap_cons. split; by constructor. }
  eexists. split; [by apply dumps_Tree|].
  rewrite (decode_Tree _ _ _ _ _ _ Hdec).
  rewrite Node_init_unicode by done.
  by rewrite (Node_init_fixed f (fields_of true <$> children f) Hinv).
Qed.

Lemma encode_keys (n : Node) :
  ∃ members,
    encode n = JObj members ∧
    keys members =
      ["text"; "children"; "label"]
      ++ (if title n is Some _ then ["title"] else []) ++ ["node_type"].
Proof.
  destruct n as [f]. eexists. split; [reflexivity|].
  rewrite NodeEncoder_default_shape. cbn [fields]. by destruct (title f).
Qed.

Lemma node_decode_hook_other (d : list (string * json)) :
  ¬ required_keys ⊆ keys d → node_decode_hook d = Done (JObj d).
Proof. intros H. unfold node_decode_hook. by rewrite decide_False. Qed.

End json_facts.

(** C8, as amended.  Encoding a node whose label segments are ASCII (a node
    as the constructor leaves nodes) to the canonical shape and decoding
    that shape with the hook gives a node with the same text, children,
    label, node_type and title.  The encoded object holds the keys text,
    children, label and node_type, and the key title exactly when the node
    has a title: a node without title has no such key.  The hook returns
    unchanged any object that lacks one of the four required keys. *)
Theorem encode_decode_roundtrip (n : Node) (d : list (string * json)) :
  (constructed n → ascii_labels n →
   dumps n ≫= decode = Done (JNode (fields_of true n))) ∧
  (∃ members,
     encode n = JObj members ∧
     (title n = None → "title" ∉ keys members) ∧
     keys members =
       ["text"; "children"; "label"]
       ++ (if title n is Some _ then ["title"] else []) ++ ["node_type"]) ∧
  (¬ required_keys ⊆ keys d → node_decode_hook d = Done (JObj d)).
Proof.
  split_and!.
  - intros Hc Ha. destruct (decode_encode n Hc Ha) as (v & -> & Hv). done.
  - destruct (encode_keys n) as (members & Henc & Hkeys).
    exists members. split_and!; [done| |done].
    intros Hnone. rewrite Hkeys, Hnone. cbn [app].
    intros Hin. repeat (apply elem_of_cons in Hin as [Hin|Hin]; [done|]).
    by apply elem_of_nil in Hin.
  - apply node_decode_hook_other.
Qed.

(** Part 1005 through the encoder and back, and an object with two of the
    four keys through the hook. *)
Lemma encode_decode_roundtrip_part_1005 :
  dumps part_1005 ≫= decode = Done (JNode (fields_of true part_1005)) ∧
  node_decode_hook [("text", JStr "x"); ("children", JArr [])]
  = Done (JObj [("text", JStr "x"); ("children", JArr [])]).
Proof.
  destruct (encode_decode_roundtrip part_1005
              [("text", JStr "x"); ("children", JArr [])]) as (Hrt & _ & Hhook).
  split.
  - apply Hrt; exact I.
  - apply Hhook. apply (bool_decide_unpack _). by vm_compute.
Defined.

(** C8, as stated, fails: a paragraph whose label holds the section sign is
    a node as the constructor leaves nodes; the encoder writes the sign as
    a character above 127, the parser hands the hook a unicode segment, and
    [str] in the constructor raises. *)
Lemma encode_decode_fails_on_section_sign :
  constructed par_sign ∧
  label (fields par_sign) = ["1005"; section_sign] ∧
  dumps par_sign ≫= decode = Fails UnicodeEncodeError.
Proof. split_and!; [exact I|reflexivity..]. Qed.

(** A label with a byte that is no UTF-8 text makes the encoder raise. *)
Example encode_fails_on_stray_byte :
  dumps par_stray = Fails UnicodeDecodeError.
Proof. reflexivity. Qed.

(** ** walk, find and join_text *)

Section walking.

Lemma preorder_unfold (f : NodeOf Node) :
  preorder (Tree f) = Tree f :: (children f ≫= preorder).
Proof. reflexivity. Qed.

Lemma walk_unfold {R} (fn : Node → option R) (f : NodeOf Node) :
  walk fn (Tree f) = option_list (fn (Tree f)) ++ (children f ≫= walk fn).
Proof. cbn [walk]. by destruct (fn (Tree f)). Qed.

(** The answers of a walk are the answers, other than [None], of the
    callback on the nodes in pre-order. *)
Lemma walk_preorder {R} (fn : Node → option R) (t : Node) :
  walk fn t = omap fn (preorder t).
Proof.
  induction t as [f IH] using Node_ind'.
  rewrite walk_unfold, preorder_unfold.
  assert (children f ≫= walk fn = omap fn (children f ≫= preorder)) as ->.
  { induction IH as [|c cs Hc _ IHcs]; [done|].
    rewrite !bind_cons, omap_app. by rewrite Hc, IHcs. }
  cbn. by destruct (fn (Tree f)).
Qed.

Lemma walk_state_visit {S R} (fn : Node → S → option R * S) (t : Node) :
  ∀ acc,
    foldl (visit fn) acc (preorder t) =
      (acc.1 ++ (walk_state fn t acc.2).1, (walk_state fn t acc.2).2).
Proof.
  induction t as [f IH] using Node_ind'. intros [rs s].
  rewrite preorder_unfold. cbn [foldl walk_state fst snd].
  unfold visit at 2. cbn [fst snd]. destruct (fn (Tree f) s) as [r s1].
  replace (match r with Some result => [result] | None => [] end)
    with (option_list r) by (by destruct r).
  generalize (option_list r). intros first. revert rs first s1.
  induction IH as [|c cs Hc _ IHcs]; intros rs first s1.
  - done.
  - rewrite bind_cons, foldl_app, Hc. cbn [foldl fst snd].
    destruct (walk_state fn c s1) as [more s2]. cbn [fst snd].
    rewrite <-app_assoc. apply IHcs.
Qed.

(** [''.join(bits)] *)
Lemma concat_empty_cons (x : string) (xs : list string) :
  String.concat "" (x :: xs) = x +:+ String.concat "" xs.
Proof.
  destruct xs as [|y ys]; [by rewrite append_nil_r|].
  cbn [String.concat]. by rewrite append_nil_l.
Qed.

Lemma concat_empty_app (xs ys : list string) :
  String.concat "" (xs ++ ys) = String.concat "" xs +:+ String.concat "" ys.
Proof.
  induction xs as [|x xs IH]; [by rewrite append_nil_l|].
  rewrite <-app_comm_cons, !concat_empty_cons, IH. by rewrite append_assoc.
Qed.

(** The callback of [join_text] adds the text of each node to [bits] and
    answers nothing. *)
Lemma visit_bits (l : list Node) : ∀ (rs : list unit) (bits : list string),
  foldl (visit (λ n bits, (None, bits ++ [text n]))) (rs, bits) l
  = (rs, bits ++ ((λ n : Node, text n) <$> l)).
Proof.
  induction l as [|n l IH]; intros rs bits.
  - by rewrite app_nil_r.
  - cbn [foldl]. unfold visit at 2. cbn [fst snd option_list].
    rewrite app_nil_r, IH, <-app_assoc. done.
Qed.

Lemma join_text_preorder (t : Node) :
  join_text t = String.concat "" ((λ n : Node, text n) <$> preorder t).
Proof.
  unfold join_text.
  pose proof (walk_state_visit
    (λ (n : Node) (bits : list string), (@None unit, bits ++ [text n]))
    t ([], [])) as E.
  rewrite visit_bits in E. cbn [fst snd] in E.
  by injection E as _ <-.
Qed.

(** The first answer of [check] on a list of nodes. *)
Lemma head_omap_Some (P : Node → Prop) `{!∀ n, Decision (P n)}
    (l : list Node) (n : Node) :
  head (omap (λ m, if decide (P m) then Some m else None) l) = Some n ↔
  ∃ before after,
    l = before ++ n :: after ∧ P n ∧ Forall (λ m, ¬ P m) before.
Proof.
  induction l as [|m l IH].
  - split; [done|]. intros ([|??] & ? & ? & _); done.
  - cbn [omap list_omap]. destruct (decide (P m)) as [Hm|Hm].
    + cbn [head]. split.
      * intros [= ->]. by exists [], l.
      * intros ([|m' before] & after & E & Hn & Hb).
        -- by injection E as ->.
        -- injection E as -> _. by apply Forall_cons in Hb as [? _].
    + rewrite IH. split.
      * intros (before & after & -> & Hn & Hb).
        exists (m :: before), after. split_and!; [done..|].
        by apply Forall_cons.
      * intros ([|m' before] & after & E & Hn & Hb).
        -- injection E as -> _. done.
        -- injection E as -> ->. apply Forall_cons in Hb as [_ Hb].
           by exists before, after.
Qed.

Lemma head_omap_None (P : Node → Prop) `{!∀ n, Decision (P n)}
    (l : list Node) :
  head (omap (λ m, if decide (P m) then Some m else None) l) = None ↔
  Forall (λ m, ¬ P m) l.
Proof.
  induction l as [|m l IH]; [done|].
  cbn [omap list_omap]. destruct (decide (P m)) as [Hm|Hm].
  - cbn [head]. split; [done|]. by intros [? _]%Forall_cons.
  - rewrite IH. rewrite Forall_cons. tauto.
Qed.

End walking.

(** X1.  [walk] with a callback that has effects: the callback runs on every node
    of the tree once, in pre-order, each call on the state the call before
    left, and the answers that are not [None] are returned in that order. *)
Theorem walk_state_preorder {S R} (fn : Node → S → option R * S) (t : Node)
    (s : S) :
  walk_state fn t s = foldl (visit fn) ([], s) (preorder t).
Proof.
  rewrite walk_state_visit. cbn [fst snd]. by destruct (walk_state fn t s).
Qed.

(** X2.  [walk] with a callback without effects returns the answers of the
    callback on the nodes in pre-order, leaving out the [None]s, and does
    not touch the state. *)
Theorem walk_answers_in_preorder {R} (fn : Node → option R) (t : Node) :
  walk fn t = omap fn (preorder t) ∧
  ∀ {S} (s : S), walk_state (λ n s, (fn n, s)) t s = (walk fn t, s).
Proof.
  split; [apply walk_preorder|]. intros S s.
  rewrite walk_preorder.
  assert (∀ l acc, foldl (visit (λ (n : Node) (s : S), (fn n, s))) (acc, s) l
                   = (acc ++ omap fn l, s)) as Hfold.
  { induction l as [|n l IH]; intros acc; [by rewrite app_nil_r|].
    cbn [foldl]. unfold visit at 2. cbn [fst snd]. rewrite IH.
    cbn. destruct (fn n); cbn; by rewrite <-?app_assoc, ?app_nil_r. }
  pose proof (walk_state_visit (λ (n : Node) (s : S), (fn n, s)) t ([], s)) as E.
  rewrite Hfold in E. cbn [fst snd app] in E.
  destruct (walk_state _ t s) as [rs s']. cbn [fst snd] in E. congruence.
Qed.

(** X3.  [join_text] returns the texts of the nodes in pre-order, joined: the
    text of the node itself followed by [join_text] of each child, from left
    to right. *)
Theorem join_text_node (f : NodeOf Node) :
  join_text (Tree f) = text f +:+ String.concat "" (join_text <$> children f) ∧
  join_text (Tree f)
  = String.concat "" ((λ n : Node, text n) <$> preorder (Tree f)).
Proof.
  split; [|apply join_text_preorder].
  rewrite join_text_preorder, preorder_unfold, fmap_cons, concat_empty_cons.
  f_equal. induction (children f) as [|c cs IH]; [done|].
  rewrite bind_cons, fmap_app, concat_empty_app, IH, fmap_cons.
  by rewrite concat_empty_cons, join_text_preorder.
Qed.

(** X4.  [find] returns the first node in pre-order whose [label_id] is the
    string asked for, and nothing else. *)
Theorem find_first_in_preorder (root : Node) (lbl : string) (n : Node) :
  find root lbl = Some n ↔
  ∃ before after,
    preorder root = before ++ n :: after ∧ label_id n = lbl ∧
    Forall (λ m : Node, label_id m ≠ lbl) before.
Proof.
  unfold find. rewrite walk_preorder.
  apply (head_omap_Some (λ m : Node, label_id m = lbl)).
Qed.

(** X5.  [find] returns [None] exactly when no node of the tree has the
    [label_id] asked for. *)
Theorem find_none_iff_absent (root : Node) (lbl : string) :
  find root lbl = None ↔ Forall (λ m : Node, label_id m ≠ lbl) (preorder root).
Proof.
  unfold find. rewrite walk_preorder.
  apply (head_omap_None (λ m : Node, label_id m = lbl)).
Qed.

(** [test_walk]: the callback answers with the text except on node 2; the
    results come in pre-order. *)
Example walk_tree_1243 :
  walk (λ n, if decide (text n = "2") then None else Some (text n)) tree_1243
  = ["1"; "4"; "3"].
Proof. reflexivity. Qed.

(** [test_join_text] *)
Example join_text_tree_1243 : join_text tree_1243 = "1243".
Proof. reflexivity. Qed.

(** [test_walk] with the callback of the test, which appends every node it
    is given to [order]. *)
Example walk_state_tree_1243 :
  let fn (n : Node) (order : list Node) :=
    (if decide (text n = "2") then None else Some (text n), order ++ [n]) in
  (walk_state fn tree_1243 []).1 = ["1"; "4"; "3"] ∧
  (λ n : Node, text n) <$> (walk_state fn tree_1243 []).2 = ["1"; "2"; "4"; "3"].
Proof. split; reflexivity. Qed.

(** [test_find]: of two nodes with the label n1 the first in pre-order is
    found. *)
Example find_first_of_two :
  let leaf txt lbl : Node := Tree (Node_ok txt [] [PStr lbl] None REGTEXT None) in
  find (Tree (Node_ok "" [leaf "n2" "n2"; leaf "n5" "n1"; leaf "n3" "n3";
                            leaf "n1" "n1"] [] None REGTEXT None)) "n1"
  = Some (leaf "n5" "n1").
Proof. reflexivity. Qed.


(** ** label_id *)

Section label_ids.

Lemma concat_dash_cons (x : string) (xs : list string) :
  String.concat "-" (x :: xs) =
    x +:+ match xs with
          | [] => ""
          | _ :: _ => String dash (String.concat "-" xs)
          end.
Proof.
  destruct xs as [|y ys]; [by rewrite append_nil_r|].
  cbn [String.concat]. by autorewrite with push_append.
Qed.

Lemma after_segment_concat (xs : list string) :
  after_segment match xs with
                | [] => ""
                | _ :: _ => String dash (String.concat "-" xs)
                end.
Proof. destruct xs; [by left|right; eauto]. Qed.

(** A segment without the separator ends where the separator, or the
    string, does. *)
Lemma dashless_reads_back (x : string) : ∀ y r s,
  dashless x → dashless y → after_segment r → after_segment s →
  x +:+ r = y +:+ s → x = y ∧ r = s.
Proof.
  unfold dashless.
  induction x as [|c x IH]; intros [|d y] r s Hx Hy Hr Hs;
    autorewrite with push_append.
  - done.
  - intros ->. destruct Hr as [?|[r' [= -> _]]]; [done|]. by cbn in Hy.
  - intros <-. destruct Hs as [?|[s' [= -> _]]]; [done|]. by cbn in Hx.
  - intros [= -> E]. cbn in Hx, Hy.
    apply orb_false_iff in Hx as [_ Hx]. apply orb_false_iff in Hy as [_ Hy].
    by destruct (IH y r s Hx Hy Hr Hs E) as [-> ->].
Qed.

Lemma concat_dash_inj (l1 : list string) : ∀ l2,
  Forall dashless l1 → Forall dashless l2 →
  Forall (λ segment, segment ≠ "") l1 → Forall (λ segment, segment ≠ "") l2 →
  String.concat "-" l1 = String.concat "-" l2 → l1 = l2.
Proof.
  induction l1 as [|x xs IH]; intros [|y ys] Hd1 Hd2 Hn1 Hn2.
  - done.
  - rewrite concat_dash_cons. apply Forall_cons in Hn2 as [Hy _].
    destruct y; [done|]. by autorewrite with push_append.
  - rewrite concat_dash_cons. apply Forall_cons in Hn1 as [Hx _].
    destruct x; [done|]. by autorewrite with push_append.
  - rewrite !concat_dash_cons.
    apply Forall_cons in Hd1 as [Hx Hd1]. apply Forall_cons in Hd2 as [Hy Hd2].
    apply Forall_cons in Hn1 as [_ Hn1]. apply Forall_cons in Hn2 as [_ Hn2].
    intros E. apply dashless_reads_back in E as [-> E];
      [|done|done|apply after_segment_concat..].
    f_equal. destruct xs as [|x' xs], ys as [|y' ys]; try done.
    injection E as E. by apply IH.
Qed.

Lemma FrozenNode_label_id_from_node (n : Node) :
  FrozenNode_label_id (from_node n) = label_id n.
Proof. by destruct n. Qed.

End label_ids.

(** X6.  [label_id] tells labels apart when no segment holds the separator: two
    nodes as the constructor leaves them, with no dash in a segment, that
    have one [label_id] have one label. *)
Theorem label_id_inj {C D} (a : NodeOf C) (b : NodeOf D) :
  init_invariant a → init_invariant b →
  Forall dashless (label a) → Forall dashless (label b) →
  label_id a = label_id b → label a = label b.
Proof.
  intros [Ha _] [Hb _] Hda Hdb. by apply concat_dash_inj.
Qed.

(** Two paragraphs of part 1005. *)
Lemma label_id_inj_par_a :
  label_id par_a_parsed = label_id par_a_plain ∧
  label (fields par_a_parsed) = label (fields par_a_plain).
Proof.
  split; [reflexivity|].
  apply (label_id_inj (fields par_a_parsed) (fields par_a_plain)).
  - apply (bool_decide_unpack _). reflexivity.
  - apply (bool_decide_unpack _). reflexivity.
  - apply (bool_decide_unpack _). reflexivity.
  - apply (bool_decide_unpack _). reflexivity.
  - reflexivity.
Defined.

(** A dash inside a segment makes two labels share a [label_id]. *)
Example label_id_dash_collision :
  label_id (sample "a" ["1005-2"]) = label_id (sample "b" ["1005"; "2"]).
Proof. reflexivity. Qed.

(** ** Node.__repr__ and Node.__cmp__ *)

Section repr_lists.
Context {A B : Type} (repr : A → string) (p : A → B).
Context (no_bracket : ∀ x r r', repr x +:+ r ≠ String "]" r').

Lemma repr_items_reads_back (l : list A) :
  Forall (reads_back repr p) l → reads_back (repr_items repr) (fmap p) l.
Proof.
  induction l as [|x l IH]; intros Hall [|y l'] r s; cbn [repr_items];
    autorewrite with push_append; try done.
  - by intros [=].
  - apply Forall_cons in Hall as [Hx Hall]. intros [= E].
    apply Hx in E as [Hxy E]. apply (IH Hall) in E as [Hl E].
    by rewrite !fmap_cons, Hxy, Hl.
Qed.

Lemma repr_list_reads_back (l : list A) :
  Forall (reads_back repr p) l → reads_back (repr_list repr) (fmap p) l.
Proof.
  intros Hall l' r s.
  destruct l as [|x l], l' as [|y l'];
    cbn [repr_list]; autorewrite with push_append; intros [= E];
    try (by subst);
    try (by destruct (no_bracket _ _ _ (eq_sym E)));
    try (by destruct (no_bracket _ _ _ E)).
  apply Forall_cons in Hall as [Hx Hall]. apply Hx in E as [Hxy E].
  apply (repr_items_reads_back _ Hall) in E as [Hl E].
  by rewrite !fmap_cons, Hxy, Hl.
Qed.

Lemma repr_items_ext (g : A → A) (l : list A) :
  Forall (λ x, repr (g x) = repr x) l →
  repr_items repr (g <$> l) = repr_items repr l.
Proof.
  induction 1 as [|x l Hx _ IH]; [done|].
  rewrite fmap_cons. cbn [repr_items]. by rewrite Hx, IH.
Qed.

Lemma repr_list_ext (g : A → A) (l : list A) :
  Forall (λ x, repr (g x) = repr x) l →
  repr_list repr (g <$> l) = repr_list repr l.
Proof.
  intros Hall. destruct l as [|x l]; [done|].
  apply Forall_cons in Hall as [Hx Hall].
  rewrite fmap_cons. cbn [repr_list]. by rewrite Hx, (repr_items_ext g l).
Qed.

End repr_lists.

Section node_repr.

Lemma repr_str_no_bracket (a r r' : string) : repr_str a +:+ r ≠ String "]" r'.
Proof.
  unfold repr_str. autorewrite with push_append. intros [= Hq _].
  by destruct (quote_for_cases a) as [Ha|Ha]; rewrite Ha in Hq.
Qed.

Lemma repr_unicode_reads_back (a : string) : reads_back repr_unicode id a.
Proof.
  intros b r s. unfold repr_unicode. rewrite !append_assoc.
  intros E%append_inv_head. by apply repr_str_reads_back in E.
Qed.

Lemma repr_title_reads_back (a : option string) : reads_back repr_title id a.
Proof.
  intros b r s. destruct a as [a|], b as [b|]; cbn [repr_title].
  - intros E. apply repr_unicode_reads_back in E as [E ->].
    unfold id in E. by subst.
  - unfold repr_unicode. autorewrite with push_append. done.
  - unfold repr_unicode. autorewrite with push_append. done.
  - by intros E%append_inv_head.
Qed.

Lemma Node_repr_no_bracket x r r' : Node_repr x +:+ r ≠ String "]" r'.
Proof. destruct x. cbn [Node_repr]. autorewrite with push_append. done. Qed.

(** The text [repr] prints for a node determines text, label, title and
    node_type of every node of the tree. *)
Lemma Node_repr_reads_back (a : Node) : reads_back Node_repr (fields_of true) a.
Proof.
  induction a as [f IH] using Node_ind'.
  intros [g] r s. cbn [Node_repr fields_of].
  rewrite !append_assoc.
  intros E%append_inv_head.
  apply repr_unicode_reads_back in E as [Ht E%append_inv_head].
  apply (repr_list_reads_back _ _ Node_repr_no_bracket _ IH)
    in E as [Hcs E%append_inv_head].
  apply (repr_list_reads_back repr_str id repr_str_no_bracket) in E
    as [Hl E%append_inv_head];
    [|apply Forall_forall; intros; apply repr_str_reads_back].
  apply repr_title_reads_back in E as [Hti E%append_inv_head].
  apply repr_unicode_reads_back in E as [Hnt E%append_inv_head].
  rewrite !list_fmap_id in Hl. unfold id in *. by rewrite Ht, Hcs, Hl, Hti, Hnt.
Qed.

Lemma Node_repr_fields (a : Node) : Node_repr (fields_of true a) = Node_repr a.
Proof.
  induction a as [f IH] using Node_ind'.
  cbn [Node_repr fields_of text children label title node_type].
  by rewrite (repr_list_ext _ _ _ IH).
Qed.

Lemma Node_eq_repr (a b : Node) :
  Node_eq a b = true ↔ Node_repr a = Node_repr b.
Proof.
  unfold Node_eq, Node_cmp. by rewrite bool_decide_eq_true, py_cmp_zero.
Qed.

End node_repr.

(** X7.  Two trees of nodes are equal for [==] exactly when they have the same
    text, label, title and node_type and, recursively, equal children in the
    same order.  [source_xml] and [tagged_text] play no part. *)
Theorem Node_eq_iff_same_fields (a b : Node) :
  Node_eq a b = true ↔ fields_of true a = fields_of true b.
Proof.
  rewrite Node_eq_repr. split.
  - intros E. destruct (Node_repr_reads_back a b "" "") as [? _]; [|done].
    by rewrite !append_nil_r.
  - intros E. by rewrite <-(Node_repr_fields a), E, Node_repr_fields.
Qed.

(** X8.  Freezing respects equality: trees of nodes that are equal for [==]
    freeze to frozen trees that are equal and have the same hash. *)
Theorem from_node_respects_equality (py_hash : string → Z) (a b : Node) :
  Node_eq a b = true →
  FrozenNode_eq (from_node a) (from_node b) = true ∧
  FrozenNode_hash py_hash (from_node a) = FrozenNode_hash py_hash (from_node b).
Proof.
  intros E%Node_eq_repr.
  assert (fields_of true a = fields_of true b) as Hf.
  { destruct (Node_repr_reads_back a b "" "") as [? _]; [|done].
    by rewrite !append_nil_r. }
  apply fields_of_weaken, from_node_shown in Hf. clear E.
  apply FrozenNode_eq_shown in Hf as Heq. split; [done|].
  unfold FrozenNode_hash. f_equal. by apply FrozenNode_eq_repr.
Qed.

(** A paragraph with and without [source_xml] and [tagged_text]. *)
Lemma from_node_respects_equality_par_a :
  Node_eq par_a_parsed par_a_plain = true ∧
  FrozenNode_eq (from_node par_a_parsed) (from_node par_a_plain) = true ∧
  FrozenNode_hash (λ s, Z.of_nat (String.length s)) (from_node par_a_parsed)
  = FrozenNode_hash (λ s, Z.of_nat (String.length s)) (from_node par_a_plain).
Proof.
  assert (Node_eq par_a_parsed par_a_plain = true) as E by reflexivity.
  split; [exact E|].
  exact (from_node_respects_equality _ par_a_parsed par_a_plain E).
Defined.

(** What [repr] prints for a paragraph. *)
Example Node_repr_par_a :
  Node_repr par_a_plain
  = "Node( text = u'par a', children = [], label = ['1005', '1', 'a'], title = None, node_type = u'regtext')".
Proof. reflexivity. Qed.

(** ** merge_duplicates: further properties *)

Section merge_survivors.
Implicit Types (h : heap) (nodes out : list nat) (L : list string).

(** The two last elements that satisfy [P]. *)
Lemma filter_last_two {A} (P : A → Prop) `{!∀ x, Decision (P x)}
    (l : list A) i j a b :
  i < j → l !! i = Some a → l !! j = Some b → P a → P b →
  (∀ k c, i < k → k ≠ j → l !! k = Some c → ¬ P c) →
  filter P l = filter P (take i l) ++ [a; b] ∧
  filter P (delete j l) = filter P (take i l) ++ [a].
Proof.
  intros Hlt Hi Hj Ha Hb Hno.
  assert (filter P (drop (S j) l) = []) as Hafter.
  { apply filter_none. intros c [m Hm]%list_elem_of_lookup_1.
    rewrite lookup_drop in Hm. apply (Hno (S j + m) c); [lia..|done]. }
  assert (take j l !! i = Some a) as Hi' by (by rewrite lookup_take_lt).
  assert (filter P (take j l) = filter P (take i l) ++ [a]) as Hbefore.
  { rewrite <-(take_drop_middle (take j l) i a Hi').
    rewrite take_take, Nat.min_l by lia.
    rewrite filter_app, filter_cons, decide_True by done.
    replace (filter P (drop (S i) (take j l))) with (@nil A); [done|].
    symmetry. apply filter_none. intros c [m Hm]%list_elem_of_lookup_1.
    rewrite lookup_drop in Hm.
    destruct (decide (S i + m < j)) as [?|?].
    - rewrite lookup_take_lt in Hm by done.
      apply (Hno (S i + m) c); [lia..|done].
    - rewrite lookup_take_ge in Hm by lia. done. }
  split.
  - rewrite <-(take_drop_middle l j b Hj) at 1.
    rewrite filter_app, filter_cons, decide_True by done.
    rewrite Hafter, Hbefore, <-app_assoc. done.
  - rewrite delete_take_drop, filter_app, Hafter, Hbefore, app_nil_r. done.
Qed.

(** The pair the scan ends on holds the two last nodes of its label. *)
Lemma find_pair_last_two h nodes i j :
  find_pair h nodes = Some (i, j) →
  ∃ lhs rhs,
    i < j ∧ nodes !! i = Some lhs ∧ nodes !! j = Some rhs ∧
    label (h !!! rhs) = label (h !!! lhs) ∧
    labelled h (label (h !!! lhs)) nodes
      = labelled h (label (h !!! lhs)) (take i nodes) ++ [lhs; rhs] ∧
    labelled h (label (h !!! lhs)) (delete j nodes)
      = labelled h (label (h !!! lhs)) (take i nodes) ++ [lhs].
Proof.
  intros Hf. destruct (find_pair_Some _ _ _ _ Hf) as [_ Hmax].
  destruct (merge_step_found _ _ _ _ Hf) as (lhs & rhs & Hlt & Hi & Hj & Hl & _).
  exists lhs, rhs. split_and!; [done..| |].
  all: apply (filter_last_two (λ a, label (h !!! a) = label (h !!! lhs))
                nodes i j lhs rhs); [done..|].
  all: intros k c Hik Hkj Hk Hc.
  all: destruct (decide (k < j)) as [?|?].
  1,3: destruct (Hmax k j) as [?|[? ?]]; [|lia..]; split; [done|];
       exists (label (h !!! lhs));
       by rewrite (labels_lookup _ _ _ _ Hk), (labels_lookup _ _ _ _ Hj), Hc, Hl.
  all: destruct (Hmax i k) as [?|[? ?]]; [|lia..]; split; [lia|];
       exists (label (h !!! lhs));
       by rewrite (labels_lookup _ _ _ _ Hk), (labels_lookup _ _ _ _ Hi), Hc.
Qed.

(** A merge step leaves the nodes of every other label where they are. *)
Lemma labelled_delete_other h L nodes j rhs :
  nodes !! j = Some rhs → label (h !!! rhs) ≠ L →
  labelled h L (delete j nodes) = labelled h L nodes.
Proof.
  intros Hj Hne. rewrite labelled_delete, (labelled_split h L nodes j rhs) by done.
  by rewrite decide_False.
Qed.

(** Of the nodes with one label the first one stays. *)
Lemma merge_duplicates_fuel_first L fuel : ∀ h nodes h' out,
  merge_duplicates_fuel fuel h nodes = Ok (h', out) →
  labelled h' L out = take 1 (labelled h L nodes).
Proof.
  induction fuel as [|fuel IH]; intros h nodes h' out;
    rewrite merge_duplicates_fuel_unfold;
    destruct (find_pair h nodes) as [[i j]|] eqn:Hf; intros Hrun;
    try discriminate.
  1,3: injection Hrun as <- <-; apply find_pair_None in Hf;
       apply (labelled_distinct h L) in Hf;
       by destruct (labelled h L nodes) as [|? [|? ?]]; simpl in *; try lia.
  destruct (find_pair_last_two _ _ _ _ Hf)
    as (lhs & rhs & Hlt & Hi & Hj & Hl & Hall & Hdel).
  apply merge_step_found in Hf as (lhs' & rhs' & _ & Hi' & Hj' & _ & Hstep).
  assert (lhs' = lhs ∧ rhs' = rhs) as [-> ->] by (split; congruence).
  clear Hi' Hj'. rewrite Hstep in Hrun. cbn in Hrun.
  rewrite (IH _ _ _ _ Hrun).
  rewrite (labelled_attrs _ _ _ _ (extend_children_attrs h lhs rhs)).
  destruct (decide (label (h !!! lhs) = L)) as [<-|HL].
  - rewrite Hall, Hdel.
    by destruct (labelled h (label (h !!! lhs)) (take i nodes)).
  - rewrite (labelled_delete_other h L nodes j rhs); [done..|congruence].
Qed.

(** In a list of distinct objects, the first node of a label ends up with
    the children of all the nodes of that label, in the order of the list. *)
Lemma merge_duplicates_fuel_children L fuel : ∀ h nodes h' out,
  merge_duplicates_fuel fuel h nodes = Ok (h', out) →
  NoDup nodes →
  ∀ x, head (labelled h L nodes) = Some x →
       children (h' !!! x) = labelled h L nodes ≫= (λ y, children (h !!! y)).
Proof.
  induction fuel as [|fuel IH]; intros h nodes h' out;
    rewrite merge_duplicates_fuel_unfold;
    destruct (find_pair h nodes) as [[i j]|] eqn:Hf; intros Hrun Hnd x Hx;
    try discriminate.
  1,3: injection Hrun as <- <-; apply find_pair_None in Hf;
       apply (labelled_distinct h L) in Hf;
       destruct (labelled h L nodes) as [|? [|? ?]]; simpl in *; try lia;
       try done; simplify_eq; by rewrite app_nil_r.
  destruct (find_pair_last_two _ _ _ _ Hf)
    as (lhs & rhs & Hlt & Hi & Hj & Hl & Hall & Hdel).
  apply merge_step_found in Hf as (lhs' & rhs' & _ & Hi' & Hj' & _ & Hstep).
  assert (lhs' = lhs ∧ rhs' = rhs) as [-> ->] by (split; congruence).
  clear Hi' Hj'. rewrite Hstep in Hrun. cbn in Hrun.
  pose proof (extend_children_attrs h lhs rhs) as Hattrs.
  assert (NoDup (delete j nodes)) as Hnd'
    by (eapply sublist_NoDup; [done|apply sublist_delete]).
  specialize (IH _ _ _ _ Hrun Hnd' x).
  rewrite (labelled_attrs _ _ _ _ Hattrs) in IH.
  destruct (decide (label (h !!! lhs) = L)) as [<-|HL].
  - rewrite Hdel in IH. rewrite Hall in Hx |- *.
    rewrite IH by (by destruct (labelled h _ (take i nodes))).
    rewrite !bind_app. f_equal.
    + apply Forall_bind_ext, Forall_forall. intros y Hy.
      rewrite extend_children_lookup, decide_False; [done|]. intros <-.
      apply list_elem_of_filter in Hy as [_ [k Hk]%list_elem_of_lookup_1].
      pose proof (lookup_lt_Some _ _ _ Hk) as Hlen.
      rewrite length_take in Hlen.
      rewrite lookup_take_lt in Hk by lia.
      pose proof (NoDup_lookup _ _ _ _ Hnd Hi Hk). lia.
    + cbn. rewrite extend_children_lookup, decide_True by done.
      cbn. by rewrite !app_nil_r.
  - rewrite (labelled_delete_other h L nodes j rhs) in IH; [|done|congruence].
    rewrite IH by done. apply Forall_bind_ext, Forall_forall. intros y Hy.
    rewrite extend_children_lookup, decide_False; [done|]. intros <-.
    by apply list_elem_of_filter in Hy as [? _].
Qed.

End merge_survivors.

(** X9.  [merge_duplicates] returns its input as it is, store and list, exactly
    when no two nodes of the list carry equal labels. *)
Theorem merge_duplicates_unchanged_iff_distinct (h : heap) (nodes : list nat) :
  merge_duplicates h nodes = Ok (h, nodes) ↔ NoDup (labels h nodes).
Proof.
  split; [|apply merge_duplicates_distinct].
  intros Hrun. apply find_pair_None.
  destruct (find_pair h nodes) as [[i j]|] eqn:Hf; [exfalso|done].
  rewrite (merge_duplicates_recurse _ _ _ _ Hf) in Hrun.
  apply merge_step_found in Hf as (lhs & rhs & _ & _ & Hj & _ & Hstep).
  rewrite Hstep in Hrun. cbn in Hrun.
  destruct (merge_duplicates_fuel_ok (length (delete j nodes))
              (extend_children h lhs rhs) (delete j nodes))
    as (h' & out & Hrun' & _ & Hsub & _); [done|].
  unfold merge_duplicates in Hrun. rewrite Hrun' in Hrun.
  injection Hrun as _ ->. apply sublist_length in Hsub.
  rewrite length_delete in Hsub by eauto.
  apply lookup_lt_Some in Hj. lia.
Qed.

(** X10.  [merge_duplicates] is idempotent: on its own result it changes
    nothing. *)
Theorem merge_duplicates_idempotent (h : heap) (nodes : list nat) :
  ∃ h' out,
    merge_duplicates h nodes = Ok (h', out) ∧
    merge_duplicates h' out = Ok (h', out).
Proof.
  destruct (merge_duplicates_fuel_ok (length nodes) h nodes)
    as (h' & out & Hrun & _ & _ & Hnd & _); [done|].
  exists h', out. split; [done|]. by apply merge_duplicates_distinct.
Qed.

(** X11.  Of the nodes that carry one label, [merge_duplicates] keeps the first
    and drops the others; the nodes kept stay in the order of the input. *)
Theorem merge_duplicates_keeps_first (h : heap) (nodes : list nat) :
  ∃ h' out,
    merge_duplicates h nodes = Ok (h', out) ∧
    out `sublist_of` nodes ∧
    ∀ L, labelled h' L out = take 1 (labelled h L nodes).
Proof.
  destruct (merge_duplicates_fuel_ok (length nodes) h nodes)
    as (h' & out & Hrun & _ & Hsub & _); [done|].
  exists h', out. split_and!; [done..|].
  intros L. by apply (merge_duplicates_fuel_first L (length nodes)).
Qed.

(** X12.  In a list of distinct node objects, every node of the result ends up
    with the children of all the nodes of the input that carry its label,
    in the order of the input. *)
Theorem merge_duplicates_collects_children (h : heap) (nodes : list nat) :
  NoDup nodes →
  ∃ h' out,
    merge_duplicates h nodes = Ok (h', out) ∧
    ∀ x, x ∈ out →
         children (h' !!! x)
         = labelled h (label (h !!! x)) nodes ≫= (λ y, children (h !!! y)).
Proof.
  intros Hnd.
  destruct (merge_duplicates_fuel_ok (length nodes) h nodes)
    as (h' & out & Hrun & Hattrs & _); [done|].
  exists h', out. split; [done|]. intros x Hx.
  apply (merge_duplicates_fuel_children _ _ _ _ _ _ Hrun Hnd).
  pose proof (merge_duplicates_fuel_first (label (h !!! x)) _ _ _ _ _ Hrun) as E.
  assert (x ∈ labelled h' (label (h !!! x)) out) as Hin.
  { apply list_elem_of_filter. split; [by apply attrs_kept_label|done]. }
  rewrite E in Hin. destruct (labelled h _ nodes) as [|x' ?].
  - by apply elem_of_nil in Hin.
  - cbn in Hin. by apply list_elem_of_singleton in Hin as ->.
Qed.

(** On labels A, B, B, A: the two nodes kept hold the children of both
    nodes of their label. *)
Lemma merge_duplicates_collects_children_abba :
  ∃ h' out,
    merge_duplicates abba [0; 1; 2; 3] = Ok (h', out) ∧
    ∀ x, x ∈ out →
         children (h' !!! x)
         = labelled abba (label (abba !!! x)) [0; 1; 2; 3]
             ≫= (λ y, children (abba !!! y)).
Proof.
  apply (merge_duplicates_collects_children abba [0; 1; 2; 3]).
  apply (bool_decide_unpack _). reflexivity.
Defined.

(** One object twice in the list: [lhs.children.extend(rhs.children)]
    doubles its children. *)
Example merge_duplicates_same_object :
  ∃ h', merge_duplicates twins [0; 0] = Ok (h', [0]) ∧
        children (h' !!! 0) = [10; 11; 10; 11].
Proof. eexists. split; [by vm_compute | by vm_compute]. Qed.

(** Two nodes with one label become one node that holds the children of
    both. *)
Example merge_duplicates_twins :
  ∃ h', merge_duplicates twins [0; 1] = Ok (h', [0]) ∧
        children (h' !!! 0) = [10; 11; 12].
Proof. eexists. split; [by vm_compute | by vm_compute]. Qed.

(** ** treeify: further properties *)

Section treeify_more.
Implicit Types (h : heap) (nodes with_min roots : list nat).

Lemma grows_refl h : grows h h.
Proof. by intros a. Qed.

Lemma grows_trans h1 h2 h3 : grows h1 h2 → grows h2 h3 → grows h1 h3.
Proof. intros H1 H2 a. etrans; [apply H1|apply H2]. Qed.

Lemma extend_children_grows h lhs rhs : grows h (extend_children h lhs rhs).
Proof.
  intros a. rewrite extend_children_lookup. case_decide as Ha; [|done].
  subst a. cbn. by eexists.
Qed.

Lemma merge_duplicates_fuel_grows fuel : ∀ h nodes h' out,
  merge_duplicates_fuel fuel h nodes = Ok (h', out) → grows h h'.
Proof.
  induction fuel as [|fuel IH]; intros h nodes h' out;
    rewrite merge_duplicates_fuel_unfold;
    destruct (find_pair h nodes) as [[i j]|] eqn:Hf; intros Hrun;
    try discriminate; try (injection Hrun as <- <-; apply grows_refl).
  apply merge_step_found in Hf as (lhs & rhs & _ & _ & _ & _ & Hstep).
  rewrite Hstep in Hrun. cbn in Hrun.
  eapply grows_trans; [apply extend_children_grows|by eapply IH].
Qed.

(** The loop over the roots keeps what the recursive call keeps: the root
    gets the children it had followed by the roots below it. *)
Lemma attach_grows (rec : heap → list nat → result (heap * list nat)) nodes :
  (∀ h sel h' sub, rec h sel = Ok (h', sub) → grows h h') →
  ∀ with_min h roots h' out,
    attach rec nodes with_min h roots = Ok (h', out) → grows h h'.
Proof.
  intros Hrec. induction with_min as [|root rest IH]; intros h roots h' out.
  - intros [= <- _]. apply grows_refl.
  - cbn [attach]. destruct (select_children h nodes root) as [sel| |]; [|done..].
    cbn. destruct (rec h sel) as [[h1 sub]| |] eqn:Hsub; [|done..].
    cbn. intros Hrun%IH. eapply grows_trans; [|done].
    intros a. rewrite lookup_total_insert. case_decide as Ha.
    + subst a. cbn. by eexists.
    + by eapply Hrec.
Qed.

Lemma treeify_fuel_grows fuel : ∀ h nodes h' roots,
  treeify_fuel fuel h nodes = Ok (h', roots) → grows h h'.
Proof.
  induction fuel as [|fuel IH]; intros h nodes h' roots; [done|].
  destruct (decide (nodes = [])) as [->|Hne].
  { intros [= <- _]. apply grows_refl. }
  rewrite treeify_fuel_cons by done.
  destruct (merge_duplicates h (shortest h nodes)) as [[h1 with_min]| |] eqn:Hm;
    [|done..].
  cbn. intros Hrun. eapply grows_trans.
  - by eapply merge_duplicates_fuel_grows.
  - eapply attach_grows; [|done]. apply IH.
Qed.

(** The first loop of [treeify] on a non-empty list, and the roots. *)
Lemma treeify_roots_merged h nodes :
  well_formed h nodes →
  ∃ h1 h' roots,
    merge_duplicates h (shortest h nodes) = Ok (h1, roots) ∧
    treeify h nodes = Ok (h', roots) ∧
    attrs_kept h h' ∧ frame nodes h h'.
Proof.
  intros Hwf. unfold treeify.
  destruct (decide (nodes = [])) as [->|Hne].
  { exists h, h, []. split_and!; [done..|apply attrs_kept_refl|done]. }
  rewrite treeify_fuel_cons by done.
  destruct (merge_duplicates_fuel_ok (length (shortest h nodes)) h (shortest h nodes))
    as (h1 & with_min & Hm & Hattrs1 & Hsub1 & _ & Hframe1); [done|].
  unfold merge_duplicates. rewrite Hm. cbn.
  pose proof (shortest_sublist h nodes) as Hshort.
  destruct (attach_ok (treeify_fuel (length nodes)) nodes) with (with_min := with_min)
    (h := h1) (roots := @nil nat) as (h' & -> & Hattrs' & Hframe').
  { intros h0 sel Hl _ Hwf0.
    destruct (treeify_fuel_ok (length nodes) h0 sel) as (h2 & sub & ? & ? & ? & _);
      [lia|done|]. eauto. }
  { apply sublist_subseteq. by etrans. }
  { by eapply well_formed_attrs. }
  exists h1, h', with_min. split_and!; [done..| |].
  - by eapply attrs_kept_trans.
  - intros a Ha. rewrite Hframe' by done. apply Hframe1.
    intros Hin. apply Ha. by eapply elem_of_sublist.
Qed.

End treeify_more.

(** X13.  The first loop of [treeify] collects, in the order of the input, the
    nodes whose label is no longer than the label of any node of the
    list. *)
Theorem shortest_minimal (h : heap) (nodes : list nat) :
  shortest h nodes =
    filter (λ a, Forall (λ b, length (label (h !!! a)) ≤ length (label (h !!! b)))
                        nodes) nodes.
Proof.
  destruct (decide (nodes = [])) as [->|Hne]; [done|].
  destruct (shortest_spec h nodes Hne) as (m & -> & Hmin & a & Ha & Hm).
  assert (∀ k, k ⊆ nodes →
    filter (λ a, length (label (h !!! a)) = m) k =
    filter (λ a, Forall (λ b, length (label (h !!! a))
                              ≤ length (label (h !!! b))) nodes) k) as E.
  { induction k as [|x k IH]; intros Hk; [done|].
    assert (x ∈ nodes) as Hx by (apply Hk; left).
    rewrite !filter_cons, IH by (intros y Hy; apply Hk; by right).
    destruct (decide (length (label (h !!! x)) = m)) as [Hl|Hl];
      case_decide as Hall; try done; exfalso.
    - apply Hall, Forall_forall. intros y Hy. rewrite Hl. by apply Hmin.
    - rewrite Forall_forall in Hall. apply Hl, Nat.le_antisymm; [|by apply Hmin].
      rewrite <-Hm. by apply Hall. }
  by apply E.
Qed.

(** X14.  On nodes with non-empty labels [treeify] returns as roots the nodes of
    the shortest labels with their duplicates merged: of the nodes that
    carry one such label the first, in the order of the input. *)
Theorem treeify_roots (h : heap) (nodes : list nat) :
  well_formed h nodes →
  ∃ h' roots,
    treeify h nodes = Ok (h', roots) ∧
    roots `sublist_of` shortest h nodes ∧
    ∀ L, labelled h' L roots = take 1 (labelled h L (shortest h nodes)).
Proof.
  intros Hwf.
  destruct (treeify_roots_merged h nodes Hwf)
    as (h1 & h' & roots & Hm & Hrun & Hattrs & _).
  exists h', roots. split; [done|].
  destruct (merge_duplicates_fuel_ok (length (shortest h nodes)) h (shortest h nodes))
    as (h1' & out & Hm' & Hattrs1 & Hsub & _); [done|].
  unfold merge_duplicates in Hm. rewrite Hm' in Hm. injection Hm as -> ->.
  split; [done|]. intros L.
  rewrite (labelled_attrs _ _ _ _ Hattrs).
  rewrite <-(merge_duplicates_fuel_first L _ _ _ _ _ Hm').
  symmetry. by apply labelled_attrs.
Qed.

(** X15.  On nodes with non-empty labels [treeify] changes nothing but children:
    text, label, title and node_type of every object stay, objects that are
    not in the list stay as they are, and the children an object had are
    still its first children, in order. *)
Theorem treeify_changes_children_only (h : heap) (nodes : list nat) :
  well_formed h nodes →
  ∃ h' roots,
    treeify h nodes = Ok (h', roots) ∧
    attrs_kept h h' ∧ frame nodes h h' ∧ grows h h'.
Proof.
  intros Hwf.
  destruct (treeify_roots_merged h nodes Hwf)
    as (h1 & h' & roots & _ & Hrun & Hattrs & Hframe).
  exists h', roots. split_and!; [done..|].
  by eapply treeify_fuel_grows.
Qed.

(** Four nodes labelled A, B, B, A. *)
Lemma treeify_roots_abba :
  ∃ h' roots,
    treeify abba [0; 1; 2; 3] = Ok (h', roots) ∧
    roots `sublist_of` shortest abba [0; 1; 2; 3] ∧
    ∀ L, labelled h' L roots = take 1 (labelled abba L (shortest abba [0; 1; 2; 3])).
Proof.
  apply (treeify_roots abba [0; 1; 2; 3]).
  intros n Hn. repeat (apply elem_of_cons in Hn as [->|Hn]; [done|]).
  by apply elem_of_nil in Hn.
Defined.

(** An interpretation root among the nodes of part 1. *)
Lemma treeify_changes_children_only_interp :
  ∃ h' roots,
    treeify interp_nodes [0; 1; 2; 3] = Ok (h', roots) ∧
    attrs_kept interp_nodes h' ∧ frame [0; 1; 2; 3] interp_nodes h' ∧
    grows interp_nodes h'.
Proof.
  apply (treeify_changes_children_only interp_nodes [0; 1; 2; 3]).
  intros n Hn. repeat (apply elem_of_cons in Hn as [->|Hn]; [done|]).
  by apply elem_of_nil in Hn.
Defined.

(** X16.  A list that holds a node with the empty label makes [treeify] raise
    IndexError: that node is among the roots, and [root.label[-1]] finds no
    segment. *)
Theorem treeify_raises_on_empty_label (h : heap) (nodes : list nat) (n : nat) :
  n ∈ nodes → label (h !!! n) = [] → treeify h nodes = Raise IndexError.
Proof.
  intros Hn Hl.
  assert (nodes ≠ []) as Hne by (intros ->; by apply elem_of_nil in Hn).
  unfold treeify. rewrite treeify_fuel_cons by done.
  destruct (shortest_spec h nodes Hne) as (m & Hs & Hmin & _).
  assert (m = 0) as -> by (specialize (Hmin n Hn); rewrite Hl in Hmin; simpl in Hmin; lia).
  destruct (merge_duplicates_fuel_ok (length (shortest h nodes)) h (shortest h nodes))
    as (h1 & out & Hm & Hattrs & Hsub & _); [done|].
  pose proof (merge_duplicates_fuel_first [] _ _ _ _ _ Hm) as Hfirst.
  unfold merge_duplicates. rewrite Hm. cbn.
  assert (n ∈ labelled h [] (shortest h nodes)) as Hin.
  { rewrite Hs. apply list_elem_of_filter. split; [done|].
    apply list_elem_of_filter. split; [by rewrite Hl|done]. }
  destruct out as [|root rest].
  { destruct (labelled h [] (shortest h nodes)); [by apply elem_of_nil in Hin|done]. }
  assert (label (h1 !!! root) = []) as Hroot.
  { rewrite (attrs_kept_label _ _ _ Hattrs).
    assert (root ∈ shortest h nodes) as Hr
      by (eapply elem_of_sublist; [left|done]).
    rewrite Hs in Hr. apply list_elem_of_filter in Hr as [Hr _].
    by apply nil_length_inv. }
  cbn [attach]. by rewrite select_children_empty_label.
Qed.

(** The node without a label, alone. *)
Lemma treeify_raises_on_empty_label_orphan :
  treeify unlabelled [0] = Raise IndexError.
Proof.
  apply (treeify_raises_on_empty_label unlabelled [0] 0); [by left|reflexivity].
Defined.

(** X17.  A tree labelled one segment per level (every child carries the label
    of its parent and one more segment, siblings differ, no label ends in
    the marker of interpretations) is what [treeify] rebuilds from the flat
    list of its nodes in pre-order. *)
Theorem treeify_rebuilds_segmented (t : Node) :
  segmented t →
  ∃ h', treeify (load (flatten t)) (seq 0 (length (flatten t))) = Ok (h', [0]) ∧
        ∃ depth, snapshot depth h' 0 = Some t.
Proof.
  intros [Hsib Hgr]%segmented_grouped.
  assert (cells [t] = flatten t) as Hcells by apply app_nil_r.
  destruct (treeify_fuel_forest (S (length (flatten t))) [t] (load (flatten t)) 0)
    as (h' & Hrun & Hbuilt & _).
  - rewrite Hcells. lia.
  - done.
  - by constructor.
  - rewrite Hcells. apply placed_load.
  - rewrite Hcells in Hrun. exists h'. split.
    + unfold treeify. by rewrite length_seq.
    + apply built_snapshot in Hbuilt as [depth Hm]. exists depth.
      cbn [root_addrs] in Hm. apply mapM_Some in Hm.
      by apply Forall2_cons_1 in Hm as [? _].
Qed.

(** Part 1005 is labelled one segment per level. *)
Lemma treeify_rebuilds_segmented_part_1005 :
  ∃ h', treeify (load (flatten part_1005)) (seq 0 (length (flatten part_1005)))
          = Ok (h', [0]) ∧
        ∃ depth, snapshot depth h' 0 = Some part_1005.
Proof.
  apply (treeify_rebuilds_segmented part_1005).
  by apply (bool_decide_unpack _).
Defined.

(** X18.  The nodes [treeify] hands to its recursive call for a root of the list
    are nodes of the list, in order, without the root: the call works on
    fewer nodes than its caller. *)
Theorem select_children_shrinks (h : heap) (nodes : list nat) (root : nat)
    (selected : list nat) :
  root ∈ nodes → select_children h nodes root = Ok selected →
  selected `sublist_of` nodes ∧ (root ∉ selected) ∧
  length selected < length nodes.
Proof.
  intros Hroot. destruct (decide (label (h !!! root) = [])) as [Hl|Hl].
  { by rewrite select_children_empty_label. }
  rewrite select_children_adopts by done. intros [= <-]. split_and!.
  - apply sublist_filter.
  - intros [Hin _]%list_elem_of_filter. by apply adopts_irrefl in Hin.
  - eapply length_filter_lt; [done|apply adopts_irrefl].
Qed.

(** The interpretation root of part 1 among four nodes. *)
Lemma select_children_shrinks_interp :
  [1; 2] `sublist_of` [0; 1; 2; 3] ∧ (0 ∉ [1; 2]) ∧
  length [1; 2] < length [0; 1; 2; 3].
Proof.
  apply (select_children_shrinks interp_nodes [0; 1; 2; 3] 0 [1; 2]);
    [by left|reflexivity].
Defined.

(** A section beside an interpretation root of its part is a root of the
    result and is also reached below the interpretation root: the comment on
    the section is attached to it once on each visit. *)
Example treeify_section_beside_interp :
  ∃ h', treeify interp_nodes [0; 1; 2; 3] = Ok (h', [0; 1; 3]) ∧
        children (h' !!! 0) = [1] ∧ children (h' !!! 1) = [2; 2].
Proof. eexists. split_and!; by vm_compute. Qed.

(** ** Decoding: further properties *)

Section json_more.

Lemma json_ind' (P : json → Prop) :
  P JNull → (∀ s, P (JStr s)) → (∀ s, P (JBytes s)) → (∀ z, P (JInt z)) →
  (∀ items, Forall P items → P (JArr items)) →
  (∀ members, Forall (λ kv, P kv.2) members → P (JObj members)) →
  (∀ n, P (JNode n)) →
  ∀ v, P v.
Proof.
  intros Hnull Hstr Hbytes Hint Harr Hobj Hnode.
  fix IH 1. intros [| | | |items|members|n]; [done..| | |done].
  - apply Harr. induction items as [|x items IHitems]; constructor; [apply IH|done].
  - apply Hobj. induction members as [|[k x] members IHm]; constructor;
      [apply IH|done].
Qed.

Lemma fmap_Done {A B} (f : A → B) (m : outcome A) (b : B) :
  f <$> m = Done b ↔ ∃ a, m = Done a ∧ b = f a.
Proof.
  destruct m as [a| |]; cbn; split; try done.
  - intros [= <-]. eauto.
  - by intros (? & [= <-] & ->).
  - by intros (? & ? & _).
  - by intros (? & ? & _).
Qed.

Lemma bind_Done {A B} (f : A → outcome B) (m : outcome A) (b : B) :
  m ≫= f = Done b ↔ ∃ a, m = Done a ∧ f a = Done b.
Proof.
  destruct m as [a| |]; cbn; split; try done.
  - eauto.
  - by intros (? & [= <-] & ?).
  - by intros (? & ? & _).
  - by intros (? & ? & _).
Qed.

Lemma renew_unfold (f : NodeOf Node) :
  renew (Tree f) =
    Tree (mkNode (text f) (renew <$> children f)
            (filter (λ s, s ≠ "") (label f))
            (t ← title f; if decide (t = "") then None else Some t)
            (node_type f) None None).
Proof. cbn [renew]. unfold Node_ok. by rewrite Node_init_bytes. Qed.

Lemma filter_ascii (l : list string) :
  forallb is_ascii l → forallb is_ascii (filter (λ s, s ≠ "") l).
Proof.
  rewrite !forallb_True. intros Hl. apply Forall_forall.
  intros s [_ Hs]%list_elem_of_filter. rewrite Forall_forall in Hl. by apply Hl.
Qed.

Lemma ascii_labels_renew (n : Node) : ascii_labels n → ascii_labels (renew n).
Proof.
  induction n as [f IH] using Node_ind'.
  intros [Hl Hcs]%ascii_labels_unfold. rewrite renew_unfold.
  cbn [ascii_labels label children]. apply andb_True. split.
  - by apply filter_ascii.
  - apply forallb_True, Forall_fmap.
    rewrite Forall_forall in IH, Hcs |- *. intros c Hc. by apply IH, Hcs.
Qed.

Lemma decode_encode_renew (n : Node) :
  ascii_labels n →
  ∃ v, dumps n = Done v ∧ decode v = Done (JNode (renew n)).
Proof.
  induction n as [f IH] using Node_ind'. intros [Hl Has]%ascii_labels_unfold.
  assert (∃ vs, Forall2 (λ c v, dumps c = Done v) (children f) vs ∧
                Forall2 (λ v c, decode v = Done (JNode c)) vs
                        (renew <$> children f))
    as (vs & Hdump & Hdec).
  { clear Hl. induction IH as [|c cs Hc _ IHcs]; [by exists []|].
    apply Forall_cons in Has as [Ha1 Has].
    destruct (Hc Ha1) as (v & Hv & Hd). destruct (IHcs Has) as (vs & Hvs & Hds).
    exists (v :: vs). rewrite fmap_cons. split; by constructor. }
  eexists. split; [by apply dumps_Tree|].
  rewrite (decode_Tree _ _ _ _ _ _ Hdec).
  rewrite Node_init_unicode by done.
  by rewrite Node_init_bytes, renew_unfold.
Qed.

Lemma constructed_Tree (f : NodeOf Node) :
  init_invariant f → Forall (λ c, constructed c) (children f) →
  constructed (Tree f).
Proof.
  intros Hinv Hcs. cbn [constructed]. apply andb_True. split.
  - by apply bool_decide_pack.
  - by apply forallb_True.
Qed.

Lemma renew_constructed (n : Node) : constructed (renew n).
Proof.
  induction n as [f IH] using Node_ind'. rewrite renew_unfold.
  apply constructed_Tree; [|cbn; by apply Forall_fmap].
  eapply Node_init_invariant. apply Node_init_bytes.
Qed.

Lemma fields_of_renew (n : Node) : fields_of true (renew n) = renew n.
Proof.
  induction n as [f IH] using Node_ind'. rewrite renew_unfold.
  cbn [fields_of text children label title node_type].
  do 2 f_equal. rewrite <-list_fmap_compose.
  apply list_fmap_ext. intros i c Hc.
  rewrite Forall_forall in IH. apply IH. by eapply list_elem_of_lookup_2.
Qed.

(** A value found under a key of an object is one of its values. *)
Lemma item_nodes_constructed (k : string) (d : list (string * json)) (v : json) :
  forallb (λ '(_, x), nodes_constructed x) d → item k d = Some v →
  nodes_constructed v.
Proof.
  induction d as [|[k' x] d IH]; [done|].
  cbn [forallb item]. intros [Hx Hd]%andb_True. case_decide.
  - by intros [= <-].
  - by apply IH.
Qed.

Lemma as_list_nodes_constructed (v : json) (cs : list Node) :
  nodes_constructed v → as_list as_node v = Some cs →
  Forall (λ c, constructed c) cs.
Proof.
  destruct v as [| | | |items| |]; try done. cbn [as_list nodes_constructed].
  intros Hall Hcs%mapM_Some. induction Hcs as [|x c items cs Hx _ IH];
    [done|].
  cbn [forallb] in Hall. apply andb_True in Hall as [Hc Hall].
  constructor; [|by apply IH]. destruct x; try done. by injection Hx as <-.
Qed.

Lemma node_decode_hook_constructed (d : list (string * json)) (v : json) :
  forallb (λ '(_, x), nodes_constructed x) d →
  node_decode_hook d = Done v → nodes_constructed v.
Proof.
  intros Hd. unfold node_decode_hook. case_decide as Hkeys.
  - destruct (item "text" d ≫= as_text) as [tx|]; [|done].
    destruct (item "children" d) as [vc|] eqn:Hc; [|done].
    cbn [mbind option_bind].
    destruct (as_list as_node vc) as [cs|] eqn:Hcs; [|done].
    destruct (item "label" d ≫= as_list as_segment) as [lb|]; [|done].
    destruct (as_title (item "title" d)) as [ti|]; [|done].
    destruct (item "node_type" d ≫= as_text) as [nt|]; [|done].
    cbn [typed mbind outcome_bind].
    destruct (Node_init tx cs lb ti nt None) as [n| |] eqn:Hn; [|done..].
    cbn. intros [= <-]. cbn [nodes_constructed].
    pose proof (Node_init_invariant _ _ _ _ _ _ _ Hn) as Hinv.
    apply Node_init_Ok in Hn as (lb' & _ & ->).
    apply constructed_Tree; [done|]. cbn.
    eapply as_list_nodes_constructed; [|done].
    by eapply item_nodes_constructed.
  - by intros [= <-].
Qed.

End json_more.

(** X19.  Encoding a tree of nodes whose label segments are ASCII,
    constructed as it is or changed afterwards, and decoding the result gives
    the tree constructed anew: the constructor has dropped empty label
    segments and empty titles, and [source_xml] and [tagged_text] are gone.
    The tree that comes back is as the constructor leaves nodes, and a second
    round returns it as it is. *)
Theorem decode_encode_renews (n : Node) :
  ascii_labels n →
  dumps n ≫= decode = Done (JNode (renew n)) ∧
  constructed (renew n) ∧
  dumps (renew n) ≫= decode = Done (JNode (renew n)).
Proof.
  intros Ha. split_and!.
  - by destruct (decode_encode_renew n Ha) as (v & -> & Hv).
  - apply renew_constructed.
  - destruct (decode_encode (renew n)) as (v & -> & Hv);
      [apply renew_constructed|by apply ascii_labels_renew|].
    by rewrite fields_of_renew in Hv.
Qed.

(** The paragraph as the XML parser leaves it comes back without
    [source_xml] and [tagged_text]. *)
Lemma decode_encode_renews_par_a :
  dumps par_a_parsed ≫= decode = Done (JNode par_a_plain) ∧
  constructed (renew par_a_parsed) ∧
  dumps (renew par_a_parsed) ≫= decode = Done (JNode (renew par_a_parsed)).
Proof. apply (decode_encode_renews par_a_parsed). exact I. Defined.

(** X20.  Every node that decoding a JSON document produces is as the
    constructor leaves nodes, in all of its tree: no empty label segment, no
    empty title. *)
Theorem decode_yields_constructed (v v' : json) :
  raw v → decode v = Done v' → nodes_constructed v'.
Proof.
  revert v'.
  induction v as [| | | |items IH|members IH|n] using json_ind'; intros v';
    cbn [raw decode]; try (by intros _ [= <-]); [| |done].
  - intros Hraw Hdec. apply fmap_Done in Hdec as (items' & Hm%mapM_Done & ->).
    cbn [nodes_constructed]. revert Hraw.
    induction Hm as [|x y items items' Hxy _ IHm]; [done|].
    cbn [forallb]. intros [Hx Hraw]%andb_True.
    apply Forall_cons in IH as [IHx IH].
    apply andb_True. split; [by apply IHx|by apply IHm].
  - intros Hraw Hdec. apply bind_Done in Hdec as (d & Hm%mapM_Done & Hhook).
    eapply node_decode_hook_constructed; [|done]. clear Hhook. revert Hraw.
    induction Hm as [|[k x] [k' y] members d Hxy _ IHm]; [done|].
    cbn [forallb]. intros [Hx Hraw]%andb_True.
    apply Forall_cons in IH as [IHx IH].
    apply fmap_Done in Hxy as (y' & Hy & [= -> ->]).
    apply andb_True. split; [by apply IHx|by apply IHm].
Qed.

(** The document the encoder writes for part 1005. *)
Lemma decode_yields_constructed_part_1005 :
  ∃ v, dumps part_1005 = Done v ∧ raw v ∧
       decode v = Done (JNode part_1005) ∧
       nodes_constructed (JNode part_1005).
Proof.
  eexists. split; [reflexivity|].
  match goal with
  | |- Is_true (raw ?v) ∧ _ =>
      assert (raw v) as Hraw by exact I;
      assert (decode v = Done (JNode part_1005)) as Hdec by reflexivity
  end.
  split_and!; [exact Hraw|exact Hdec|].
  exact (decode_yields_constructed _ _ Hraw Hdec).
Defined.

(** ** Frozen nodes and the constructor: further properties *)

(** X21.  Two frozen trees are equal for [==] exactly when they agree on what
    [__repr__] prints, that is on text, label, title and, recursively, the
    children of every node; and then they have the same hash.  [node_type]
    and [tagged_text] play no part. *)
Theorem FrozenNode_eq_iff_shown (py_hash : string → Z) (x y : FrozenNode) :
  (FrozenNode_eq x y = true ↔ shown x = shown y) ∧
  (FrozenNode_eq x y = true →
   FrozenNode_hash py_hash x = FrozenNode_hash py_hash y).
Proof.
  split; [apply FrozenNode_eq_shown|].
  intros E%FrozenNode_eq_repr. unfold FrozenNode_hash. by rewrite E.
Qed.

Lemma Node_init_same {C} (f : NodeOf C) :
  init_invariant f → tagged_text f = None →
  Node_init (text f) (children f) (PStr <$> label f) (title f) (node_type f)
    (source_xml f) = Ok f.
Proof.
  intros [Hl Ht] Htt. rewrite Node_init_bytes.
  rewrite filter_all by (by apply Forall_forall).
  destruct f as [tx cs lb [t|] nt sx tt]; cbn in *; subst; [|done].
  by rewrite decide_False by congruence.
Qed.

(** X22.  Constructing a node from the attributes of a node the constructor
    built gives the same node: the constructor changes nothing the second
    time. *)
Theorem Node_init_idempotent {C} (txt : string) (cs : list C)
    (label_in : list pyval) (ttl : option string) (nt : string)
    (sx : option string) (n : NodeOf C) :
  Node_init txt cs label_in ttl nt sx = Ok n →
  Node_init (text n) (children n) (PStr <$> label n) (title n) (node_type n)
    (source_xml n) = Ok n.
Proof.
  intros Hn. apply Node_init_same; [by eapply Node_init_invariant|].
  by apply Node_init_Ok in Hn as (lb & _ & ->).
Qed.

(** A label of a byte string, an integer, an empty string and a unicode
    string, with an empty title. *)
Lemma Node_init_idempotent_mixed :
  let n : NodeOf Node :=
    mkNode "text" [] ["1005"; "2"; "a"] None REGTEXT None None in
  Node_init "text" [] [PStr "1005"; PInt 2; PStr ""; PUni "a"] (Some "")
    REGTEXT None = Ok n ∧
  Node_init (text n) (children n) (PStr <$> label n) (title n) (node_type n)
    (source_xml n) = Ok n.
Proof.
  cbn zeta. split; [reflexivity|].
  apply (Node_init_idempotent "text" []
           [PStr "1005"; PInt 2; PStr ""; PUni "a"] (Some "") REGTEXT None).
  reflexivity.
Defined.
